(** * stoppingGame: optimal-stopping thresholds and the Monte-Carlo driver

    A shallow embedding of [stoppingGame.ts]: the threshold recurrence
    ([computeF], [thresholds]), the per-worker simulation loop
    ([simulate]) and the main thread that splits the simulations over
    the workers and aggregates their subtotals.

    The script computes on JavaScript [number]s.  The embedding is
    written once over an interface [Number] that lists the operations the
    script uses, and is run on two instances: IEEE-754 binary64
    (Rocq's primitive floats, the arithmetic the script really performs)
    and exact canonical rationals [Qc] (the arithmetic of the
    "reals" the specification speaks about).

    Counters, indices and numbers of trials, presses and workers are
    integers [Z]: on integers below [2 ^ 53] the arithmetic of the script
    is exact.  The shares of the workers are computed a second time on
    doubles, with [Math.floor] and [%] as the script applies them, and
    the two computations are compared: they agree below [2 ^ 53] and
    differ above.

    The last two parts hold further properties of the script (edge
    cases of the solver and of the simulation, the content of the
    report, the reading of the command line) and of two tools of the
    seed catalogue of the repository: the table that [cli.ts] prints and
    the set of links that [getProductLinks.ts] returns. *)

From Stdlib Require Import ZArith List Bool Lia Permutation.
From Stdlib Require Import QArith Qabs Qcanon Lqa.
From Stdlib Require Import Floats.
Import ListNotations.

Local Open Scope Z_scope.

(** ** JavaScript numbers *)

(** The operations on [number] that the script uses.  [num_ge x y] is
    [x >= y]; [num_of_Z] reads an integer literal or a parsed integer. *)
Class Number (num : Type) : Type := {
  num_zero : num;
  num_half : num;
  num_one : num;
  num_add : num -> num -> num;
  num_mul : num -> num -> num;
  num_div : num -> num -> num;
  num_ge : num -> num -> bool;
  num_of_Z : Z -> num
}.

Declare Scope num_scope.
Delimit Scope num_scope with num.
Infix "+" := num_add : num_scope.
Infix "*" := num_mul : num_scope.
Infix "/" := num_div : num_scope.
Infix ">=?" := num_ge (at level 70, no associativity) : num_scope.

(** The double nearest to an integer (round to nearest, ties to even). *)
Definition float_of_Z (z : Z) : float :=
  SF2Prim (binary_normalize prec emax z 0 false).

(** Binary64, the arithmetic of the script.  A comparison with NaN is
    false, as [PrimFloat.leb] is. *)
#[export] Instance Number_float : Number float := {|
  num_zero := 0%float;
  num_half := 0.5%float;
  num_one := 1%float;
  num_add := PrimFloat.add;
  num_mul := PrimFloat.mul;
  num_div := PrimFloat.div;
  num_ge := fun x y => PrimFloat.leb y x;
  num_of_Z := float_of_Z
|}.

(** Exact rational arithmetic. *)
#[export] Instance Number_Qc : Number Qc := {|
  num_zero := Q2Qc 0;
  num_half := Q2Qc (1 # 2);
  num_one := Q2Qc 1;
  num_add := Qcplus;
  num_mul := Qcmult;
  num_div := Qcdiv;
  num_ge := fun x y => Qle_bool (this y) (this x);
  num_of_Z := fun z => Q2Qc (inject_Z z)
|}.

(** ** Arrays *)

(** [a[i]] for an integer index: [None] is JavaScript's [undefined], the
    value of a read outside the array. *)
Definition lookup {A : Type} (a : list A) (i : Z) : option A :=
  if i <? 0 then None else nth_error a (Z.to_nat i).

(** Sequencing of computations that read arrays.  The script would go on
    with the [undefined] of a read outside the array (and compute NaN
    from it); the embedding stops there with [None], and the lemmas show
    that [computeF] and [thresholds] never make such a read. *)
Definition bind {A B : Type} (o : option A) (k : A -> option B) : option B :=
  match o with
  | Some x => k x
  | None => None
  end.

Notation "x <- o ;; k" := (bind o (fun x => k))
  (at level 61, o at next level, right associativity).

(** ** The script *)

Definition MAX_PRESSES : Z := 10.

Section Script.

Context {num : Type} {N : Number num}.

Local Open Scope num_scope.

Definition TOP_PRIZE : num := num_of_Z 100000.

(** *** Common helpers *)

(** The body of the loop of [computeF], [n] iterations from index [j]:
    [f.push(0.5 + 0.5 * f[j - 1] ** 2)].  The square [x ** 2] is the
    product [x * x]. *)
Fixpoint computeF_loop (n : nat) (j : Z) (f : list num) : option (list num) :=
  match n with
  | O => Some f
  | S n' =>
      x <- lookup f (j - 1) ;;
      computeF_loop n' (j + 1)%Z (f ++ [num_half + num_half * (x * x)])
  end.

(** [for (let j = 2; j <= maxPresses; j++)] runs [maxPresses - 1] times
    (not at all when [maxPresses < 2]). *)
Definition computeF (maxPresses : Z) : option (list num) :=
  computeF_loop (Z.to_nat (maxPresses - 1)) 2 [num_zero; num_half].

(** The body of the loop of [thresholds], [n] iterations from [k]
    downwards: [t.push(f[k - 1] * prize)]. *)
Fixpoint thresholds_loop (n : nat) (k : Z) (f : list num) (prize : num)
    (t : list num) : option (list num) :=
  match n with
  | O => Some t
  | S n' =>
      x <- lookup f (k - 1) ;;
      thresholds_loop n' (k - 1)%Z f prize (t ++ [x * prize])
  end.

(** [for (let k = maxPresses; k >= 1; k--)] runs [maxPresses] times. *)
Definition thresholds (maxPresses : Z) (prize : num) : option (list num) :=
  f <- computeF maxPresses ;;
  thresholds_loop (Z.to_nat maxPresses) maxPresses f prize [].

(** *** Worker code *)

Section Thread.

(** The successive values of [Math.random()] in one thread: the [r]-th
    call returns [random r], a number of [[0, 1)]. *)
Variable random : nat -> num.

(** [draw >= th[idx]]: a comparison with [undefined] is false. *)
Definition reaches (draw : num) (t : option num) : bool :=
  match t with
  | Some x => draw >=? x
  | None => false
  end.

(** One trial, the inner loop of [simulate]: [n] iterations are left,
    [press] is the loop counter, [r] counts the calls of [Math.random()]
    made so far.  The [break] leaves the loop with the draw added. *)
Fixpoint press_loop (n : nat) (press : Z) (th : list num) (maxPresses : Z)
    (prize : num) (winnings : num) (r : nat) : num * nat :=
  match n with
  | O => (winnings, r)
  | S n' =>
      let idx := (press - 1)%Z in
      let draw := random r * prize in
      let stop := reaches draw (lookup th idx) || (press =? maxPresses)%Z in
      if stop then (winnings + draw, S r)
      else press_loop n' (press + 1)%Z th maxPresses prize winnings (S r)
  end.

(** [for (let press = 1; press <= maxPresses; press++)]. *)
Definition trial (th : list num) (maxPresses : Z) (prize : num)
    (winnings : num) (r : nat) : num * nat :=
  press_loop (Z.to_nat maxPresses) 1 th maxPresses prize winnings r.

(** The outer loop of [simulate], [n] trials left. *)
Fixpoint sims_loop (n : nat) (th : list num) (maxPresses : Z) (prize : num)
    (winnings : num) (r : nat) : num * nat :=
  match n with
  | O => (winnings, r)
  | S n' =>
      let '(winnings', r') := trial th maxPresses prize winnings r in
      sims_loop n' th maxPresses prize winnings' r'
  end.

(** [for (let s = 0; s < sims; s++)], from [winnings = 0]. *)
Definition simulate (sims : Z) (th : list num) (maxPresses : Z)
    (prize : num) : num :=
  fst (sims_loop (Z.to_nat sims) th maxPresses prize num_zero 0%nat).

Record workerData : Type := {
  wd_sims : Z;
  wd_maxPresses : Z;
  wd_prize : num
}.

(** The worker: the subtotal it posts to the main thread. *)
Definition worker (wd : workerData) : option num :=
  th <- thresholds (wd_maxPresses wd) (wd_prize wd) ;;
  Some (simulate (wd_sims wd) th (wd_maxPresses wd) (wd_prize wd)).

End Thread.

(** *** Main thread *)

(** What the main thread prints when the last worker has answered (the
    elapsed time is left out). *)
Record report : Type := {
  report_thresholds : list num;
  report_totalSims : Z;
  report_numWorkers : Z;
  report_mean : num
}.

(** The variables the message handlers share, and what was printed. *)
Record main_state : Type := {
  finished : Z;
  grandTotal : num;
  printed : list report
}.

Definition main_init : main_state :=
  {| finished := 0; grandTotal := num_zero; printed := [] |}.

Section Main.

Variables totalSims numWorkers : Z.

(** [Math.floor(totalSims / numWorkers)] and [totalSims % numWorkers] on
    integers, for [numWorkers] other than 0; the remainder of JavaScript
    has the sign of the dividend.  These are the integers that the
    doubles of the script hold for [0 <= totalSims < 2 ^ 53] and
    [1 <= numWorkers < 2 ^ 53], as the part on the WorkDistributor
    shows; above [2 ^ 53] the script rounds the quotient before it takes
    the floor, and [Double.simsPerWorker] below is what it computes. *)
Definition simsPerWorker : Z := (totalSims / numWorkers)%Z.
Definition extra : Z := Z.rem totalSims numWorkers.

(** [workerData] of worker [i].  The sum is the one of the integers; the
    script rounds it to a double, see [Double.sims]. *)
Definition spawn (i : Z) : workerData :=
  {| wd_sims := (simsPerWorker + (if (i =? 0)%Z then extra else 0))%Z;
     wd_maxPresses := MAX_PRESSES;
     wd_prize := TOP_PRIZE |}.

(** [for (let i = 0; i < numWorkers; i++)]: the workers in the order of
    their creation. *)
Fixpoint spawn_loop (n : nat) (i : Z) : list workerData :=
  match n with
  | O => []
  | S n' => spawn i :: spawn_loop n' (i + 1)%Z
  end.

Definition workers : list workerData := spawn_loop (Z.to_nat numWorkers) 0.

(** The handler of a worker's message [sub]. *)
Definition on_message (th : list num) (sub : num) (st : main_state) : main_state :=
  let grandTotal' := grandTotal st + sub in
  let finished' := (finished st + 1)%Z in
  if (finished' =? numWorkers)%Z then
    let mean := grandTotal' / num_of_Z totalSims in
    {| finished := finished';
       grandTotal := grandTotal';
       printed := printed st ++
         [{| report_thresholds := th;
             report_totalSims := totalSims;
             report_numWorkers := numWorkers;
             report_mean := mean |}] |}
  else
    {| finished := finished'; grandTotal := grandTotal'; printed := printed st |}.

(** The event loop of the main thread: the messages arrive one at a time,
    [order] lists the workers in the order their messages arrive.  Worker
    [i] draws from its own source [randoms i].  The result is [None] when
    [order] names a worker that was not created. *)
Fixpoint deliver (randoms : nat -> nat -> num) (th : list num)
    (order : list nat) (st : main_state) : option main_state :=
  match order with
  | [] => Some st
  | i :: rest =>
      wd <- nth_error workers i ;;
      sub <- worker (randoms i) wd ;;
      deliver randoms th rest (on_message th sub st)
  end.

(** The main thread up to the arrival of the messages of [order]. *)
Definition main (randoms : nat -> nat -> num) (order : list nat)
    : option main_state :=
  th <- thresholds MAX_PRESSES TOP_PRIZE ;;
  deliver randoms th order main_init.

End Main.

End Script.

(** In a complete run every worker that the main thread created answers
    once: the arrival order is a permutation of the indices of
    [workers]. *)
Definition complete_run {num : Type} {N : Number num}
    (totalSims numWorkers : Z) (order : list nat) : Prop :=
  Permutation order
    (seq 0 (length (workers (num := num) totalSims numWorkers))).

(** ** The shares in binary64

    [totalSims] and [numWorkers] are doubles, and the script computes the
    shares of the workers on doubles: the quotient is rounded before
    [Math.floor] is taken, and the sum [simsPerWorker + extra] is rounded
    too.  [Math.floor] and [%] are written from their definition in
    ECMAScript, on the representation [spec_float] of a double. *)

(** [Math.floor(x)]: a zero, an infinity, NaN and a number without
    fractional part are returned as they are; otherwise the greatest
    integer below [x], which is a double. *)
Definition SFfloor (x : spec_float) : spec_float :=
  match x with
  | S754_finite s m e =>
      if 0 <=? e then x
      else binary_normalize prec emax
             ((if s then Z.neg m else Z.pos m) / 2 ^ (- e)) 0 false
  | _ => x
  end.

Definition Math_floor (x : float) : float := SF2Prim (SFfloor (Prim2SF x)).

(** [x % y]: NaN when [x] is infinite or [y] is zero, [x] when [y] is
    infinite or [x] is zero; otherwise the exact remainder of the
    division that truncates the quotient, with the sign of [x] (also
    when it is zero). *)
Definition SFrem (x y : spec_float) : spec_float :=
  match x, y with
  | S754_nan, _ | _, S754_nan => S754_nan
  | S754_infinity _, _ => S754_nan
  | _, S754_zero _ => S754_nan
  | _, S754_infinity _ => x
  | S754_zero _, _ => x
  | S754_finite sx mx ex, S754_finite _ my ey =>
      let e := Z.min ex ey in
      let r := Z.rem (Z.pos mx * 2 ^ (ex - e)) (Z.pos my * 2 ^ (ey - e)) in
      binary_normalize prec emax (if sx then - r else r) e sx
  end.

Definition remainder (x y : float) : float :=
  SF2Prim (SFrem (Prim2SF x) (Prim2SF y)).

Module Double.

Section Main.

(** [totalSims] and [numWorkers], the doubles that [Number.parseInt]
    returns. *)
Variables totalSims numWorkers : float.

Local Open Scope float_scope.

(** [Math.floor(totalSims / numWorkers)] and [totalSims % numWorkers]. *)
Definition simsPerWorker : float := Math_floor (totalSims / numWorkers).
Definition extra : float := remainder totalSims numWorkers.

(** [sims] of worker [i]: [simsPerWorker + (i === 0 ? extra : 0)]. *)
Definition sims (i : Z) : float :=
  simsPerWorker + (if (i =? 0)%Z then extra else 0).

(** [for (let i = 0; i < numWorkers; i++)]: the values of [sims] in [n]
    iterations of the loop, from [i]. *)
Fixpoint spawn_loop (n : nat) (i : Z) : list float :=
  match n with
  | O => []
  | S n' => sims i :: spawn_loop n' (i + 1)%Z
  end.

End Main.

End Double.

(** The [sims] that the workers are given, in the order of their
    creation, when the command line holds the numerals of the integers
    [totalSims] and [numWorkers]: [Number.parseInt] returns their
    doubles, and the loop runs [numWorkers] times. *)
Definition sims_binary64 (totalSims numWorkers : Z) : list float :=
  Double.spawn_loop (float_of_Z totalSims) (float_of_Z numWorkers)
    (Z.to_nat numWorkers) 0.

(** The integer that a double holds; [None] for a number with a
    fractional part, an infinity and NaN. *)
Definition integer_of (x : float) : option Z :=
  match Prim2SF x with
  | S754_zero _ => Some 0
  | S754_finite s m e =>
      let v := if s then Z.neg m else Z.pos m in
      if 0 <=? e then Some (v * 2 ^ e)
      else if Z.pos m mod 2 ^ (- e) =? 0 then Some (v / 2 ^ (- e))
      else None
  | S754_infinity _ | S754_nan => None
  end.

(** ** Reference functions for the statements *)

Section Reference.

Context {num : Type} {N : Number num}.

Local Open Scope num_scope.

(** The value [computeF] stores at index [j], read off its loop: the two
    initial elements, then [0.5 + 0.5 * f[j - 1] ** 2]. *)
Fixpoint f_code (j : nat) : num :=
  match j with
  | O => num_zero
  | S j' =>
      match j' with
      | O => num_half
      | S _ => num_half + num_half * (f_code j' * f_code j')
      end
  end.

(** The recurrence in the words of the specification: [f(0) = 0],
    [f(1) = 0.5], [f(j) = 0.5 * (1 + f(j-1)^2)] for [j >= 2]. *)
Fixpoint f_spec (j : nat) : num :=
  match j with
  | O => num_zero
  | S j' =>
      match j' with
      | O => num_half
      | S _ => num_half * (num_one + f_spec j' * f_spec j')
      end
  end.

(** Halving distributes over [1 + y]: the law that identifies the
    expression of the script, [0.5 + 0.5 * y], with the one of the
    specification, [0.5 * (1 + y)]. *)
Definition half_distributes : Prop :=
  forall y : num, num_half * (num_one + y) = num_half + num_half * y.

(** The table of [m] thresholds built from the values [g]: index [i]
    is the entry for [m - i] presses remaining, [g (m - i - 1) * prize]. *)
Definition table (g : nat -> num) (prize : num) (m : nat) : list num :=
  map (fun i => g (m - 1 - i)%nat * prize) (seq 0 m).

(** The solver returns a table of [maxPresses] entries whose entry for
    [k] presses remaining, at index [maxPresses - k], is
    [f_spec (k - 1) * prize]. *)
Definition recurrence_table (maxPresses : Z) (prize : num) : Prop :=
  exists t : list num,
    thresholds maxPresses prize = Some t /\
    Z.of_nat (length t) = maxPresses /\
    forall k : Z, (1 <= k <= maxPresses)%Z ->
      lookup t (maxPresses - k) = Some (f_spec (Z.to_nat (k - 1)) * prize).

(** The solver returns a table of [maxPresses] entries that does not
    increase along its indices, in the order [>=] of the script, and ends
    with [0]. *)
Definition nonincreasing_table (maxPresses : Z) (prize : num) : Prop :=
  exists t : list num,
    thresholds maxPresses prize = Some t /\
    Z.of_nat (length t) = maxPresses /\
    (forall (i j : Z) (x y : num),
       (0 <= i <= j)%Z ->
       lookup t i = Some x -> lookup t j = Some y -> (x >=? y) = true) /\
    lookup t (maxPresses - 1) = Some num_zero.

(** The table for the prize [c] is the table for the prize [1] with
    every entry multiplied by [c]. *)
Definition homogeneous_table (maxPresses : Z) (c : num) : Prop :=
  exists t1 tc : list num,
    thresholds maxPresses num_one = Some t1 /\
    thresholds maxPresses c = Some tc /\
    tc = map (fun x => x * c) t1.

(** The draw made at press [press] (counted from 1) of the trial that
    starts after [r] calls of [Math.random()]. *)
Definition draw_at (random : nat -> num) (prize : num) (r : nat) (press : Z)
    : num :=
  random (r + Z.to_nat (press - 1))%nat * prize.

(** WorkDistributor: the numbers of trials handed to the workers, in
    the order of their creation. *)
Definition trial_counts (totalSims numWorkers : Z) : list Z :=
  map wd_sims (workers totalSims numWorkers).

End Reference.

(** The sum of a list of integers. *)
Definition Zsum (l : list Z) : Z := fold_right Z.add 0 l.

(** The rational number a double stands for; [None] for the infinities
    and NaN. *)
Definition float_to_Q (x : float) : option Q :=
  match Prim2SF x with
  | S754_zero _ => Some 0%Q
  | S754_finite s m e =>
      let v := (inject_Z (Zpos m) * Qpower 2 e)%Q in
      Some (if s then (- v)%Q else v)
  | S754_infinity _ | S754_nan => None
  end.

(** [x] is a number within [tol] of [v]. *)
Definition float_within (tol v : Q) (x : float) : bool :=
  match float_to_Q x with
  | Some q => Qle_bool (Qabs (q - v)) tol
  | None => false
  end.

Definition Qc_within (tol v : Q) (x : Qc) : bool :=
  Qle_bool (Qabs (this x - v)) tol.

(** In exact arithmetic: every draw [Math.random() * prize] of the source
    lies in [[0, prize)]. *)
Definition draws_in_range (random : nat -> Qc) (prize : Qc) : Prop :=
  forall r : nat, (num_zero <= (random r * prize)%num)%Qc /\
                  ((random r * prize)%num < prize)%Qc.

(** The thresholds the specification lists for [ThresholdSolver(10, 100000)]. *)
Definition listed_thresholds : list Q :=
  [8498214 # 100; 8364465 # 100; 8203006 # 100; 8003757 # 100;
   7750815 # 100; 7417297 # 100; 6953125 # 100; 6250000 # 100;
   5000000 # 100; 0]%Q.

(** ** Further notions for the statements *)

(** Two arrays with the same entries below index [n]. *)
Definition agree_below {A : Type} (n : Z) (a b : list A) : Prop :=
  forall i : Z, 0 <= i < n -> lookup a i = lookup b i.

(** The subtotal that worker [i] of a run posts: [simulate] over its
    share of the trials with the table [th] and the defaults of the
    script, from its own random source. *)
Definition subtotal_of {num : Type} {N : Number num}
    (totalSims numWorkers : Z) (randoms : nat -> nat -> num)
    (th : list num) (i : nat) : num :=
  simulate (randoms i)
    (nth i (trial_counts (num := num) totalSims numWorkers) 0)
    th MAX_PRESSES TOP_PRIZE.

(** A value of [Math.random()]: a double of [[0, 1)]. *)
Definition unit_interval (u : float) : Prop :=
  (0 <=? u)%float = true /\ (u <? 1)%float = true.

(** [th.forEach((t, i) => ...)] of the report prints one line for each
    threshold: [forEach_lines] lists what the lines show, the number
    [remaining = MAX_PRESSES - i] and the threshold [t]. *)
Fixpoint forEach_lines {num : Type} (th : list num) (i : Z)
    : list (Z * num) :=
  match th with
  | [] => []
  | t :: rest => (MAX_PRESSES - i, t) :: forEach_lines rest (i + 1)
  end.

Definition report_lines {num : Type} (rep : report (num := num))
    : list (Z * num) :=
  forEach_lines (report_thresholds rep) 0.

(** Three sources of [Math.random()], one for each of three workers,
    that always return the doubles nearest to 1/3, 2/3 and 1/7. *)
Definition thirds (i : nat) (r : nat) : float :=
  match i with
  | O => 0x1.5555555555555p-2
  | S O => 0x1.5555555555555p-1
  | _ => 0x1.2492492492492p-3
  end%float.

(** ** The arguments of the command line *)

(** A JavaScript string: its UTF-16 code units. *)
Definition jsstring : Type := list N.

(** White space and line terminators, which [parseInt] skips at the
    start of its argument. *)
Definition is_white_space (c : N) : bool :=
  (existsb (N.eqb c)
     [9; 10; 11; 12; 13; 32; 160; 5760; 8232; 8233; 8239; 8287; 12288; 65279]
   || ((8192 <=? c) && (c <=? 8202)))%N.

Fixpoint trim_start (s : jsstring) : jsstring :=
  match s with
  | [] => []
  | c :: rest => if is_white_space c then trim_start rest else s
  end.

(** The code units of ["0"] to ["9"]. *)
Definition is_digit (c : N) : bool := ((48 <=? c) && (c <=? 57))%N.

(** The integer written by the digits at the start of [s], after the
    digits of [acc]. *)
Fixpoint leading_digits (s : jsstring) (acc : Z) : Z :=
  match s with
  | [] => acc
  | c :: rest =>
      if is_digit c then leading_digits rest (10 * acc + (Z.of_N c - 48))
      else acc
  end.

(** [Number.parseInt(s, 10)]: white space, a sign, then the digits up to
    the first code unit that is not one; NaN without a digit.  The
    number is the integer read, rounded to a double (numerals of more
    than 20 digits are left to the implementation by the language). *)
Definition parseInt (s : jsstring) : float :=
  let t := trim_start s in
  let negative := match t with c :: _ => (c =? 45)%N | [] => false end in
  let body :=
    match t with
    | c :: rest => if ((c =? 45) || (c =? 43))%N then rest else t
    | [] => []
    end in
  match body with
  | [] => nan
  | c :: _ =>
      if is_digit c then
        let mathInt := leading_digits body 0 in
        if mathInt =? 0 then (if negative then neg_zero else 0%float)
        else float_of_Z (if negative then - mathInt else mathInt)
      else nan
  end.

(** ["10000000000"]. *)
Definition default_sims : jsstring :=
  [49; 48; 48; 48; 48; 48; 48; 48; 48; 48; 48]%N.

(** [totalSims]: [Number.parseInt(process.argv[2] || "10000000000", 10)];
    [None] is the [undefined] of a missing argument, and the empty
    string is false as well. *)
Definition totalSims_of (arg : option jsstring) : float :=
  parseInt match arg with
           | Some (c :: rest) => c :: rest
           | _ => default_sims
           end.

(** The integer that a sequence of digits writes. *)
Definition numeral_value (ds : jsstring) : Z :=
  fold_left (fun a c => 10 * a + (Z.of_N c - 48)) ds 0.

(** [rest] does not go on with a digit. *)
Definition no_digit_ahead (rest : jsstring) : Prop :=
  match rest with
  | [] => True
  | c :: _ => is_digit c = false
  end.

(** ** The catalogue tools

    [cli.ts] prints the products of the data base as a table, and
    [getProductLinks.ts] collects the links of the product pages. *)

(** The code units of [" "], ["-"] and the ellipsis U+2026. *)
Definition SPACE : N := 32.
Definition DASH : N := 45.
Definition ELLIPSIS : N := 8230.

(** [s.slice(0, end)]: a negative [end] counts from the end of [s]. *)
Definition slice (s : jsstring) (e : Z) : jsstring :=
  let len := Z.of_nat (length s) in
  let final := if e <? 0 then Z.max (len + e) 0 else Z.min e len in
  firstn (Z.to_nat final) s.

(** [s.padEnd(maxLength)], which fills with spaces. *)
Definition padEnd (s : jsstring) (maxLength : Z) : jsstring :=
  if maxLength <=? Z.of_nat (length s) then s
  else s ++ repeat SPACE (Z.to_nat (maxLength - Z.of_nat (length s))).

(** [pad] of [printProducts]:
    [s.length > len ? s.slice(0, len - 1) + ELLIPSIS : s.padEnd(len)]. *)
Definition pad (s : jsstring) (len : Z) : jsstring :=
  if Z.of_nat (length s) >? len then slice s (len - 1) ++ [ELLIPSIS]
  else padEnd s len.

(** ["ID"], ["Name"], ["Price"], ["In Stock"], ["Link"]. *)
Definition headers : list jsstring :=
  [[73; 68]; [78; 97; 109; 101]; [80; 114; 105; 99; 101];
   [73; 110; 32; 83; 116; 111; 99; 107]; [76; 105; 110; 107]]%N.

Definition widths : list Z := [6; 40; 8; 9; 40].

(** [a.map((v, i) => f(v, i))], from index [i]. *)
Fixpoint map_index {A B : Type} (f : A -> Z -> B) (a : list A) (i : Z)
    : list B :=
  match a with
  | [] => []
  | v :: rest => f v i :: map_index f rest (i + 1)
  end.

(** [a.join(sep)]. *)
Fixpoint join (sep : jsstring) (a : list jsstring) : jsstring :=
  match a with
  | [] => []
  | v :: rest =>
      match rest with
      | [] => v
      | _ :: _ => v ++ sep ++ join sep rest
      end
  end.

(** [row.map((v, i) => pad(v, widths[i] ?? 0)).join(" | ")]. *)
Definition format_row (row : list jsstring) : jsstring :=
  join [32; 124; 32]%N
    (map_index
       (fun v i => pad v match lookup widths i with
                         | Some w => w
                         | None => 0
                         end) row 0).

(** ["-".repeat(widths.reduce((a, b) => a + b + 3, -3))]. *)
Definition rule : jsstring :=
  repeat DASH (Z.to_nat (fold_left (fun a b => a + b + 3) widths (-3))).

(** A row of the table [products]; [price] may be [null]. *)
Record Product : Type := {
  product_id : Z;
  product_name : jsstring;
  product_price : option float;
  product_is_in_stock : bool;
  product_link : jsstring
}.

(** ["No matching products.\n"]. *)
Definition no_matching_products : jsstring :=
  [78; 111; 32; 109; 97; 116; 99; 104; 105; 110; 103; 32; 112; 114; 111;
   100; 117; 99; 116; 115; 46; 10]%N.

Section Cli.

(** The numerals of [p.id.toString()] and of [p.price.toFixed(2)]. *)
Variable toString : Z -> jsstring.
Variable toFixed : float -> jsstring.

(** The cells of a product: a missing price is the dash U+2014, the
    stock is the check mark U+2713 or the cross U+2717. *)
Definition cells (p : Product) : list jsstring :=
  [toString (product_id p);
   product_name p;
   match product_price p with
   | Some x => toFixed x
   | None => [8212%N]
   end;
   if product_is_in_stock p then [10003%N] else [10007%N];
   product_link p].

(** [printProducts]: the calls of [console.log], each with its
    arguments. *)
Definition printProducts (rows : list Product) : list (list jsstring) :=
  match rows with
  | [] => [[no_matching_products]]
  | _ :: _ =>
      [format_row headers; [10%N]; rule]
        :: map (fun p => [format_row (cells p)]) rows ++ [[]]
  end.

End Cli.

(** [new Set(values)] as the list of its elements in the order of their
    insertion: adding an element that is present changes nothing. *)
Definition Set_add (s : list jsstring) (x : jsstring) : list jsstring :=
  if in_dec (list_eq_dec N.eq_dec) x s then s else s ++ [x].

Definition Set_from (values : list jsstring) : list jsstring :=
  fold_left Set_add values [].

Section ProductLinks.

(** The links of class [product-item-photo] on the page of a category,
    in the order of the document. *)
Variable hrefs : jsstring -> list jsstring.

(** [getProductLinks] when every page is fetched: the pages are read in
    the order of [links], and the result is
    [Array.from(new Set(all.flat()))]. *)
Definition getProductLinks (links : list jsstring) : list jsstring :=
  Set_from (concat (map hrefs links)).

End ProductLinks.

(** ** Binary64 rounding: the notions of the proofs

    The operations of binary64 are specified in the standard library by
    [SpecFloat]: a product or a sum is the exact result rounded to
    nearest, ties to even, by [binary_round_aux]. *)

(** The position of the bits shifted out, relative to one half. *)
Definition loc_of (m k : Z) : location :=
  if m mod 2 ^ k =? 0 then loc_Exact
  else loc_Inexact (2 * (m mod 2 ^ k) ?= 2 ^ k).

(** Rounding to nearest, ties to even, of [m / 2 ^ k]. *)
Definition rne (m k : Z) : Z := round_nearest_even (m / 2 ^ k) (loc_of m k).

(** Non-negative floats numbered in increasing order: the subnormal and
    normal numbers by exponent, then mantissa; infinity last. *)
Definition ordn (x : spec_float) : Z :=
  match x with
  | S754_zero _ => 0
  | S754_finite _ m e => (e + 1074) * 2 ^ 52 + Z.pos m
  | S754_infinity _ => 2047 * 2 ^ 52
  | S754_nan => -1
  end.

(** Zero, a positive finite number or plus infinity. *)
Definition nonneg (x : spec_float) : bool :=
  match x with
  | S754_zero false | S754_finite false _ _ | S754_infinity false => true
  | _ => false
  end.

(** The second half of [binary_round_aux]. *)
Definition finish (sx : bool) (q e : Z) : spec_float :=
  let '(mrs, e') := shr_fexp prec emax q e loc_Exact in
  match shr_m mrs with
  | 0 => S754_zero sx
  | Z.pos m => if e' <=? emax - prec then S754_finite sx m e' else S754_infinity sx
  | Z.neg _ => S754_nan
  end.

(** The exponent of the result and the number of bits to drop. *)
Definition rexp (m : positive) (e : Z) : Z :=
  fexp prec emax (Z.pos (digits2_pos m) + e).

(** The ordinal of plus infinity. *)
Definition top : Z := 2047 * 2 ^ 52.

(** The ordinal of the float nearest to [m * 2 ^ e]. *)
Definition round_ordn (m : positive) (e : Z) : Z :=
  Z.min top ((rexp m e + 1074) * 2 ^ 52 + rne (Z.pos m) (rexp m e - e)).

(** [m1 * 2 ^ e1 <= m2 * 2 ^ e2], on integers. *)
Definition vle (m1 : positive) (e1 : Z) (m2 : positive) (e2 : Z) : Prop :=
  Z.pos m1 * 2 ^ (e1 - Z.min e1 e2) <= Z.pos m2 * 2 ^ (e2 - Z.min e1 e2).

(** The mantissa of the exact sum, at the smaller exponent. *)
Definition sum_mant (mx : positive) (ex : Z) (my : positive) (ey : Z)
    : positive :=
  fst (shl_align mx ex (Z.min ex ey)) + fst (shl_align my ey (Z.min ex ey)).

(** A positive finite double. *)
Definition pos_finite (x : float) : Prop :=
  exists (m : positive) (e : Z), Prim2SF x = S754_finite false m e.

(** [lo <= x <= hi], as JavaScript compares. *)
Definition between (lo hi x : float) : Prop :=
  (lo <=? x)%float = true /\ (x <=? hi)%float = true.

(** A map that is monotone on the positive finite numbers. *)
Definition monotone (g : float -> float) : Prop :=
  forall a b : float,
    pos_finite a -> pos_finite b -> (a <=? b)%float = true ->
    nonneg (Prim2SF (g a)) = true /\ nonneg (Prim2SF (g b)) = true /\
    (g a <=? g b)%float = true.

(** One step of the recurrence, as the script computes it. *)
Definition step (x : float) : float := (0.5 + 0.5 * (x * x))%float.

(** ** Arrays: reads *)

Lemma lookup_nat {A : Type} (a : list A) (i : nat) :
  lookup a (Z.of_nat i) = nth_error a i.
Proof.
  unfold lookup.
  destruct (Z.ltb_spec (Z.of_nat i) 0) as [H | H]; [lia |].
  now rewrite Nat2Z.id.
Qed.

Lemma lookup_map_seq {A : Type} (g : nat -> A) (len i : nat) :
  (i < len)%nat -> lookup (map g (seq 0 len)) (Z.of_nat i) = Some (g i).
Proof.
  intros H.
  rewrite lookup_nat, nth_error_map, nth_error_seq.
  destruct (Nat.ltb_spec i len) as [_ | H']; [reflexivity | lia].
Qed.

Lemma lookup_length {A : Type} (a : list A) (i : Z) (x : A) :
  lookup a i = Some x -> 0 <= i < Z.of_nat (length a).
Proof.
  unfold lookup.
  destruct (Z.ltb_spec i 0) as [H | H]; [discriminate |].
  intros E.
  assert (Z.to_nat i < length a)%nat by (apply nth_error_Some; congruence).
  lia.
Qed.

(** ** Binary64 rounding *)

Ltac pos_finite_const := do 2 eexists; vm_compute; reflexivity.

Section Binary64.

(** *** Numbers of binary digits *)

(** [digits2_pos m] is the number of binary digits of [m]. *)
Lemma digits2_pos_bounds (m : positive) :
  2 ^ (Z.pos (digits2_pos m) - 1) <= Z.pos m < 2 ^ Z.pos (digits2_pos m).
Proof.
  induction m as [m IH | m IH |]; cbn [digits2_pos].
  - rewrite Pos2Z.inj_succ.
    replace (Z.succ (Z.pos (digits2_pos m)) - 1) with (Z.succ (Z.pos (digits2_pos m) - 1)) by lia.
    rewrite !Z.pow_succ_r by lia. lia.
  - rewrite Pos2Z.inj_succ.
    replace (Z.succ (Z.pos (digits2_pos m)) - 1) with (Z.succ (Z.pos (digits2_pos m) - 1)) by lia.
    rewrite !Z.pow_succ_r by lia. lia.
  - cbn. lia.
Qed.

(** The number of digits is determined by the binade. *)
Lemma digits2_pos_unique (m : positive) (d : Z) :
  2 ^ (d - 1) <= Z.pos m < 2 ^ d -> Z.pos (digits2_pos m) = d.
Proof.
  intros [Hlo Hhi].
  pose proof (digits2_pos_bounds m) as [Hlo' Hhi'].
  assert (0 < d).
  { destruct (Z.lt_trichotomy d 0) as [Hd | [Hd | Hd]]; try lia.
    - rewrite Z.pow_neg_r in Hhi by lia. lia.
    - subst d. cbn in Hhi. lia. }
  destruct (Z.lt_trichotomy (Z.pos (digits2_pos m)) d) as [Hd | [Hd | Hd]]; try lia.
  - assert (2 ^ Z.pos (digits2_pos m) <= 2 ^ (d - 1)) by (apply Z.pow_le_mono_r; lia). lia.
  - assert (2 ^ d <= 2 ^ (Z.pos (digits2_pos m) - 1)) by (apply Z.pow_le_mono_r; lia). lia.
Qed.

(** *** Shifting right *)

(** [iter_pos f p] applies [f] [p] times. *)
Lemma iter_pos_nat {A : Type} (f : A -> A) (p : positive) (x : A) :
  iter_pos f p x = Nat.iter (Pos.to_nat p) f x.
Proof.
  revert x.
  induction p as [p IH | p IH |]; intros x; cbn [iter_pos].
  - rewrite !IH. rewrite Pos2Nat.inj_xI.
    replace (S (2 * Pos.to_nat p)) with (Pos.to_nat p + (Pos.to_nat p + 1))%nat by lia.
    rewrite !Nat.iter_add. reflexivity.
  - rewrite !IH. rewrite Pos2Nat.inj_xO.
    replace (2 * Pos.to_nat p)%nat with (Pos.to_nat p + Pos.to_nat p)%nat by lia.
    rewrite Nat.iter_add. reflexivity.
  - reflexivity.
Qed.

(** One shift: the quotient by 2, the bit shifted out, and whether a 1
    was shifted out before. *)
Lemma shr_1_spec (m : Z) (r s : bool) :
  0 <= m ->
  shr_1 {| shr_m := m; shr_r := r; shr_s := s |}
  = {| shr_m := m / 2; shr_r := Z.odd m; shr_s := r || s |}.
Proof.
  intros Hm. rewrite <- Z.div2_div.
  destruct m as [| [p | p |] | p]; try reflexivity. lia.
Qed.

(** After [j + 1] shifts: the quotient by [2 ^ (j + 1)], the last bit
    shifted out, and whether the bits below it are all 0. *)
Lemma shr_iter_spec (m : Z) (j : nat) :
  0 <= m ->
  Nat.iter (S j) shr_1 {| shr_m := m; shr_r := false; shr_s := false |}
  = {| shr_m := m / 2 ^ Z.of_nat (S j);
       shr_r := Z.odd (m / 2 ^ Z.of_nat j);
       shr_s := negb (m mod 2 ^ Z.of_nat j =? 0) |}.
Proof.
  intros Hm.
  induction j as [| j IH].
  - cbn [Nat.iter nat_rect]. rewrite shr_1_spec by assumption.
    change (2 ^ Z.of_nat 1) with 2. change (2 ^ Z.of_nat 0) with 1.
    rewrite Z.div_1_r, Z.mod_1_r. reflexivity.
  - change (Nat.iter (S (S j)) shr_1 ?x) with (shr_1 (Nat.iter (S j) shr_1 x)).
    rewrite IH.
    assert (Hp : 0 < 2 ^ Z.of_nat j) by (apply Z.pow_pos_nonneg; lia).
    assert (Hp1 : 2 ^ Z.of_nat (S j) = 2 ^ Z.of_nat j * 2)
      by (rewrite Nat2Z.inj_succ, Z.pow_succ_r; lia).
    assert (Hp2 : 2 ^ Z.of_nat (S (S j)) = 2 ^ Z.of_nat (S j) * 2)
      by (rewrite (Nat2Z.inj_succ (S j)), Z.pow_succ_r; lia).
    rewrite shr_1_spec by (apply Z.div_pos; lia).
    f_equal.
    + rewrite Hp2. rewrite Z.div_div by lia. reflexivity.
    + rewrite Hp1. rewrite Z.rem_mul_r by lia.
      rewrite Zmod_odd.
      pose proof (Z.mod_pos_bound m (2 ^ Z.of_nat j) ltac:(lia)).
      destruct (Z.odd (m / 2 ^ Z.of_nat j));
        destruct (Z.eqb_spec (m mod 2 ^ Z.of_nat j) 0) as [E | E];
        cbn [negb orb];
        match goal with
        | |- _ = negb (?t =? 0) => destruct (Z.eqb_spec t 0)
        end; try reflexivity; lia.
Qed.

(** [shr] divides by [2 ^ n] and records where the remainder lies. *)
Lemma shr_spec (m e n : Z) :
  0 <= m -> 0 <= n ->
  shr_m (fst (shr (shr_record_of_loc m loc_Exact) e n)) = m / 2 ^ n /\
  loc_of_shr_record (fst (shr (shr_record_of_loc m loc_Exact) e n))
  = loc_of m n /\
  snd (shr (shr_record_of_loc m loc_Exact) e n) = e + n.
Proof.
  intros Hm Hn. cbn [shr_record_of_loc].
  destruct n as [| p | p]; [| | lia]; cbn [shr fst snd].
  - cbn [shr_m loc_of_shr_record]. unfold loc_of.
    change (2 ^ 0) with 1. rewrite Z.div_1_r, Z.mod_1_r.
    repeat split; lia.
  - rewrite iter_pos_nat.
    destruct (Pos2Nat.is_succ p) as [j Hj].
    rewrite Hj, shr_iter_spec by assumption.
    assert (Hp : Z.pos p = Z.of_nat (S j)) by lia.
    rewrite <- Hp.
    split; [reflexivity |]. split; [| reflexivity].
    cbn [loc_of_shr_record]. unfold loc_of.
    assert (Hpow : 0 < 2 ^ Z.of_nat j) by (apply Z.pow_pos_nonneg; lia).
    assert (Hp1 : 2 ^ Z.pos p = 2 ^ Z.of_nat j * 2)
      by (rewrite Hp, Nat2Z.inj_succ, Z.pow_succ_r; lia).
    rewrite Hp1, Z.rem_mul_r by lia.
    rewrite Zmod_odd.
    pose proof (Z.mod_pos_bound m (2 ^ Z.of_nat j) ltac:(lia)) as Hb.
    set (t := m mod 2 ^ Z.of_nat j) in *.
    set (P := 2 ^ Z.of_nat j) in *.
    destruct (Z.odd (m / P)); destruct (Z.eqb_spec t 0) as [E | E];
      cbn [negb];
      match goal with
      | |- _ = if ?c =? 0 then _ else _ => destruct (Z.eqb_spec c 0)
      end; try lia; try reflexivity;
      match goal with
      | |- _ = loc_Inexact (?a ?= ?b) => destruct (Z.compare_spec a b)
      end; try lia; reflexivity.
Qed.

(** A record made of a mantissa and a location holds them. *)
Lemma shr_record_of_loc_m (m : Z) (l : location) :
  shr_m (shr_record_of_loc m l) = m.
Proof. destruct l as [| [| |]]; reflexivity. Qed.

Lemma loc_of_shr_record_of_loc (m : Z) (l : location) :
  loc_of_shr_record (shr_record_of_loc m l) = l.
Proof. destruct l as [| [| |]]; reflexivity. Qed.

(** [rne] is the quotient or the next integer, as the remainder lies
    below or above one half; a tie goes to the even one. *)
Lemma rne_cases (m k : Z) :
  0 <= k ->
  let q := m / 2 ^ k in
  let r := m mod 2 ^ k in
  (rne m k = q /\ (2 * r < 2 ^ k \/ (2 * r = 2 ^ k /\ Z.even q = true))) \/
  (rne m k = q + 1 /\ (2 * r > 2 ^ k \/ (2 * r = 2 ^ k /\ Z.even q = false))).
Proof.
  intros Hk q r. unfold rne, loc_of. fold q r.
  assert (0 < 2 ^ k) by (apply Z.pow_pos_nonneg; lia).
  pose proof (Z.mod_pos_bound m (2 ^ k) ltac:(lia)) as Hb. fold r in Hb.
  destruct (Z.eqb_spec r 0) as [E | E]; cbn [round_nearest_even].
  - left. split; [reflexivity | lia].
  - destruct (Z.compare_spec (2 * r) (2 ^ k)).
    + destruct (Z.even q) eqn:Ev; [left | right]; split; auto.
    + left. split; [reflexivity | lia].
    + right. split; [reflexivity | lia].
Qed.

Lemma rne_bounds (m k : Z) :
  0 <= k -> m / 2 ^ k <= rne m k <= m / 2 ^ k + 1.
Proof. intros Hk. destruct (rne_cases m k Hk) as [[-> _] | [-> _]]; lia. Qed.

(** A multiple of [2 ^ k] is not changed. *)
Lemma rne_exact (q k : Z) : 0 <= k -> rne (q * 2 ^ k) k = q.
Proof.
  intros Hk. unfold rne, loc_of.
  assert (0 < 2 ^ k) by (apply Z.pow_pos_nonneg; lia).
  rewrite Z.mod_mul, Z.div_mul by lia. reflexivity.
Qed.

(** Rounding is monotone. *)
Lemma rne_mono (m1 m2 k : Z) :
  0 <= k -> m1 <= m2 -> rne m1 k <= rne m2 k.
Proof.
  intros Hk Hm.
  assert (HP : 0 < 2 ^ k) by (apply Z.pow_pos_nonneg; lia).
  pose proof (Z.div_le_mono m1 m2 (2 ^ k) HP Hm) as Hq.
  pose proof (Z.div_mod m1 (2 ^ k) ltac:(lia)) as E1.
  pose proof (Z.div_mod m2 (2 ^ k) ltac:(lia)) as E2.
  pose proof (Z.mod_pos_bound m1 (2 ^ k) HP) as B1.
  pose proof (Z.mod_pos_bound m2 (2 ^ k) HP) as B2.
  destruct (rne_cases m1 k Hk) as [[-> C1] | [-> C1]];
    destruct (rne_cases m2 k Hk) as [[-> C2] | [-> C2]]; try lia.
  destruct (Z.eq_dec (m1 / 2 ^ k) (m2 / 2 ^ k)) as [E | E]; [| lia].
  rewrite E in *.
  destruct C1 as [C1 | [C1 Ev1]]; destruct C2 as [C2 | [C2 Ev2]];
    try congruence; nia.
Qed.

(** Rounding depends on the quotient only. *)
Lemma rne_scale (m n k : Z) :
  0 <= n -> 0 <= k -> rne (m * 2 ^ k) (n + k) = rne m n.
Proof.
  intros Hn Hk. unfold rne, loc_of.
  assert (HP : 0 < 2 ^ k) by (apply Z.pow_pos_nonneg; lia).
  assert (HQ : 0 < 2 ^ n) by (apply Z.pow_pos_nonneg; lia).
  rewrite Z.pow_add_r by lia.
  rewrite Z.div_mul_cancel_r by lia.
  rewrite Z.mul_mod_distr_r by lia.
  destruct (Z.eqb_spec (m mod 2 ^ n) 0) as [E | E].
  - rewrite E. reflexivity.
  - destruct (Z.eqb_spec (m mod 2 ^ n * 2 ^ k) 0) as [E' | E']; [nia |].
    do 2 f_equal.
    replace (2 * (m mod 2 ^ n * 2 ^ k)) with (2 * (m mod 2 ^ n) * 2 ^ k) by lia.
    symmetry. apply Zmult_compare_compat_r. lia.
Qed.

(** *** The result of rounding, as an ordinal *)

(** [binary_round_aux] shifts, rounds and then does [finish]. *)
Lemma binary_round_aux_finish (sx : bool) (mx ex : Z) (lx : location) :
  binary_round_aux prec emax sx mx ex lx
  = finish sx
      (round_nearest_even (shr_m (fst (shr_fexp prec emax mx ex lx)))
         (loc_of_shr_record (fst (shr_fexp prec emax mx ex lx))))
      (snd (shr_fexp prec emax mx ex lx)).
Proof.
  unfold binary_round_aux, finish.
  destruct (shr_fexp prec emax mx ex lx) as [mrs' e']. reflexivity.
Qed.

Lemma fexp_eq (x : Z) : fexp prec emax x = Z.max (x - 53) (-1074).
Proof. reflexivity. Qed.

(** A rounded mantissa of 53 bits, or [2 ^ 53] after a carry. *)
Lemma finish_normal (q e : Z) :
  -1074 <= e ->
  2 ^ 52 <= q <= 2 ^ 53 ->
  nonneg (finish false q e) = true /\
  ordn (finish false q e) = Z.min (2047 * 2 ^ 52) ((e + 1074) * 2 ^ 52 + q).
Proof.
  intros He Hq.
  unfold finish, shr_fexp.
  destruct q as [| q | q]; try (cbn in Hq; lia).
  cbn [Zdigits2]. rewrite fexp_eq.
  destruct (Z.eq_dec (Z.pos q) (2 ^ 53)) as [E | E].
  - rewrite (digits2_pos_unique q 54) by (cbn in *; lia).
    replace (Z.max (54 + e - 53) (-1074) - e) with 1 by lia.
    injection E as ->. cbn [shr_record_of_loc shr iter_pos shr_1 shr_m].
    change (emax - prec) with 971.
    destruct (Z.leb_spec (e + 1) 971); cbn [nonneg ordn]; split; try reflexivity.
    + change (2 ^ 52) with 4503599627370496. lia.
    + change (2 ^ 52) with 4503599627370496. lia.
  - rewrite (digits2_pos_unique q 53) by (cbn in *; lia).
    replace (Z.max (53 + e - 53) (-1074) - e) with 0 by lia.
    cbn [shr_record_of_loc shr shr_m].
    change (emax - prec) with 971.
    change (2 ^ 52) with 4503599627370496 in *.
    change (2 ^ 53) with 9007199254740992 in *.
    destruct (Z.leb_spec e 971); cbn [nonneg ordn]; split; try reflexivity.
    + change (2 ^ 52) with 4503599627370496. lia.
    + change (2 ^ 52) with 4503599627370496. lia.
Qed.

(** A rounded mantissa at the least exponent. *)
Lemma finish_subnormal (q : Z) :
  0 <= q <= 2 ^ 52 ->
  nonneg (finish false q (-1074)) = true /\
  ordn (finish false q (-1074)) = q.
Proof.
  intros Hq.
  unfold finish, shr_fexp.
  destruct q as [| q | q]; try (cbn in Hq; lia).
  - cbn. split; reflexivity.
  - cbn [Zdigits2]. rewrite fexp_eq.
    pose proof (digits2_pos_bounds q) as [Hlo _].
    assert (Z.pos (digits2_pos q) <= 53).
    { destruct (Z.le_gt_cases (Z.pos (digits2_pos q)) 53) as [H | H]; [assumption |].
      assert (2 ^ 53 <= 2 ^ (Z.pos (digits2_pos q) - 1)) by (apply Z.pow_le_mono_r; lia).
      change (2 ^ 52) with 4503599627370496 in *.
      change (2 ^ 53) with 9007199254740992 in *. lia. }
    replace (Z.max (Z.pos (digits2_pos q) + -1074 - 53) (-1074) - -1074) with 0 by lia.
    cbn [shr_record_of_loc shr shr_m].
    cbn. split; reflexivity.
Qed.

(** The rounded mantissa: 53 bits (or [2 ^ 53]) in the normal range, at
    most [2 ^ 52] at the least exponent. *)
Lemma rne_range (m : positive) (e : Z) :
  e <= rexp m e ->
  (rexp m e = Z.pos (digits2_pos m) + e - 53 /\
   2 ^ 52 <= rne (Z.pos m) (rexp m e - e) <= 2 ^ 53) \/
  (rexp m e = -1074 /\
   0 <= rne (Z.pos m) (rexp m e - e) <= 2 ^ 52).
Proof.
  intros Hn. unfold rexp in *. rewrite fexp_eq in *.
  pose proof (digits2_pos_bounds m) as [Hlo Hhi].
  set (d := Z.pos (digits2_pos m)) in *.
  assert (Hd : 1 <= d) by lia.
  destruct (Z.le_gt_cases (-1074) (d + e - 53)) as [Hc | Hc].
  - left. rewrite Z.max_l in * by lia. split; [reflexivity |].
    replace (d + e - 53 - e) with (d - 53) in * by lia.
    assert (Hn' : 0 <= d - 53) by lia.
    split.
    + rewrite <- (rne_exact (2 ^ 52) (d - 53)) by lia.
      apply rne_mono; [lia |].
      rewrite <- Z.pow_add_r by lia.
      replace (52 + (d - 53)) with (d - 1) by lia. assumption.
    + rewrite <- (rne_exact (2 ^ 53) (d - 53)) by lia.
      apply rne_mono; [lia |].
      rewrite <- Z.pow_add_r by lia.
      replace (53 + (d - 53)) with d by lia. lia.
  - right. rewrite Z.max_r in * by lia. split; [reflexivity |].
    set (n := -1074 - e) in *.
    assert (Hn' : 0 <= n) by lia.
    assert (HP : 0 < 2 ^ n) by (apply Z.pow_pos_nonneg; lia).
    split.
    + pose proof (rne_bounds (Z.pos m) n Hn') as [Hb _].
      pose proof (Z.div_pos (Z.pos m) (2 ^ n) ltac:(lia) HP). lia.
    + destruct (Z.le_gt_cases n d) as [Hnd | Hnd].
      * apply Z.le_trans with (2 ^ (d - n)).
        -- rewrite <- (rne_exact (2 ^ (d - n)) n) by lia.
           apply rne_mono; [lia |].
           rewrite <- Z.pow_add_r by lia.
           replace (d - n + n) with d by lia. lia.
        -- apply Z.pow_le_mono_r; lia.
      * apply Z.le_trans with 1.
        -- pose proof (rne_bounds (Z.pos m) n Hn') as [_ Hb].
           assert (Z.pos m / 2 ^ n = 0).
           { apply Z.div_small. split; [lia |].
             apply Z.lt_le_trans with (2 ^ d); [lia |].
             apply Z.pow_le_mono_r; lia. }
           lia.
        -- change (2 ^ 52) with 4503599627370496. lia.
Qed.

(** The result of rounding a positive number is a non-negative float,
    the one of ordinal [round_ordn]. *)
Theorem binary_round_aux_ordn (m : positive) (e : Z) :
  e <= rexp m e ->
  nonneg (binary_round_aux prec emax false (Z.pos m) e loc_Exact) = true /\
  ordn (binary_round_aux prec emax false (Z.pos m) e loc_Exact)
  = round_ordn m e.
Proof.
  intros Hn.
  rewrite binary_round_aux_finish.
  unfold shr_fexp. cbn [Zdigits2]. fold (rexp m e).
  destruct (shr_spec (Z.pos m) e (rexp m e - e)) as (Hq & Hl & He); try lia.
  rewrite Hq, Hl, He. fold (rne (Z.pos m) (rexp m e - e)).
  replace (e + (rexp m e - e)) with (rexp m e) by lia.
  unfold round_ordn, top.
  destruct (rne_range m e Hn) as [[HE Hr] | [HE Hr]].
  - apply finish_normal; [| assumption].
    unfold rexp. rewrite fexp_eq. lia.
  - set (q := rne (Z.pos m) (rexp m e - e)) in *. rewrite HE.
    destruct (finish_subnormal _ Hr) as [H1 H2].
    split; [assumption |]. rewrite H2.
    change (2 ^ 52) with 4503599627370496 in *. lia.
Qed.

(** *** Rounding is monotone *)

(** The comparison can be made at any common smaller exponent. *)
Lemma vle_scaled (m1 : positive) (e1 : Z) (m2 : positive) (e2 c : Z) :
  c <= e1 -> c <= e2 ->
  vle m1 e1 m2 e2 <-> Z.pos m1 * 2 ^ (e1 - c) <= Z.pos m2 * 2 ^ (e2 - c).
Proof.
  intros H1 H2. unfold vle.
  set (mn := Z.min e1 e2).
  assert (Hmn : c <= mn) by lia.
  assert (HP : 0 < 2 ^ (mn - c)) by (apply Z.pow_pos_nonneg; lia).
  replace (e1 - c) with (e1 - mn + (mn - c)) by lia.
  replace (e2 - c) with (e2 - mn + (mn - c)) by lia.
  rewrite !Z.pow_add_r by lia.
  rewrite !Z.mul_assoc.
  split; intros H.
  - apply Z.mul_le_mono_nonneg_r; lia.
  - apply Z.mul_le_mono_pos_r in H; lia.
Qed.

(** A larger number has at least the magnitude of a smaller one. *)
Lemma vle_magnitude (m1 : positive) (e1 : Z) (m2 : positive) (e2 : Z) :
  vle m1 e1 m2 e2 ->
  Z.pos (digits2_pos m1) + e1 <= Z.pos (digits2_pos m2) + e2.
Proof.
  unfold vle. intros H.
  pose proof (digits2_pos_bounds m1) as [Hlo1 _].
  pose proof (digits2_pos_bounds m2) as [_ Hhi2].
  set (d1 := Z.pos (digits2_pos m1)) in *.
  set (d2 := Z.pos (digits2_pos m2)) in *.
  set (c := Z.min e1 e2) in *.
  assert (Hd1 : 1 <= d1) by lia.
  assert (Hd2 : 1 <= d2) by lia.
  assert (H1 : 2 ^ (d1 - 1 + (e1 - c)) <= Z.pos m1 * 2 ^ (e1 - c)).
  { rewrite Z.pow_add_r by lia.
    apply Z.mul_le_mono_nonneg_r; [apply Z.pow_nonneg; lia | assumption]. }
  assert (H2 : Z.pos m2 * 2 ^ (e2 - c) < 2 ^ (d2 + (e2 - c))).
  { rewrite Z.pow_add_r by lia.
    apply Z.mul_lt_mono_pos_r; [apply Z.pow_pos_nonneg; lia | assumption]. }
  assert (H3 : 2 ^ (d1 - 1 + (e1 - c)) < 2 ^ (d2 + (e2 - c))) by lia.
  apply Z.pow_lt_mono_r_iff in H3; lia.
Qed.

(** Rounding to nearest is monotone. *)
Theorem round_ordn_mono (m1 : positive) (e1 : Z) (m2 : positive) (e2 : Z) :
  vle m1 e1 m2 e2 ->
  e1 <= rexp m1 e1 -> e2 <= rexp m2 e2 ->
  round_ordn m1 e1 <= round_ordn m2 e2.
Proof.
  intros Hv H1 H2.
  pose proof (vle_magnitude _ _ _ _ Hv) as Hmag.
  assert (HE : rexp m1 e1 <= rexp m2 e2)
    by (unfold rexp; rewrite !fexp_eq; lia).
  unfold round_ordn.
  apply Z.min_le_compat_l.
  destruct (Z.eq_dec (rexp m1 e1) (rexp m2 e2)) as [Heq | Hne].
  - rewrite <- Heq in H2 |- *. apply Z.add_le_mono_l.
    set (E := rexp m1 e1) in *.
    set (c := Z.min e1 e2).
    rewrite <- (rne_scale (Z.pos m1) (E - e1) (e1 - c)) by lia.
    rewrite <- (rne_scale (Z.pos m2) (E - e2) (e2 - c)) by lia.
    replace (E - e1 + (e1 - c)) with (E - c) by lia.
    replace (E - e2 + (e2 - c)) with (E - c) by lia.
    apply rne_mono; [lia |]. exact Hv.
  - destruct (rne_range m1 e1 H1) as [[_ [_ Hq1]] | [_ [_ Hq1]]];
      destruct (rne_range m2 e2 H2) as [[_ [Hq2 _]] | [Hs2 _]];
      try (unfold rexp in *; rewrite !fexp_eq in *; lia);
      change (2 ^ 52) with 4503599627370496 in *;
      change (2 ^ 53) with 9007199254740992 in *; lia.
Qed.

(** *** Valid floats *)

(** The exponent and mantissa of a valid float. *)
Lemma valid_finite_range (s : bool) (m : positive) (e : Z) :
  valid_binary (S754_finite s m e) = true ->
  -1074 <= e <= 971 /\ Z.pos m < 2 ^ 53 /\
  (e = -1074 \/ (Z.pos (digits2_pos m) = 53 /\ 2 ^ 52 <= Z.pos m)) /\
  rexp m e = e.
Proof.
  cbn [valid_binary]. unfold bounded, canonical_mantissa.
  intros H. apply andb_prop in H. destruct H as [Hc He].
  apply Z.eqb_eq in Hc. apply Z.leb_le in He.
  change (emax - prec) with 971 in He.
  pose proof (digits2_pos_bounds m) as [Hlo Hhi].
  unfold rexp. rewrite Hc. rewrite fexp_eq in Hc.
  set (d := Z.pos (digits2_pos m)) in *.
  assert (Hd : d <= 53) by lia.
  assert (Hm : Z.pos m < 2 ^ 53).
  { apply Z.lt_le_trans with (2 ^ d); [assumption |].
    apply Z.pow_le_mono_r; lia. }
  repeat split; try lia.
  destruct (Z.eq_dec e (-1074)) as [? | Hne]; [left; assumption | right].
  assert (d = 53) by lia.
  split; [assumption |].
  replace 52 with (d - 1) by lia. assumption.
Qed.

Lemma ordn_finite_range (s : bool) (m : positive) (e : Z) :
  valid_binary (S754_finite s m e) = true ->
  0 < ordn (S754_finite s m e) < top.
Proof.
  intros H. destruct (valid_finite_range s m e H) as (He & Hm & _).
  cbn [ordn]. unfold top.
  change (2 ^ 52) with 4503599627370496 in *.
  change (2 ^ 53) with 9007199254740992 in *. lia.
Qed.

(** On valid floats the order of the values is the order of the
    ordinals. *)
Lemma ordn_le_vle (m1 : positive) (e1 : Z) (m2 : positive) (e2 : Z) :
  valid_binary (S754_finite false m1 e1) = true ->
  valid_binary (S754_finite false m2 e2) = true ->
  ordn (S754_finite false m1 e1) <= ordn (S754_finite false m2 e2) ->
  vle m1 e1 m2 e2.
Proof.
  intros V1 V2 H.
  destruct (valid_finite_range _ _ _ V1) as (He1 & Hm1 & Hn1 & _).
  destruct (valid_finite_range _ _ _ V2) as (He2 & Hm2 & Hn2 & _).
  cbn [ordn] in H. unfold vle.
  change (2 ^ 52) with 4503599627370496 in *.
  change (2 ^ 53) with 9007199254740992 in *.
  destruct (Z.lt_trichotomy e1 e2) as [Hlt | [Heq | Hgt]].
  - rewrite Z.min_l by lia. rewrite Z.sub_diag, Z.mul_1_r.
    assert (2 <= 2 ^ (e2 - e1)).
    { change 2 with (2 ^ 1) at 1. apply Z.pow_le_mono_r; lia. }
    nia.
  - subst e2. rewrite Z.min_id, Z.sub_diag. lia.
  - exfalso. nia.
Qed.

(** The comparison of non-negative floats is the comparison of their
    ordinals. *)
Lemma SFleb_ordn (x y : spec_float) :
  valid_binary x = true -> valid_binary y = true ->
  nonneg x = true -> nonneg y = true ->
  SFleb x y = (ordn x <=? ordn y).
Proof.
  intros Vx Vy Nx Ny.
  destruct x as [[|] | [|] | | [|] m1 e1]; try discriminate;
    destruct y as [[|] | [|] | | [|] m2 e2]; try discriminate;
    try reflexivity;
    try (pose proof (ordn_finite_range _ _ _ Vx));
    try (pose proof (ordn_finite_range _ _ _ Vy));
    unfold SFleb, SFcompare;
    try (symmetry; apply Z.leb_le; cbn [ordn] in *; unfold top in *; lia);
    try (symmetry; apply Z.leb_gt; cbn [ordn] in *; unfold top in *; lia).
  destruct (valid_finite_range _ _ _ Vx) as (He1 & Hm1 & Hn1 & _).
  destruct (valid_finite_range _ _ _ Vy) as (He2 & Hm2 & Hn2 & _).
  cbn [ordn].
  change (2 ^ 52) with 4503599627370496 in *.
  change (2 ^ 53) with 9007199254740992 in *.
  destruct (Z.compare_spec e1 e2) as [Heq | Hlt | Hgt].
  - subst e2. change (Pos.compare_cont Eq m1 m2) with (m1 ?= m2)%positive.
    destruct (Pos.compare_spec m1 m2) as [Hm | Hm | Hm]; symmetry.
    + apply Z.leb_le. subst. lia.
    + apply Z.leb_le. lia.
    + apply Z.leb_gt. lia.
  - symmetry. apply Z.leb_le. lia.
  - symmetry. apply Z.leb_gt. lia.
Qed.

(** Distinct non-negative floats have distinct ordinals. *)
Lemma ordn_inj (x y : spec_float) :
  valid_binary x = true -> valid_binary y = true ->
  nonneg x = true -> nonneg y = true ->
  ordn x = ordn y -> x = y.
Proof.
  intros Vx Vy Nx Ny H.
  destruct x as [[|] | [|] | | [|] m1 e1]; try discriminate;
    destruct y as [[|] | [|] | | [|] m2 e2]; try discriminate;
    try reflexivity;
    try (pose proof (ordn_finite_range _ _ _ Vx));
    try (pose proof (ordn_finite_range _ _ _ Vy));
    try (exfalso; cbn [ordn] in *; unfold top in *; lia).
  destruct (valid_finite_range _ _ _ Vx) as (He1 & Hm1 & Hn1 & _).
  destruct (valid_finite_range _ _ _ Vy) as (He2 & Hm2 & Hn2 & _).
  cbn [ordn] in H.
  change (2 ^ 52) with 4503599627370496 in *.
  change (2 ^ 53) with 9007199254740992 in *.
  assert (e1 = e2) by lia. subst e2.
  assert (Z.pos m1 = Z.pos m2) by lia. congruence.
Qed.

(** *** Products *)

(** The digits of a product. *)
Lemma digits2_pos_mul (m1 m2 : positive) :
  Z.pos (digits2_pos m1) + Z.pos (digits2_pos m2) - 1
  <= Z.pos (digits2_pos (m1 * m2)).
Proof.
  pose proof (digits2_pos_bounds m1) as [Hlo1 _].
  pose proof (digits2_pos_bounds m2) as [Hlo2 _].
  pose proof (digits2_pos_bounds (m1 * m2)) as [_ Hhi].
  set (d1 := Z.pos (digits2_pos m1)) in *.
  set (d2 := Z.pos (digits2_pos m2)) in *.
  set (d := Z.pos (digits2_pos (m1 * m2))) in *.
  assert (Hd1 : 1 <= d1) by lia.
  assert (Hd2 : 1 <= d2) by lia.
  assert (Hd : 1 <= d) by lia.
  assert (H : 2 ^ (d1 - 1 + (d2 - 1)) < 2 ^ d).
  { rewrite Z.pow_add_r by lia. rewrite Pos2Z.inj_mul in Hhi.
    assert (0 < 2 ^ (d1 - 1)) by (apply Z.pow_pos_nonneg; lia).
    assert (0 < 2 ^ (d2 - 1)) by (apply Z.pow_pos_nonneg; lia).
    nia. }
  apply Z.pow_lt_mono_r_iff in H; lia.
Qed.

(** In a product of valid floats no bit has to be added on the right. *)
Lemma mul_rexp (mx : positive) (ex : Z) (my : positive) (ey : Z) :
  valid_binary (S754_finite false mx ex) = true ->
  valid_binary (S754_finite false my ey) = true ->
  ex + ey <= rexp (mx * my) (ex + ey).
Proof.
  intros Vx Vy.
  destruct (valid_finite_range _ _ _ Vx) as (Hex & Hmx & Hnx & _).
  destruct (valid_finite_range _ _ _ Vy) as (Hey & Hmy & Hny & _).
  unfold rexp. rewrite fexp_eq.
  pose proof (digits2_pos_mul mx my).
  lia.
Qed.

(** The product of two positive floats is the rounded exact product. *)
Lemma SFmul_finite (mx : positive) (ex : Z) (my : positive) (ey : Z) :
  valid_binary (S754_finite false mx ex) = true ->
  valid_binary (S754_finite false my ey) = true ->
  nonneg (SF64mul (S754_finite false mx ex) (S754_finite false my ey)) = true /\
  ordn (SF64mul (S754_finite false mx ex) (S754_finite false my ey))
  = round_ordn (mx * my) (ex + ey).
Proof.
  intros Vx Vy.
  unfold SF64mul, SFmul. cbn [xorb].
  apply binary_round_aux_ordn. now apply mul_rexp.
Qed.

(** Multiplying by a positive number keeps the order. *)
Lemma vle_mul_r (m1 : positive) (e1 : Z) (m2 : positive) (e2 : Z)
    (m : positive) (e : Z) :
  vle m1 e1 m2 e2 -> vle (m1 * m) (e1 + e) (m2 * m) (e2 + e).
Proof.
  unfold vle. intros H.
  replace (Z.min (e1 + e) (e2 + e)) with (Z.min e1 e2 + e) by lia.
  replace (e1 + e - (Z.min e1 e2 + e)) with (e1 - Z.min e1 e2) by lia.
  replace (e2 + e - (Z.min e1 e2 + e)) with (e2 - Z.min e1 e2) by lia.
  rewrite !Pos2Z.inj_mul. nia.
Qed.

(** *** Sums *)

(** [shl_align] multiplies the mantissa by a power of 2. *)
Lemma pos_iter_xO (m d : positive) :
  Z.pos (Pos.iter xO m d) = Z.pos m * 2 ^ Z.pos d.
Proof.
  induction d as [| d IH] using Pos.peano_ind.
  - cbn. lia.
  - rewrite Pos.iter_succ, Pos2Z.inj_succ, Z.pow_succ_r by lia.
    rewrite Pos2Z.inj_xO, IH. lia.
Qed.

Lemma shl_align_down (m : positive) (e e' : Z) :
  e' <= e ->
  Z.pos (fst (shl_align m e e')) = Z.pos m * 2 ^ (e - e').
Proof.
  intros H. unfold shl_align.
  destruct (e' - e) as [| d | d] eqn:E; cbn [fst].
  - replace (e - e') with 0 by lia. lia.
  - lia.
  - rewrite pos_iter_xO. f_equal. f_equal. lia.
Qed.

Lemma shl_align_id (m : positive) (e e' : Z) :
  e <= e' -> shl_align m e e' = (m, e).
Proof.
  intros H. unfold shl_align.
  destruct (e' - e) as [| d | d] eqn:E; try reflexivity. lia.
Qed.

Lemma sum_mant_value (mx : positive) (ex : Z) (my : positive) (ey : Z) :
  Z.pos (sum_mant mx ex my ey)
  = Z.pos mx * 2 ^ (ex - Z.min ex ey) + Z.pos my * 2 ^ (ey - Z.min ex ey).
Proof.
  unfold sum_mant. rewrite Pos2Z.inj_add.
  rewrite !shl_align_down by lia. reflexivity.
Qed.

(** In a sum of valid floats no bit has to be added on the right. *)
Lemma add_rexp (mx : positive) (ex : Z) (my : positive) (ey : Z) :
  valid_binary (S754_finite false mx ex) = true ->
  valid_binary (S754_finite false my ey) = true ->
  Z.min ex ey <= rexp (sum_mant mx ex my ey) (Z.min ex ey).
Proof.
  intros Vx Vy.
  destruct (valid_finite_range _ _ _ Vx) as (Hex & Hmx & Hnx & _).
  destruct (valid_finite_range _ _ _ Vy) as (Hey & Hmy & Hny & _).
  unfold rexp. rewrite fexp_eq.
  destruct (Z.eq_dec (Z.min ex ey) (-1074)) as [-> | Hne]; [lia |].
  pose proof (digits2_pos_bounds (sum_mant mx ex my ey)) as [_ Hhi].
  rewrite sum_mant_value in Hhi.
  set (d := Z.pos (digits2_pos (sum_mant mx ex my ey))) in *.
  assert (Hd : 53 <= d).
  { destruct (Z.le_gt_cases 53 d) as [? | Hlt]; [assumption | exfalso].
    assert (2 ^ d <= 2 ^ 52) by (apply Z.pow_le_mono_r; lia).
    assert (0 <= Z.pos mx * 2 ^ (ex - Z.min ex ey))
      by (apply Z.mul_nonneg_nonneg; [lia | apply Z.pow_nonneg; lia]).
    assert (0 <= Z.pos my * 2 ^ (ey - Z.min ex ey))
      by (apply Z.mul_nonneg_nonneg; [lia | apply Z.pow_nonneg; lia]).
    destruct (Z.le_ge_cases ex ey).
    - rewrite Z.min_l in * by lia. rewrite Z.sub_diag in *.
      change (2 ^ 0) with 1 in *. lia.
    - rewrite Z.min_r in * by lia. rewrite Z.sub_diag in *.
      change (2 ^ 0) with 1 in *. lia. }
  lia.
Qed.

(** The sum of two positive floats is the rounded exact sum. *)
Lemma SFadd_finite (mx : positive) (ex : Z) (my : positive) (ey : Z) :
  valid_binary (S754_finite false mx ex) = true ->
  valid_binary (S754_finite false my ey) = true ->
  nonneg (SF64add (S754_finite false mx ex) (S754_finite false my ey)) = true /\
  ordn (SF64add (S754_finite false mx ex) (S754_finite false my ey))
  = round_ordn (sum_mant mx ex my ey) (Z.min ex ey).
Proof.
  intros Vx Vy.
  pose proof (add_rexp mx ex my ey Vx Vy) as Hr.
  unfold SF64add, SFadd. cbn [cond_Zopp].
  change (Z.pos (fst (shl_align mx ex (Z.min ex ey)))
          + Z.pos (fst (shl_align my ey (Z.min ex ey))))
    with (Z.pos (sum_mant mx ex my ey)).
  cbn [binary_normalize]. unfold binary_round.
  fold (rexp (sum_mant mx ex my ey) (Z.min ex ey)).
  rewrite shl_align_id by assumption.
  apply binary_round_aux_ordn. assumption.
Qed.

(** Adding a positive number keeps the order. *)
Lemma vle_add_l (m1 : positive) (e1 : Z) (m2 : positive) (e2 : Z)
    (m : positive) (e : Z) :
  vle m1 e1 m2 e2 ->
  vle (sum_mant m e m1 e1) (Z.min e e1) (sum_mant m e m2 e2) (Z.min e e2).
Proof.
  intros H.
  set (c := Z.min e (Z.min e1 e2)).
  apply (vle_scaled _ _ _ _ c) in H; try lia.
  apply (vle_scaled _ _ _ _ c); try lia.
  rewrite !sum_mant_value.
  rewrite !Z.mul_add_distr_r, <- !Z.mul_assoc, <- !Z.pow_add_r by lia.
  replace (e - Z.min e e1 + (Z.min e e1 - c)) with (e - c) by lia.
  replace (e1 - Z.min e e1 + (Z.min e e1 - c)) with (e1 - c) by lia.
  replace (e - Z.min e e2 + (Z.min e e2 - c)) with (e - c) by lia.
  replace (e2 - Z.min e e2 + (Z.min e e2 - c)) with (e2 - c) by lia.
  lia.
Qed.

(** *** Doubles *)

Local Open Scope float_scope.

Lemma pos_finite_valid (x : float) (m : positive) (e : Z) :
  Prim2SF x = S754_finite false m e ->
  valid_binary (S754_finite false m e) = true.
Proof. intros <-. apply Prim2SF_valid. Qed.

Lemma leb_ordn (x y : float) :
  nonneg (Prim2SF x) = true -> nonneg (Prim2SF y) = true ->
  (x <=? y) = (ordn (Prim2SF x) <=? ordn (Prim2SF y))%Z.
Proof.
  intros Nx Ny. rewrite leb_spec.
  apply SFleb_ordn; auto using Prim2SF_valid.
Qed.

Lemma pos_finite_nonneg (x : float) :
  pos_finite x -> nonneg (Prim2SF x) = true.
Proof. intros (m & e & ->). reflexivity. Qed.

(** A number between two positive finite numbers is positive and
    finite. *)
Lemma pos_finite_between (lo hi x : float) :
  pos_finite lo -> pos_finite hi ->
  (lo <=? x) = true -> (x <=? hi) = true -> pos_finite x.
Proof.
  intros (ml & el & Hl) (mh & eh & Hh) H1 H2.
  rewrite leb_spec in H1, H2. rewrite Hl in H1. rewrite Hh in H2.
  unfold pos_finite.
  destruct (Prim2SF x) as [s | s | | s m e].
  - discriminate.
  - destruct s; discriminate.
  - discriminate.
  - destruct s; [discriminate | eauto].
Qed.

(** [a <= b] gives [a * c <= b * c] on positive finite doubles. *)
Lemma mul_mono_r (a b c : float) :
  pos_finite a -> pos_finite b -> pos_finite c ->
  (a <=? b) = true ->
  nonneg (Prim2SF (a * c)) = true /\ nonneg (Prim2SF (b * c)) = true /\
  (a * c <=? b * c) = true.
Proof.
  intros Ha Hb Hc Hab.
  rewrite leb_ordn in Hab by auto using pos_finite_nonneg.
  apply Z.leb_le in Hab.
  destruct Ha as (ma & ea & Ea), Hb as (mb & eb & Eb), Hc as (mc & ec & Ec).
  pose proof (pos_finite_valid _ _ _ Ea) as Va.
  pose proof (pos_finite_valid _ _ _ Eb) as Vb.
  pose proof (pos_finite_valid _ _ _ Ec) as Vc.
  rewrite Ea, Eb in Hab.
  destruct (SFmul_finite ma ea mc ec Va Vc) as [Na Oa].
  destruct (SFmul_finite mb eb mc ec Vb Vc) as [Nb Ob].
  assert (Pa : Prim2SF (a * c) = SF64mul (S754_finite false ma ea) (S754_finite false mc ec))
    by (rewrite mul_spec, Ea, Ec; reflexivity).
  assert (Pb : Prim2SF (b * c) = SF64mul (S754_finite false mb eb) (S754_finite false mc ec))
    by (rewrite mul_spec, Eb, Ec; reflexivity).
  rewrite leb_ordn by (rewrite ?Pa, ?Pb; assumption).
  rewrite Pa, Pb. repeat split; try assumption.
  apply Z.leb_le. rewrite Oa, Ob.
  apply round_ordn_mono; auto using mul_rexp.
  apply vle_mul_r. apply ordn_le_vle; assumption.
Qed.

Lemma SFmul_comm (x y : spec_float) : SF64mul x y = SF64mul y x.
Proof.
  unfold SF64mul, SFmul.
  destruct x as [sx | sx | | sx mx ex], y as [sy | sy | | sy my ey];
    try reflexivity; rewrite ?(xorb_comm sx sy); try reflexivity.
  now rewrite Pos.mul_comm, Z.add_comm.
Qed.

Lemma mul_comm (x y : float) : x * y = y * x.
Proof. apply Prim2SF_inj. rewrite !mul_spec. apply SFmul_comm. Qed.

(** [a <= b] gives [c + a <= c + b] on positive finite doubles. *)
Lemma add_mono_l (a b c : float) :
  pos_finite a -> pos_finite b -> pos_finite c ->
  (a <=? b) = true ->
  nonneg (Prim2SF (c + a)) = true /\ nonneg (Prim2SF (c + b)) = true /\
  (c + a <=? c + b) = true.
Proof.
  intros Ha Hb Hc Hab.
  rewrite leb_ordn in Hab by auto using pos_finite_nonneg.
  apply Z.leb_le in Hab.
  destruct Ha as (ma & ea & Ea), Hb as (mb & eb & Eb), Hc as (mc & ec & Ec).
  pose proof (pos_finite_valid _ _ _ Ea) as Va.
  pose proof (pos_finite_valid _ _ _ Eb) as Vb.
  pose proof (pos_finite_valid _ _ _ Ec) as Vc.
  rewrite Ea, Eb in Hab.
  destruct (SFadd_finite mc ec ma ea Vc Va) as [Na Oa].
  destruct (SFadd_finite mc ec mb eb Vc Vb) as [Nb Ob].
  assert (Pa : Prim2SF (c + a) = SF64add (S754_finite false mc ec) (S754_finite false ma ea))
    by (rewrite add_spec, Ea, Ec; reflexivity).
  assert (Pb : Prim2SF (c + b) = SF64add (S754_finite false mc ec) (S754_finite false mb eb))
    by (rewrite add_spec, Eb, Ec; reflexivity).
  rewrite leb_ordn by (rewrite ?Pa, ?Pb; assumption).
  rewrite Pa, Pb. repeat split; try assumption.
  apply Z.leb_le. rewrite Oa, Ob.
  apply round_ordn_mono; auto using add_rexp.
  apply vle_add_l. apply ordn_le_vle; assumption.
Qed.

Lemma leb_trans (x y z : float) :
  nonneg (Prim2SF x) = true -> nonneg (Prim2SF y) = true ->
  nonneg (Prim2SF z) = true ->
  (x <=? y) = true -> (y <=? z) = true -> (x <=? z) = true.
Proof.
  intros Nx Ny Nz. rewrite !leb_ordn by assumption.
  rewrite !Z.leb_le. lia.
Qed.

(** A monotone map sends an interval into the interval of the images of
    its ends. *)
Lemma monotone_between (g : float -> float) (lo hi x : float) :
  monotone g ->
  pos_finite lo -> pos_finite hi ->
  pos_finite (g lo) -> pos_finite (g hi) ->
  between lo hi x ->
  pos_finite x /\ pos_finite (g x) /\ between (g lo) (g hi) (g x).
Proof.
  intros Hg Hlo Hhi Hglo Hghi [H1 H2].
  assert (Hx : pos_finite x) by (apply (pos_finite_between lo hi); assumption).
  destruct (Hg lo x Hlo Hx H1) as (_ & _ & L1).
  destruct (Hg x hi Hx Hhi H2) as (_ & _ & L2).
  split; [assumption |].
  split; [| split; assumption].
  apply (pos_finite_between (g lo) (g hi)); assumption.
Qed.

Lemma sq_monotone : monotone (fun x => x * x).
Proof.
  intros a b Ha Hb Hab.
  destruct (mul_mono_r a b a Ha Hb Ha Hab) as (N1 & N2 & L1).
  destruct (mul_mono_r a b b Ha Hb Hb Hab) as (N3 & N4 & L2).
  rewrite (mul_comm a b) in N3, L2.
  repeat split; try assumption.
  eapply leb_trans; [| | | exact L1 | exact L2]; assumption.
Qed.

Lemma half_monotone : monotone (fun x => 0.5 * x).
Proof.
  intros a b Ha Hb Hab.
  rewrite (mul_comm 0.5 a), (mul_comm 0.5 b).
  apply mul_mono_r; try assumption. pos_finite_const.
Qed.

Lemma add_half_monotone : monotone (fun x => 0.5 + x).
Proof.
  intros a b Ha Hb Hab.
  apply add_mono_l; try assumption. pos_finite_const.
Qed.

(** The step of the recurrence maps [[0.5, 1]] into [[0.625, 1]]. *)
Lemma step_between (x : float) :
  between 0.5 1 x ->
  pos_finite x /\
  between 0.25 1 (x * x) /\
  between 0.125 0.5 (0.5 * (x * x)) /\
  between 0.625 1 (step x).
Proof.
  intros Hx.
  destruct (monotone_between (fun x => x * x) 0.5 1 x sq_monotone)
    as (P1 & P2 & B2); try pos_finite_const; try assumption.
  destruct (monotone_between (fun x => 0.5 * x) 0.25 1 (x * x) half_monotone)
    as (_ & P3 & B3); try pos_finite_const; try assumption.
  destruct (monotone_between (fun x => 0.5 + x) 0.125 0.5 (0.5 * (x * x))
              add_half_monotone)
    as (_ & P4 & B4); try pos_finite_const; try assumption.
  repeat split; try assumption; try apply B2; try apply B3; try apply B4.
Qed.

(** The step of the recurrence is monotone on [[0.5, 1]]. *)
Lemma step_mono (x y : float) :
  between 0.5 1 x -> between 0.5 1 y -> (x <=? y) = true ->
  (step x <=? step y) = true.
Proof.
  intros Hx Hy Hxy.
  destruct (monotone_between (fun x => x * x) 0.5 1 x sq_monotone)
    as (Px & Px2 & _); try pos_finite_const; try assumption.
  destruct (monotone_between (fun x => x * x) 0.5 1 y sq_monotone)
    as (Py & Py2 & _); try pos_finite_const; try assumption.
  destruct (step_between x Hx) as (_ & Bx2 & Bx3 & _).
  destruct (step_between y Hy) as (_ & By2 & By3 & _).
  destruct (sq_monotone x y Px Py Hxy) as (_ & _ & L2).
  assert (Px3 : pos_finite (0.5 * (x * x))).
  { destruct Bx3. apply (pos_finite_between 0.125 0.5); try assumption; pos_finite_const. }
  assert (Py3 : pos_finite (0.5 * (y * y))).
  { destruct By3. apply (pos_finite_between 0.125 0.5); try assumption; pos_finite_const. }
  destruct (half_monotone _ _ Px2 Py2 L2) as (_ & _ & L3).
  destruct (add_half_monotone _ _ Px3 Py3 L3) as (_ & _ & L4).
  exact L4.
Qed.

(** *** Exact products *)

Local Open Scope Z_scope.

(** A valid float is left as it is. *)
Lemma finish_valid (s : bool) (m : positive) (e : Z) :
  valid_binary (S754_finite s m e) = true ->
  finish s (Z.pos m) e = S754_finite s m e.
Proof.
  intros V.
  destruct (valid_finite_range s m e V) as (He & _ & _ & Hr).
  unfold finish, shr_fexp. cbn [Zdigits2]. fold (rexp m e).
  rewrite Hr, Z.sub_diag. cbn [shr_record_of_loc shr shr_m].
  change (emax - prec) with 971.
  destruct (Z.leb_spec e 971); [reflexivity | lia].
Qed.

Lemma digits2_pos_mul_pow2 (m : positive) (k : Z) (p : positive) :
  0 <= k -> Z.pos p = 2 ^ k ->
  Z.pos (digits2_pos (m * p)) = Z.pos (digits2_pos m) + k.
Proof.
  intros Hk Hp.
  pose proof (digits2_pos_bounds m) as [Hlo Hhi].
  apply digits2_pos_unique.
  rewrite Pos2Z.inj_mul, Hp.
  replace (Z.pos (digits2_pos m) + k - 1) with (Z.pos (digits2_pos m) - 1 + k) by lia.
  rewrite !Z.pow_add_r by lia.
  assert (0 < 2 ^ k) by (apply Z.pow_pos_nonneg; lia).
  split; nia.
Qed.

(** Rounding [m * 2 ^ k] at an exponent that drops exactly the [k] low
    bits gives back [m]. *)
Lemma binary_round_aux_exact (s : bool) (m : positive) (e k : Z) (p : positive) :
  0 <= k -> Z.pos p = 2 ^ k ->
  valid_binary (S754_finite s m e) = true ->
  binary_round_aux prec emax s (Z.pos (m * p)) (e - k) loc_Exact
  = S754_finite s m e.
Proof.
  intros Hk Hp V.
  destruct (valid_finite_range s m e V) as (He & _ & _ & Hr).
  rewrite binary_round_aux_finish.
  unfold shr_fexp. cbn [Zdigits2].
  rewrite (digits2_pos_mul_pow2 m k p Hk Hp).
  replace (Z.pos (digits2_pos m) + k + (e - k))
    with (Z.pos (digits2_pos m) + e) by lia.
  fold (rexp m e). rewrite Hr.
  replace (e - (e - k)) with k by lia.
  destruct (shr_spec (Z.pos (m * p)) (e - k) k) as (Hq & Hl & Hs); try lia.
  rewrite Hq, Hl, Hs.
  assert (HP : 0 < 2 ^ k) by (apply Z.pow_pos_nonneg; lia).
  unfold loc_of. rewrite Pos2Z.inj_mul, Hp.
  rewrite Z.div_mul, Z.mod_mul by lia.
  cbn [Z.eqb round_nearest_even].
  replace (e - k + k) with e by lia.
  now apply finish_valid.
Qed.

Local Open Scope float_scope.

(** [x * 1 = x] for every double. *)
Lemma float_mul_one_r (x : float) : x * 1 = x.
Proof.
  apply Prim2SF_inj. rewrite mul_spec.
  pose proof (Prim2SF_valid x) as V.
  change (Prim2SF 1) with (S754_finite false 4503599627370496 (-52)).
  destruct (Prim2SF x) as [s | s | | s m e].
  - now destruct s.
  - now destruct s.
  - reflexivity.
  - unfold SF64mul, SFmul. rewrite xorb_false_r.
    change (e + -52)%Z with (e - 52)%Z.
    now apply binary_round_aux_exact.
Qed.

(** Halving a normal number only lowers its exponent. *)
Lemma SFmul_half (s : bool) (m : positive) (e : Z) :
  valid_binary (S754_finite s m e) = true ->
  (-1074 < e)%Z ->
  SF64mul (S754_finite false 4503599627370496 (-53)) (S754_finite s m e)
  = S754_finite s m (e - 1).
Proof.
  intros V He.
  destruct (valid_finite_range s m e V) as (He' & Hm & Hn & Hr).
  rewrite SFmul_comm.
  unfold SF64mul, SFmul. rewrite xorb_false_r.
  replace (e + -53)%Z with (e - 1 - 52)%Z by lia.
  apply binary_round_aux_exact; [lia | reflexivity |].
  cbn [valid_binary]. unfold bounded, canonical_mantissa.
  destruct Hn as [? | [Hd _]]; [lia |].
  rewrite Hd, fexp_eq.
  apply andb_true_intro. split.
  - apply Z.eqb_eq. lia.
  - apply Z.leb_le. change (emax - prec)%Z with 971%Z. lia.
Qed.

(** *** The two forms of the recurrence step *)

Local Open Scope Z_scope.

(** The sum of [2 ^ 52 * 2 ^ a] and [m * 2 ^ e], at the exponent
    [e <= a]. *)
Lemma sum_mant_pow2 (a : Z) (m : positive) (e : Z) :
  e <= a ->
  Z.pos (sum_mant 4503599627370496 a m e) = 2 ^ (a + 52 - e) + Z.pos m.
Proof.
  intros H. rewrite sum_mant_value. rewrite Z.min_r by lia.
  rewrite Z.sub_diag, Z.mul_1_r.
  change (Z.pos 4503599627370496) with (2 ^ 52).
  rewrite <- Z.pow_add_r by lia. do 2 f_equal. lia.
Qed.

(** Rounding [1 + y] and rounding [0.5 + 0.5 * y] drop the same bits of
    the same integer. *)
Lemma round_ordn_lower (m : positive) (e : Z) :
  valid_binary (S754_finite false m e) = true ->
  -1074 < e <= -52 ->
  let M := sum_mant 4503599627370496 (-52) m e in
  let d := Z.pos (digits2_pos M) in
  53 <= d /\ d + e <= 2 /\
  round_ordn M e = (d + e - 53 + 1074) * 2 ^ 52 + rne (Z.pos M) (d - 53) /\
  round_ordn M (e - 1)
  = (d + e - 54 + 1074) * 2 ^ 52 + rne (Z.pos M) (d - 53) /\
  2 ^ 52 <= rne (Z.pos M) (d - 53) <= 2 ^ 53.
Proof.
  intros V He M d.
  destruct (valid_finite_range _ _ _ V) as (_ & Hm & Hn & _).
  destruct Hn as [? | [_ Hlo]]; [lia |].
  pose proof (digits2_pos_bounds M) as [HMlo HMhi]. fold d in HMlo, HMhi.
  assert (HM : Z.pos M = 2 ^ (- e) + Z.pos m).
  { unfold M. rewrite sum_mant_pow2 by lia.
    replace (-52 + 52 - e) with (- e) by lia. reflexivity. }
  assert (Hpe : 2 ^ 52 <= 2 ^ (- e)) by (apply Z.pow_le_mono_r; lia).
  assert (Hd1 : 1 <= d) by (unfold d; lia).
  assert (Hd53 : 53 <= d).
  { destruct (Z.le_gt_cases 53 d) as [? | Hlt]; [assumption | exfalso].
    assert (2 ^ d <= 2 ^ 52) by (apply Z.pow_le_mono_r; lia). lia. }
  assert (Hde : d + e <= 2).
  { destruct (Z.le_gt_cases (d + e) 2) as [? | Hgt]; [assumption | exfalso].
    assert (2 ^ (2 - e) <= 2 ^ (d - 1)) by (apply Z.pow_le_mono_r; lia).
    replace (2 - e) with (- e + 2) in * by lia.
    rewrite Z.pow_add_r in * by lia.
    change (2 ^ 2) with 4 in *.
    change (2 ^ 52) with 4503599627370496 in *.
    change (2 ^ 53) with 9007199254740992 in *. lia. }
  assert (Hr1 : rexp M e = d + e - 53)
    by (unfold rexp; fold d; rewrite fexp_eq; lia).
  assert (Hr2 : rexp M (e - 1) = d + e - 54)
    by (unfold rexp; fold d; rewrite fexp_eq; lia).
  destruct (rne_range M e ltac:(lia)) as [[_ Hq] | [Hs _]]; [| lia].
  rewrite Hr1 in Hq. replace (d + e - 53 - e) with (d - 53) in Hq by lia.
  unfold round_ordn, top. rewrite Hr1, Hr2.
  replace (d + e - 53 - e) with (d - 53) by lia.
  replace (d + e - 54 - (e - 1)) with (d - 53) by lia.
  change (2 ^ 52) with 4503599627370496 in *.
  change (2 ^ 53) with 9007199254740992 in *.
  repeat split; try lia.
Qed.

Local Open Scope float_scope.

(** For a normal [y < 2], [0.5 * (1 + y)] and [0.5 + 0.5 * y] are the
    same double. *)
Lemma half_distr_normal (y : float) (m : positive) (e : Z) :
  Prim2SF y = S754_finite false m e ->
  (-1074 < e <= -52)%Z ->
  0.5 * (1 + y) = 0.5 + 0.5 * y.
Proof.
  intros Ey He.
  pose proof (pos_finite_valid _ _ _ Ey) as V.
  destruct (round_ordn_lower m e V He) as (Hd & Hde & O1 & O2 & Hq).
  set (M := sum_mant 4503599627370496 (-52) m e) in *.
  set (d := Z.pos (digits2_pos M)) in *.
  set (q := rne (Z.pos M) (d - 53)) in *.
  (* 1 + y *)
  assert (EW : Prim2SF (1 + y)
               = SF64add (S754_finite false 4503599627370496 (-52))
                   (S754_finite false m e))
    by (rewrite add_spec, Ey; reflexivity).
  destruct (SFadd_finite 4503599627370496 (-52) m e eq_refl V) as [NW OW].
  rewrite <- EW in NW, OW.
  rewrite Z.min_r in OW by lia. fold M in OW. rewrite O1 in OW.
  (* 0.5 * y *)
  assert (EZ : Prim2SF (0.5 * y) = S754_finite false m (e - 1)).
  { rewrite mul_spec, Ey.
    change (Prim2SF 0.5) with (S754_finite false 4503599627370496 (-53)).
    apply SFmul_half; [assumption | lia]. }
  pose proof (pos_finite_valid _ _ _ EZ) as VZ.
  (* 0.5 + 0.5 * y *)
  assert (ER : Prim2SF (0.5 + 0.5 * y)
               = SF64add (S754_finite false 4503599627370496 (-53))
                   (S754_finite false m (e - 1)))
    by (rewrite add_spec, EZ; reflexivity).
  destruct (SFadd_finite 4503599627370496 (-53) m (e - 1) eq_refl VZ)
    as [NR OR].
  rewrite <- ER in NR, OR.
  rewrite Z.min_r in OR by lia.
  replace (sum_mant 4503599627370496 (-53) m (e - 1)) with M in OR.
  2:{ apply Pos2Z.inj. unfold M. rewrite !sum_mant_pow2 by lia.
      replace (-53 + 52 - (e - 1))%Z with (-52 + 52 - e)%Z by lia.
      reflexivity. }
  rewrite O2 in OR.
  (* 0.5 * (1 + y) *)
  pose proof (Prim2SF_valid (1 + y)) as VW.
  change (2 ^ 52)%Z with 4503599627370496%Z in *.
  change (2 ^ 53)%Z with 9007199254740992%Z in *.
  destruct (Prim2SF (1 + y)) as [sw | sw | | sw mw ew] eqn:EW';
    try discriminate;
    try (cbn [ordn] in OW; change (2 ^ 52)%Z with 4503599627370496%Z in OW; lia).
  destruct sw; [discriminate |].
  destruct (valid_finite_range _ _ _ VW) as (Hew & Hmw & Hnw & _).
  change (2 ^ 52)%Z with 4503599627370496%Z in *.
  change (2 ^ 53)%Z with 9007199254740992%Z in *.
  cbn [ordn] in OW. change (2 ^ 52)%Z with 4503599627370496%Z in OW.
  assert (Hew' : (-1074 < ew)%Z) by lia.
  assert (EL : Prim2SF (0.5 * (1 + y)) = S754_finite false mw (ew - 1)).
  { rewrite mul_spec, EW'.
    change (Prim2SF 0.5) with (S754_finite false 4503599627370496 (-53)).
    apply SFmul_half; assumption. }
  apply Prim2SF_inj.
  apply ordn_inj; try apply Prim2SF_valid; try assumption.
  - rewrite EL. reflexivity.
  - rewrite OR, EL. cbn [ordn].
    change (2 ^ 52)%Z with 4503599627370496%Z. lia.
Qed.

End Binary64.

(** ** ThresholdSolver: what the two loops compute *)

Section Solver.

Context {num : Type} {N : Number num}.

Local Open Scope num_scope.

(** Every read [f[j - 1]] of [computeF] is inside the array, and the
    loop extends the array by the next values of [f_code]. *)
Lemma computeF_loop_eq (n a : nat) :
  (2 <= a)%nat ->
  computeF_loop n (Z.of_nat a) (map f_code (seq 0 a))
  = Some (map f_code (seq 0 (a + n))).
Proof.
  revert a.
  induction n as [| n IH]; intros a Ha; simpl.
  - now rewrite Nat.add_0_r.
  - replace (Z.of_nat a - 1)%Z with (Z.of_nat (a - 1)) by lia.
    rewrite lookup_map_seq by lia. simpl.
    replace (num_half + num_half * (f_code (a - 1) * f_code (a - 1)))
      with (f_code a).
    + replace (Z.of_nat a + 1)%Z with (Z.of_nat (S a)) by lia.
      replace (map f_code (seq 0 a) ++ [f_code a])
        with (map f_code (seq 0 (S a)))
        by (rewrite seq_S, map_app; reflexivity).
      rewrite IH by lia.
      do 3 f_equal. lia.
    + destruct a as [| [| a]]; try lia.
      reflexivity.
Qed.

Lemma computeF_eq (maxPresses : Z) :
  computeF maxPresses
  = Some (map f_code (seq 0 (2 + Z.to_nat (maxPresses - 1)))).
Proof.
  unfold computeF.
  exact (computeF_loop_eq (Z.to_nat (maxPresses - 1)) 2 (Nat.le_refl 2)).
Qed.

(** Every read [f[k - 1]] of [thresholds] is inside the array. *)
Lemma thresholds_loop_eq (len : nat) (prize : num) (n : nat) (t : list num) :
  (n <= len)%nat ->
  thresholds_loop n (Z.of_nat n) (map f_code (seq 0 len)) prize t
  = Some (t ++ table f_code prize n).
Proof.
  revert t.
  induction n as [| n IH]; intros t Hn; cbn [thresholds_loop].
  - unfold table. simpl. now rewrite app_nil_r.
  - replace (Z.of_nat (S n) - 1)%Z with (Z.of_nat n) by lia.
    rewrite lookup_map_seq by lia. cbn [bind].
    rewrite IH by lia.
    rewrite <- app_assoc. do 2 f_equal.
    unfold table. cbn [seq map app].
    f_equal; [f_equal; f_equal; lia |].
    rewrite <- seq_shift, map_map.
    apply map_ext. intros i. do 2 f_equal. lia.
Qed.

(** [thresholds] never reads outside [f]; its result is the table of
    [f_code]. *)
Lemma thresholds_eq (maxPresses : Z) (prize : num) :
  thresholds maxPresses prize
  = Some (table f_code prize (Z.to_nat maxPresses)).
Proof.
  unfold thresholds. rewrite computeF_eq. cbn [bind].
  destruct (Z.le_gt_cases 0 maxPresses) as [H | H].
  - rewrite <- (Z2Nat.id maxPresses) at 2 by assumption.
    apply (thresholds_loop_eq _ prize (Z.to_nat maxPresses) []). lia.
  - replace (Z.to_nat maxPresses) with 0%nat by lia. reflexivity.
Qed.

Lemma table_length (g : nat -> num) (prize : num) (m : nat) :
  length (table g prize m) = m.
Proof. unfold table. now rewrite length_map, length_seq. Qed.

Lemma table_lookup (g : nat -> num) (prize : num) (m i : nat) :
  (i < m)%nat ->
  lookup (table g prize m) (Z.of_nat i) = Some (g (m - 1 - i)%nat * prize).
Proof. intros H. unfold table. now rewrite lookup_map_seq. Qed.

End Solver.

Example thresholds_float_3 :
  thresholds 3 (TOP_PRIZE (num := float)) = Some [62500%float; 50000%float; 0%float].
Proof. vm_compute. reflexivity. Qed.

(** *** The table, in every arithmetic *)

Section Table.

Context {num : Type} {N : Number num}.

Local Open Scope num_scope.

Lemma recurrence_table_of (maxPresses : Z) (prize : num) :
  (forall j : nat, f_spec j = f_code j) ->
  (1 <= maxPresses)%Z ->
  recurrence_table maxPresses prize.
Proof.
  intros Hf Hm.
  exists (table f_code prize (Z.to_nat maxPresses)).
  split; [apply thresholds_eq |].
  split; [rewrite table_length; lia |].
  intros k Hk.
  replace (maxPresses - k)%Z with (Z.of_nat (Z.to_nat (maxPresses - k)))
    by lia.
  rewrite table_lookup by lia.
  rewrite Hf. do 3 f_equal. lia.
Qed.

Lemma homogeneous_table_of (maxPresses : Z) (c : num) :
  (forall x : num, x * num_one = x) ->
  homogeneous_table maxPresses c.
Proof.
  intros unit_r.
  exists (table f_code num_one (Z.to_nat maxPresses)).
  exists (table f_code c (Z.to_nat maxPresses)).
  split; [apply thresholds_eq |].
  split; [apply thresholds_eq |].
  unfold table. rewrite map_map.
  apply map_ext. intros i. now rewrite unit_r.
Qed.

(** The table is non-increasing as soon as the values of the recurrence
    do not decrease and scaling by the prize keeps the order. *)
Lemma nonincreasing_table_of (maxPresses : Z) (prize : num) :
  (forall i j : nat, (i <= j)%nat ->
     (f_code j * prize >=? f_code i * prize) = true) ->
  num_zero * prize = num_zero ->
  (1 <= maxPresses)%Z ->
  nonincreasing_table maxPresses prize.
Proof.
  intros Hord Hzero Hm.
  exists (table f_code prize (Z.to_nat maxPresses)).
  split; [apply thresholds_eq |].
  split; [rewrite table_length; lia |].
  split.
  - intros i j x y Hij Hx Hy.
    pose proof (lookup_length _ _ _ Hx) as Hi.
    pose proof (lookup_length _ _ _ Hy) as Hj.
    rewrite table_length in Hi, Hj.
    replace i with (Z.of_nat (Z.to_nat i)) in Hx by lia.
    replace j with (Z.of_nat (Z.to_nat j)) in Hy by lia.
    rewrite table_lookup in Hx, Hy by lia.
    injection Hx as <-. injection Hy as <-.
    apply Hord. lia.
  - replace (maxPresses - 1)%Z with (Z.of_nat (Z.to_nat maxPresses - 1))
      by lia.
    rewrite table_lookup by lia.
    replace (Z.to_nat maxPresses - 1 - (Z.to_nat maxPresses - 1))%nat
      with 0%nat by lia.
    cbn [f_code]. now rewrite Hzero.
Qed.

End Table.

(** *** The recurrence of the specification *)

Section Recurrence.

Context {num : Type} {N : Number num}.

Local Open Scope num_scope.

Lemma f_spec_code (j : nat) : half_distributes -> f_spec j = f_code j.
Proof.
  intros law.
  induction j as [| j IH]; [reflexivity |].
  destruct j as [| j]; [reflexivity |].
  change (f_spec (S (S j)))
    with (num_half * (num_one + f_spec (S j) * f_spec (S j))).
  rewrite IH, law. reflexivity.
Qed.

End Recurrence.

Lemma Qc_half_distributes : half_distributes (num := Qc).
Proof. intros y. cbn. ring. Qed.

(** *** Exact arithmetic *)

(** The rational value of the operations of [Number_Qc]. *)
Lemma Qcplus_value (x y : Qc) : (this (x + y)%Qc == this x + this y)%Q.
Proof. exact (Qred_correct _). Qed.

Lemma Qcmult_value (x y : Qc) : (this (x * y)%Qc == this x * this y)%Q.
Proof. exact (Qred_correct _). Qed.

Lemma Q2Qc_value (q : Q) : (this (Q2Qc q) == q)%Q.
Proof. exact (Qred_correct _). Qed.

(** Turns a goal on [Qc] into one on the rational values, where [lra] and
    [nra] apply. *)
Ltac Qc_values :=
  unfold Qcle, Qclt in *;
  cbv [num_add num_mul num_zero num_half num_one num_of_Z Number_Qc] in *;
  repeat first
    [ rewrite Qcplus_value in *
    | rewrite Qcmult_value in *
    | rewrite Q2Qc_value in * ].

(** The values [f_code j] are non-negative and do not decrease. *)
Lemma f_code_step (j : nat) :
  (0 <= this (f_code (num := Qc) j) <= this (f_code (num := Qc) (S j)))%Q.
Proof.
  induction j as [| j IH].
  - cbn. split; discriminate.
  - destruct IH as [IH0 IH1].
    split; [apply (Qle_trans _ _ _ IH0 IH1) |].
    change (f_code (S (S j)))
      with (num_half + num_half * (f_code (S j) * f_code (S j)))%num.
    destruct j as [| j].
    + cbn. discriminate.
    + assert (Hb : (this (f_code (num := Qc) (S (S j)))
                    == (1 # 2) + (1 # 2)
                       * (this (f_code (num := Qc) (S j))
                          * this (f_code (num := Qc) (S j))))%Q).
      { change (f_code (S (S j)))
          with (num_half + num_half * (f_code (S j) * f_code (S j)))%num.
        now Qc_values. }
      set (a := f_code (S j)) in *.
      set (b := f_code (S (S j))) in *.
      Qc_values. nra.
Qed.

Lemma f_code_monotone (i j : nat) :
  (i <= j)%nat -> (f_code (num := Qc) i <= f_code (num := Qc) j)%Qc.
Proof.
  induction 1 as [| j _ IH]; [apply Qcle_refl |].
  apply (Qcle_trans _ _ _ IH). apply f_code_step.
Qed.

(** *** Binary64: the product of zero *)

(** [0 * c] is [0] for a finite [c > 0]. *)
Lemma float_zero_mul (c : float) :
  (0 <? c)%float = true ->
  is_infinity c = false ->
  (0 * c)%float = 0%float.
Proof.
  intros Hpos Hfin.
  apply Prim2SF_inj. rewrite mul_spec.
  rewrite ltb_spec in Hpos.
  unfold is_infinity in Hfin. rewrite eqb_spec, abs_spec in Hfin.
  change (Prim2SF 0) with (S754_zero false) in *.
  change (Prim2SF infinity) with (S754_infinity false) in Hfin.
  destruct (Prim2SF c) as [[|] | [|] | | [|] m e];
    cbv in Hpos, Hfin; try discriminate.
  reflexivity.
Qed.

(** *** The recurrence in binary64 *)

Section RecurrenceBinary64.

Local Open Scope float_scope.

Lemma nonneg_leb_zero (x : float) :
  nonneg (Prim2SF x) = true -> (0 <=? x) = true.
Proof.
  intros Nx. rewrite leb_ordn by (assumption || reflexivity).
  apply Z.leb_le. change (ordn (Prim2SF 0)) with 0%Z.
  pose proof (Prim2SF_valid x) as V.
  destruct (Prim2SF x) as [s | s | | s m e]; try discriminate.
  pose proof (ordn_finite_range _ _ _ V). lia.
Qed.

(** A finite number above zero is positive and finite. *)
Lemma positive_pos_finite (c : float) :
  (0 <? c) = true -> is_infinity c = false -> pos_finite c.
Proof.
  intros Hpos Hfin.
  rewrite ltb_spec in Hpos.
  unfold is_infinity in Hfin. rewrite eqb_spec, abs_spec in Hfin.
  change (Prim2SF 0) with (S754_zero false) in Hpos.
  change (Prim2SF infinity) with (S754_infinity false) in Hfin.
  unfold pos_finite.
  destruct (Prim2SF c) as [[|] | [|] | | [|] m e];
    cbv in Hpos, Hfin; try discriminate.
  eauto.
Qed.

Lemma between_exponent (y : float) (m : positive) (e : Z) :
  Prim2SF y = S754_finite false m e ->
  between 0.25 1 y ->
  (-1074 < e <= -52)%Z.
Proof.
  intros Ey [H1 H2].
  pose proof (pos_finite_valid _ _ _ Ey) as V.
  rewrite leb_ordn in H1, H2 by (rewrite ?Ey; reflexivity).
  apply Z.leb_le in H1, H2. rewrite Ey in H1, H2.
  change (ordn (Prim2SF 0.25)) with (1021 * 2 ^ 52)%Z in H1.
  change (ordn (Prim2SF 1)) with (1023 * 2 ^ 52)%Z in H2.
  destruct (valid_finite_range _ _ _ V) as (He & Hm & Hn & _).
  cbn [ordn] in H1, H2.
  change (2 ^ 52)%Z with 4503599627370496%Z in *.
  change (2 ^ 53)%Z with 9007199254740992%Z in *.
  lia.
Qed.

Lemma half_distr_between (y : float) :
  between 0.25 1 y -> 0.5 * (1 + y) = 0.5 + 0.5 * y.
Proof.
  intros Hy.
  assert (Py : pos_finite y)
    by (destruct Hy; apply (pos_finite_between 0.25 1); try assumption;
        pos_finite_const).
  destruct Py as (m & e & Ey).
  apply (half_distr_normal y m e Ey).
  now apply (between_exponent y m e).
Qed.

(** From index 1 on the values of the recurrence lie in [[0.5, 1]]. *)
Lemma f_code_float_range (j : nat) :
  between 0.5 1 (f_code (num := float) (S j)).
Proof.
  induction j as [| j IH].
  - split; reflexivity.
  - change (f_code (S (S j))) with (step (f_code (S j))).
    destruct (step_between _ IH) as (_ & _ & _ & [H1 H2]).
    split; [| assumption].
    apply (leb_trans 0.5 0.625); try reflexivity; try assumption.
    apply pos_finite_nonneg.
    apply (pos_finite_between 0.625 1); try assumption; pos_finite_const.
Qed.

Lemma f_code_float_nonneg (j : nat) :
  nonneg (Prim2SF (f_code (num := float) j)) = true.
Proof.
  destruct j as [| j]; [reflexivity |].
  apply pos_finite_nonneg.
  destruct (f_code_float_range j).
  apply (pos_finite_between 0.5 1); try assumption; pos_finite_const.
Qed.

Lemma f_code_float_step (j : nat) :
  (f_code (num := float) j <=? f_code (num := float) (S j)) = true.
Proof.
  induction j as [| j IH]; [reflexivity |].
  destruct j as [| j]; [reflexivity |].
  change (f_code (S (S (S j)))) with (step (f_code (S (S j)))).
  change (f_code (S (S j))) with (step (f_code (S j))) at 1.
  apply step_mono; try apply f_code_float_range. exact IH.
Qed.

Lemma f_code_float_monotone (i j : nat) :
  (i <= j)%nat ->
  (f_code (num := float) i <=? f_code (num := float) j) = true.
Proof.
  induction 1 as [| j _ IH].
  - rewrite leb_ordn by apply f_code_float_nonneg.
    apply Z.leb_refl.
  - apply (leb_trans _ (f_code j)); auto using f_code_float_nonneg.
    apply f_code_float_step.
Qed.

(** In binary64 the recurrence of the specification and the one of the
    script produce the same doubles. *)
Lemma f_spec_code_float (j : nat) :
  f_spec (num := float) j = f_code (num := float) j.
Proof.
  induction j as [| j IH]; [reflexivity |].
  destruct j as [| j]; [reflexivity |].
  change (f_spec (S (S j)))
    with (0.5 * (1 + f_spec (num := float) (S j) * f_spec (num := float) (S j))).
  rewrite IH.
  rewrite half_distr_between; [reflexivity |].
  apply step_between, f_code_float_range.
Qed.

(** Scaling by a positive finite prize keeps the order. *)
Lemma f_code_float_scaled (c : float) (i j : nat) :
  pos_finite c -> (i <= j)%nat ->
  (f_code (num := float) i * c <=? f_code (num := float) j * c) = true.
Proof.
  intros Hc Hij.
  pose proof (f_code_float_monotone i j Hij) as Hle.
  assert (Hpos : forall k : nat, pos_finite (f_code (num := float) (S k))).
  { intros k. destruct (f_code_float_range k).
    apply (pos_finite_between 0.5 1); try assumption; pos_finite_const. }
  assert (Hz : 0 * c = 0).
  { apply Prim2SF_inj. rewrite mul_spec.
    destruct Hc as (m & e & ->). reflexivity. }
  destruct j as [| j].
  - replace i with 0%nat by lia. cbn [f_code].
    change (@num_zero float _) with 0. rewrite Hz. reflexivity.
  - destruct i as [| i].
    + cbn [f_code]. change (@num_zero float _) with 0. rewrite Hz.
      apply nonneg_leb_zero.
      destruct (mul_mono_r _ _ c (Hpos j) (Hpos j) Hc) as (Nn & _).
      * rewrite leb_ordn by auto using pos_finite_nonneg. apply Z.leb_refl.
      * exact Nn.
    + now apply mul_mono_r.
Qed.

End RecurrenceBinary64.


(** *** The table: statements *)

(** C2: for [maxPresses >= 1] and every prize ceiling the solver returns
    a table of exactly [maxPresses] entries, and the entry for [k]
    presses remaining, at index [maxPresses - k] (so [k] runs from
    [maxPresses] down to [1]), is [f (k - 1) * prizeCeiling] for the
    recurrence [f] of the specification: in binary64, where
    [0.5 * (1 + f^2)] and the [0.5 + 0.5 * f^2] of the script are the
    same double at every step, and in exact arithmetic. *)
Theorem thresholds_recurrence_table (maxPresses : Z) :
  1 <= maxPresses ->
  (forall prizeCeiling : float, recurrence_table maxPresses prizeCeiling) /\
  (forall prizeCeiling : Qc, recurrence_table maxPresses prizeCeiling).
Proof.
  intros Hm. split; intros c.
  - apply recurrence_table_of; [exact f_spec_code_float | assumption].
  - apply recurrence_table_of; [| assumption].
    intros j. apply f_spec_code. exact Qc_half_distributes.
Qed.

Lemma thresholds_recurrence_table_witness :
  recurrence_table 10 (TOP_PRIZE (num := float)) /\
  recurrence_table 10 (TOP_PRIZE (num := Qc)).
Proof.
  split.
  - apply (proj1 (thresholds_recurrence_table 10 ltac:(lia))).
  - apply (proj2 (thresholds_recurrence_table 10 ltac:(lia))).
Defined.

(** C5: for [maxPresses >= 1] and [prizeCeiling > 0] the table has
    [maxPresses] entries, does not increase along its indices and its last
    entry, the one for one press remaining, is exactly 0: in binary64 for
    every finite prize ceiling, and in exact arithmetic. *)
Theorem thresholds_nonincreasing_last_zero (maxPresses : Z) :
  1 <= maxPresses ->
  (forall prizeCeiling : float,
     (0 <? prizeCeiling)%float = true ->
     is_infinity prizeCeiling = false ->
     nonincreasing_table maxPresses prizeCeiling) /\
  (forall prizeCeiling : Qc,
     (num_zero < prizeCeiling)%Qc ->
     nonincreasing_table maxPresses prizeCeiling).
Proof.
  intros Hm. split.
  - intros c Hpos Hfin.
    apply nonincreasing_table_of; [| | assumption].
    + intros i j Hij.
      apply f_code_float_scaled; [| assumption].
      now apply positive_pos_finite.
    + now apply float_zero_mul.
  - intros c Hc.
    apply nonincreasing_table_of; [| | assumption].
    + intros i j Hij.
      apply Qle_bool_iff.
      apply (Qcmult_le_compat_r (f_code i) (f_code j) c).
      * now apply f_code_monotone.
      * apply Qclt_le_weak. exact Hc.
    + apply Qcmult_0_l.
Qed.

Lemma thresholds_nonincreasing_last_zero_witness :
  nonincreasing_table 10 (TOP_PRIZE (num := float)) /\
  nonincreasing_table 10 (TOP_PRIZE (num := Qc)).
Proof.
  split.
  - apply (proj1 (thresholds_nonincreasing_last_zero 10 ltac:(lia)));
      reflexivity.
  - apply (proj2 (thresholds_nonincreasing_last_zero 10 ltac:(lia))).
    reflexivity.
Defined.

(** C6, as the script behaves: for [maxPresses < 1] the solver neither
    rejects nor clamps, it returns the empty table. *)
Theorem thresholds_below_one_empty {num : Type} {N : Number num}
    (maxPresses : Z) (prizeCeiling : num) :
  maxPresses < 1 -> thresholds maxPresses prizeCeiling = Some [].
Proof.
  intros Hm. rewrite thresholds_eq.
  replace (Z.to_nat maxPresses) with 0%nat by lia. reflexivity.
Qed.

Lemma thresholds_below_one_empty_witness :
  thresholds (-3) (TOP_PRIZE (num := float)) = Some [].
Proof. apply thresholds_below_one_empty. lia. Defined.

(** C6 fails as stated: on [maxPresses = 0] with the default prize the
    solver returns the empty table, it is not refused and not clamped to a
    table of positive length. *)
Lemma thresholds_zero_presses_empty :
  thresholds 0 (TOP_PRIZE (num := float)) = Some [] /\
  forall m : Z, 1 <= m ->
    thresholds 0 (TOP_PRIZE (num := float)) <> thresholds m TOP_PRIZE.
Proof.
  split; [reflexivity |].
  intros m Hm E. rewrite !thresholds_eq in E.
  injection E as E. apply (f_equal (@length float)) in E.
  rewrite !table_length in E. lia.
Qed.

(** *** The default table *)

(** C7: [thresholds(10, 100000)] yields, in order, values within 0.5 of
    the listed ones: in binary64, where each computed double is compared
    as the exact rational it stands for, and in exact arithmetic. *)
Theorem default_thresholds_listed :
  (exists t : list float,
     thresholds 10 (num_of_Z 100000) = Some t /\
     Forall2 (fun x v => float_within (1 # 2) v x = true) t listed_thresholds) /\
  (exists t : list Qc,
     thresholds 10 (num_of_Z 100000) = Some t /\
     Forall2 (fun x v => Qc_within (1 # 2) v x = true) t listed_thresholds).
Proof.
  split.
  - eexists. split; [vm_compute; reflexivity |].
    repeat constructor.
  - rewrite thresholds_eq. eexists. split; [reflexivity |].
    unfold table, listed_thresholds. cbn [Z.to_nat Pos.to_nat Pos.iter_op Nat.add seq map].
    repeat (constructor; [vm_compute; reflexivity |]). constructor.
Qed.

(** C10: the table for [(maxPresses, c)] is, entry by entry, the table for
    [(maxPresses, 1)] multiplied by [c], for every [maxPresses] and every
    [c]: in binary64, where [x * 1] is [x] exactly, and in exact
    arithmetic. *)
Theorem thresholds_homogeneous :
  (forall (maxPresses : Z) (c : float), homogeneous_table maxPresses c) /\
  (forall (maxPresses : Z) (c : Qc), homogeneous_table maxPresses c).
Proof.
  split; intros maxPresses c; apply homogeneous_table_of.
  - exact float_mul_one_r.
  - intros x. cbn. ring.
Qed.

(** ** SimulationWorker: one trial *)

Section Trial.

Context {num : Type} {N : Number num}.

Variable random : nat -> num.

Local Open Scope num_scope.

(** With as many iterations left as presses, the loop leaves through the
    [break], at the first press whose draw reaches its threshold or at the
    last press. *)
Lemma press_loop_stops (th : list num) (maxPresses : Z) (prize : num)
    (n : nat) (press : Z) (r : nat) :
  (1 <= n)%nat ->
  Z.of_nat n = (maxPresses - press + 1)%Z ->
  exists q : Z,
    (press <= q <= maxPresses)%Z /\
    (reaches (random (r + Z.to_nat (q - press))%nat * prize)
       (lookup th (q - 1)) = true \/ q = maxPresses) /\
    (forall p : Z, (press <= p < q)%Z ->
       reaches (random (r + Z.to_nat (p - press))%nat * prize)
         (lookup th (p - 1)) = false) /\
    forall winnings : num,
      press_loop random n press th maxPresses prize winnings r
      = (winnings + random (r + Z.to_nat (q - press))%nat * prize,
         S (r + Z.to_nat (q - press))).
Proof.
  revert press r.
  induction n as [| n IH]; intros press r Hn Hlen; [lia |].
  cbn [press_loop].
  destruct (reaches (random r * prize) (lookup th (press - 1))) eqn:Hr.
  - exists press.
    replace (Z.to_nat (press - press)) with 0%nat by lia.
    rewrite Nat.add_0_r.
    repeat split; try lia; auto.
  - destruct (Z.eqb_spec press maxPresses) as [He | He].
    + exists press.
      replace (Z.to_nat (press - press)) with 0%nat by lia.
      rewrite Nat.add_0_r.
      repeat split; try lia; auto.
    + destruct (IH (press + 1)%Z (S r)) as (q & Hq & Hstop & Hearlier & Hrun);
        try lia.
      assert (Hoff : forall p : Z, (press + 1 <= p)%Z ->
                (S r + Z.to_nat (p - (press + 1)))%nat
                = (r + Z.to_nat (p - press))%nat) by (intros p Hp; lia).
      exists q.
      rewrite (Hoff q) in Hstop, Hrun by lia.
      repeat split; try lia; auto.
      intros p Hp.
      destruct (Z.eq_dec p press) as [-> | Hne].
      * replace (Z.to_nat (press - press)) with 0%nat by lia.
        now rewrite Nat.add_0_r.
      * rewrite <- (Hoff p) by lia. apply Hearlier. lia.
Qed.

End Trial.

(** [draw >= th[idx]] holds when the entry is there and the draw is at
    least the entry. *)
Lemma reaches_true {num : Type} {N : Number num} (draw : num)
    (t : option num) :
  reaches draw t = true <->
  exists x : num, t = Some x /\ (draw >=? x)%num = true.
Proof.
  destruct t as [x |]; cbn [reaches]; split.
  - intros H. now exists x.
  - intros (y & [= <-] & H). exact H.
  - discriminate.
  - intros (y & [=] & _).
Qed.

Lemma reaches_false {num : Type} {N : Number num} (draw : num)
    (t : option num) :
  reaches draw t = false <->
  forall x : num, t = Some x -> (draw >=? x)%num = false.
Proof.
  destruct t as [x |]; cbn [reaches]; split.
  - intros H y [= <-]. exact H.
  - intros H. now apply H.
  - discriminate.
  - reflexivity.
Qed.

(** C1: a trial accepts exactly one draw.  With [maxPresses >= 1] there is
    a press [press] in [1..maxPresses] such that the draw of that press is
    [>=] the threshold for [k = maxPresses - press + 1] presses remaining
    (the table being ordered most presses remaining first, the entry at
    index [maxPresses - k = press - 1]) or [press = maxPresses]; at no
    earlier press is the draw [>=] the entry of that press; and the trial
    adds that one draw to the subtotal, having consumed [press] draws. *)
Theorem trial_accepts_exactly_one {num : Type} {N : Number num}
    (random : nat -> num) (th : list num) (maxPresses : Z) (prize : num)
    (r : nat) :
  1 <= maxPresses ->
  exists press : Z,
    1 <= press <= maxPresses /\
    (let k := maxPresses - press + 1 in
     (exists x : num,
        lookup th (maxPresses - k) = Some x /\
        (draw_at random prize r press >=? x)%num = true)
     \/ press = maxPresses) /\
    (forall (p : Z) (x : num),
       1 <= p < press -> lookup th (p - 1) = Some x ->
       (draw_at random prize r p >=? x)%num = false) /\
    forall winnings : num,
      trial random th maxPresses prize winnings r
      = ((winnings + draw_at random prize r press)%num,
         (r + Z.to_nat press)%nat).
Proof.
  intros Hm.
  destruct (press_loop_stops random th maxPresses prize
              (Z.to_nat maxPresses) 1 r) as (q & Hq & Hstop & Hearlier & Hrun);
    try lia.
  exists q. unfold draw_at.
  split; [assumption |].
  split.
  - cbv zeta. replace (maxPresses - (maxPresses - q + 1)) with (q - 1) by lia.
    destruct Hstop as [Hstop | ->]; [left | now right].
    now apply reaches_true.
  - split.
    + intros p x Hp Hx.
      specialize (Hearlier p Hp).
      exact (proj1 (reaches_false _ _) Hearlier x Hx).
    + intros winnings. unfold trial. rewrite Hrun.
      f_equal. lia.
Qed.

Lemma trial_accepts_exactly_one_witness :
  exists press : Z,
    1 <= press <= 10 /\
    (let k := 10 - press + 1 in
     (exists x : float,
        lookup [84000%float; 0%float] (10 - k) = Some x /\
        (draw_at (fun _ => 0.5%float) TOP_PRIZE 0 press >=? x)%num = true)
     \/ press = 10) /\
    (forall (p : Z) (x : float),
       1 <= p < press -> lookup [84000%float; 0%float] (p - 1) = Some x ->
       (draw_at (fun _ => 0.5%float) TOP_PRIZE 0 p >=? x)%num = false) /\
    forall winnings : float,
      trial (fun _ => 0.5%float) [84000%float; 0%float] 10 TOP_PRIZE winnings 0
      = ((winnings + draw_at (fun _ => 0.5%float) TOP_PRIZE 0 press)%num,
         (0 + Z.to_nat press)%nat).
Proof. apply trial_accepts_exactly_one. lia. Defined.

(** ** SimulationWorker: the subtotal *)

(** Without trials the subtotal is the initial [0], whatever the
    arithmetic. *)
Lemma simulate_no_trials {num : Type} {N : Number num}
    (random : nat -> num) (th : list num) (maxPresses : Z) (prize : num) :
  simulate random 0 th maxPresses prize = num_zero.
Proof. reflexivity. Qed.

Section Subtotal.

Variable random : nat -> Qc.
Variable th : list Qc.
Variable maxPresses : Z.
Variable prize : Qc.

(** A trial adds at most one draw. *)
Lemma press_loop_bounds (n : nat) (press : Z) (winnings : Qc) (r : nat) :
  draws_in_range random prize ->
  (winnings
   <= fst (press_loop random n press th maxPresses prize winnings r))%Qc /\
  (fst (press_loop random n press th maxPresses prize winnings r)
   <= (winnings + prize)%num)%Qc.
Proof.
  intros Hdraws.
  revert press r.
  induction n as [| n IH]; intros press r; cbn [press_loop].
  - destruct (Hdraws 0%nat) as [H0 H1]. clear Hdraws.
    cbn [fst]. Qc_values. split; lra.
  - destruct (reaches (random r * prize)%num (lookup th (press - 1))
              || (press =? maxPresses)%Z).
    + destruct (Hdraws r) as [H0 H1]. clear Hdraws IH.
      cbn [fst]. Qc_values. split; lra.
    + apply IH.
Qed.

Lemma sims_loop_bounds (n : nat) (winnings : Qc) (r : nat) :
  draws_in_range random prize ->
  (winnings <= fst (sims_loop random n th maxPresses prize winnings r))%Qc /\
  (fst (sims_loop random n th maxPresses prize winnings r)
   <= (winnings + num_of_Z (Z.of_nat n) * prize)%num)%Qc.
Proof.
  intros Hdraws.
  revert winnings r.
  induction n as [| n IH]; intros winnings r.
  - clear Hdraws. cbn [sims_loop fst]. Qc_values.
    change (inject_Z (Z.of_nat 0)) with 0%Q.
    split; lra.
  - cbn [sims_loop].
    pose proof (press_loop_bounds (Z.to_nat maxPresses) 1 winnings r Hdraws)
      as Ht.
    fold (trial random th maxPresses prize winnings r) in Ht.
    destruct (trial random th maxPresses prize winnings r) as [w' r'].
    cbn [fst] in Ht. destruct Ht as [Ht0 Ht1].
    destruct (IH w' r') as [IH0 IH1]. clear IH Hdraws.
    set (res := fst (sims_loop random n th maxPresses prize w' r')) in *.
    rewrite Nat2Z.inj_succ. unfold Z.succ.
    Qc_values. rewrite inject_Z_plus.
    change (inject_Z 1) with 1%Q.
    split; lra.
Qed.

End Subtotal.

(** *** The subtotal in binary64 *)

Section SubtotalBinary64.

Local Open Scope float_scope.

(** Adding a draw that is not below zero to a non-negative subtotal
    leaves it non-negative. *)
Lemma add_nonneg (w d : float) :
  nonneg (Prim2SF w) = true -> (0 <=? d) = true ->
  nonneg (Prim2SF (w + d)) = true.
Proof.
  intros Nw Hd.
  rewrite leb_spec in Hd. change (Prim2SF 0) with (S754_zero false) in Hd.
  rewrite add_spec.
  pose proof (Prim2SF_valid w) as Vw.
  pose proof (Prim2SF_valid d) as Vd.
  destruct (Prim2SF w) as [[|] | [|] | | [|] mw ew]; try discriminate;
    destruct (Prim2SF d) as [[|] | [|] | | [|] md ed]; try discriminate;
    try reflexivity.
  now apply SFadd_finite.
Qed.

Variable random : nat -> float.
Variable th : list float.
Variable maxPresses : Z.
Variable prize : float.

Lemma press_loop_nonneg (n : nat) (press : Z) (winnings : float) (r : nat) :
  (forall i : nat, (0 <=? random i * prize) = true) ->
  nonneg (Prim2SF winnings) = true ->
  nonneg (Prim2SF (fst (press_loop random n press th maxPresses prize
                          winnings r))) = true.
Proof.
  intros Hdraws Nw.
  revert press r.
  induction n as [| n IH]; intros press r; cbn [press_loop]; [assumption |].
  destruct (reaches (random r * prize)%num (lookup th (press - 1))
            || (press =? maxPresses)%Z).
  - cbn [fst]. apply add_nonneg; [assumption | apply Hdraws].
  - apply IH.
Qed.

Lemma sims_loop_nonneg (n : nat) (winnings : float) (r : nat) :
  (forall i : nat, (0 <=? random i * prize) = true) ->
  nonneg (Prim2SF winnings) = true ->
  nonneg (Prim2SF (fst (sims_loop random n th maxPresses prize
                          winnings r))) = true.
Proof.
  intros Hdraws.
  revert winnings r.
  induction n as [| n IH]; intros winnings r Nw; cbn [sims_loop];
    [assumption |].
  pose proof (press_loop_nonneg (Z.to_nat maxPresses) 1 winnings r Hdraws Nw)
    as Ht.
  fold (trial random th maxPresses prize winnings r) in Ht.
  destruct (trial random th maxPresses prize winnings r) as [w' r'].
  apply IH. exact Ht.
Qed.

End SubtotalBinary64.

(** C9, as the script behaves: the subtotal of [sims = 0] is exactly 0, in
    every arithmetic; in binary64 the subtotal is never below 0 when no
    draw is; and in exact arithmetic, for [sims >= 0], every table and
    every source whose draws all lie in [[0, prizeCeiling)], the subtotal
    lies between 0 and [sims * prizeCeiling]. *)
Theorem simulate_subtotal_bounds :
  (forall (num : Type) (N : Number num) (random : nat -> num)
          (th : list num) (maxPresses : Z) (prizeCeiling : num),
     simulate random 0 th maxPresses prizeCeiling = num_zero) /\
  (forall (random : nat -> float) (sims : Z) (th : list float)
          (maxPresses : Z) (prizeCeiling : float),
     (forall r : nat, (num_zero <=? random r * prizeCeiling)%float = true) ->
     (num_zero <=? simulate random sims th maxPresses prizeCeiling)%float
     = true) /\
  (forall (random : nat -> Qc) (sims : Z) (th : list Qc) (maxPresses : Z)
          (prizeCeiling : Qc),
     0 <= sims ->
     draws_in_range random prizeCeiling ->
     (num_zero <= simulate random sims th maxPresses prizeCeiling)%Qc /\
     (simulate random sims th maxPresses prizeCeiling
      <= (num_of_Z sims * prizeCeiling)%num)%Qc).
Proof.
  split; [intros; apply simulate_no_trials |].
  split.
  - intros random sims th maxPresses prize Hdraws.
    apply nonneg_leb_zero. unfold simulate.
    now apply sims_loop_nonneg.
  - intros random sims th maxPresses prize Hs Hdraws.
    unfold simulate.
    destruct (sims_loop_bounds random th maxPresses prize
                (Z.to_nat sims) num_zero 0 Hdraws) as [H0 H1].
    clear Hdraws.
    rewrite Z2Nat.id in H1 by assumption.
    split; [exact H0 |].
    set (res := fst (sims_loop random (Z.to_nat sims) th maxPresses prize
                       num_zero 0)) in *.
    Qc_values. lra.
Qed.

Lemma simulate_subtotal_bounds_witness :
  (num_zero
   <=? simulate (fun _ => 0.5%float) 3 [62500%float; 0%float] 2
         100000%float)%float = true /\
  (num_zero
   <= simulate (fun _ => num_half) 3 [num_of_Z 62500; num_zero] 2
        (num_of_Z 100000))%Qc /\
  (simulate (fun _ => num_half) 3 [num_of_Z 62500; num_zero] 2
     (num_of_Z 100000)
   <= (num_of_Z 3 * num_of_Z 100000)%num)%Qc.
Proof.
  split.
  - apply (proj1 (proj2 simulate_subtotal_bounds)).
    intros r. reflexivity.
  - apply (proj2 (proj2 simulate_subtotal_bounds)); [lia |].
    intros r. split; vm_compute; [discriminate | reflexivity].
Defined.

(** C9 fails as stated: a worker with the prize ceiling
    [1 + 7 * 2 ^ -52] whose source always returns [1 - 2 ^ -52] draws
    [1 + 6 * 2 ^ -52] every time, a number of [[0, prizeCeiling)], accepts
    it at the first press, and after 12 trials posts a rounded sum that
    is above [12 * prizeCeiling], compared in binary64 and compared as
    exact rationals. *)
Lemma subtotal_exceeds_bound :
  exists subtotal : float,
    worker (fun _ => 0x1.ffffffffffffep-1%float)
      {| wd_sims := 12; wd_maxPresses := 10;
         wd_prize := 0x1.0000000000007p+0%float |}
    = Some subtotal /\
    (0 <=? 0x1.ffffffffffffep-1 * 0x1.0000000000007p+0)%float = true /\
    (0x1.ffffffffffffep-1 * 0x1.0000000000007p+0
     <? 0x1.0000000000007p+0)%float = true /\
    (subtotal <=? num_of_Z 12 * 0x1.0000000000007p+0)%float = false /\
    match float_to_Q subtotal, float_to_Q 0x1.0000000000007p+0%float with
    | Some s, Some p => Qle_bool s (12 * p) = false
    | _, _ => False
    end.
Proof.
  eexists. split; [vm_compute; reflexivity |].
  repeat split; vm_compute; reflexivity.
Qed.

(** ** WorkDistributor *)

Lemma Zsum_repeat (x : Z) (n : nat) : Zsum (repeat x n) = Z.of_nat n * x.
Proof.
  induction n as [| n IH]; [reflexivity |].
  cbn [repeat Zsum fold_right]. fold (Zsum (repeat x n)). lia.
Qed.

Section Distributor.

Context {num : Type} {N : Number num}.

Variables totalSims numWorkers : Z.

(** Past the first iteration every worker gets [simsPerWorker]. *)
Lemma spawn_loop_later (n : nat) (i : Z) :
  1 <= i ->
  map wd_sims (spawn_loop totalSims numWorkers n i)
  = repeat (simsPerWorker totalSims numWorkers) n.
Proof.
  revert i.
  induction n as [| n IH]; intros i Hi; [reflexivity |].
  cbn [spawn_loop map repeat]. rewrite IH by lia.
  f_equal. cbn [spawn wd_sims].
  destruct (Z.eqb_spec i 0); lia.
Qed.

Lemma spawn_loop_length (n : nat) (i : Z) :
  length (spawn_loop totalSims numWorkers n i) = n.
Proof.
  revert i. induction n as [| n IH]; intros i; [reflexivity |].
  cbn [spawn_loop length]. now rewrite IH.
Qed.

Lemma workers_length :
  length (workers totalSims numWorkers) = Z.to_nat numWorkers.
Proof. apply spawn_loop_length. Qed.

Lemma trial_counts_eq :
  1 <= numWorkers ->
  trial_counts totalSims numWorkers
  = (simsPerWorker totalSims numWorkers + extra totalSims numWorkers)
    :: repeat (simsPerWorker totalSims numWorkers) (Z.to_nat numWorkers - 1).
Proof.
  intros Hw. unfold trial_counts, workers.
  destruct (Z.to_nat numWorkers) as [| n] eqn:E; [lia |].
  cbn [spawn_loop map]. rewrite spawn_loop_later by lia.
  now rewrite Nat.sub_succ, Nat.sub_0_r.
Qed.

End Distributor.

(** *** Integers as doubles *)

Section Binary64Integers.

(** Rounding the integer [u * 2 ^ j], given at the exponent [- j]: an
    integer [u] below [2 ^ 53] is a double, of mantissa
    [u * 2 ^ (53 - d)] and exponent [d - 53] for [u] of [d] digits. *)
Lemma binary_round_scaled (s : bool) (u P : positive) (j : Z) :
  0 <= j -> Z.pos P = Z.pos u * 2 ^ j -> Z.pos u < 2 ^ 53 ->
  exists m : positive,
    Z.pos m = Z.pos u * 2 ^ (53 - Z.pos (digits2_pos u)) /\
    Z.pos (digits2_pos u) <= 53 /\
    2 ^ 52 <= Z.pos m < 2 ^ 53 /\
    valid_binary (S754_finite s m (Z.pos (digits2_pos u) - 53)) = true /\
    binary_round prec emax s P (- j)
    = S754_finite s m (Z.pos (digits2_pos u) - 53).
Proof.
  intros Hj HP Hu. unfold binary_round.
  pose proof (digits2_pos_bounds u) as [Hlo Hhi].
  set (d := Z.pos (digits2_pos u)) in *.
  assert (Hd1 : 1 <= d) by (unfold d; lia).
  assert (Hd : d <= 53).
  { destruct (Z.le_gt_cases d 53) as [? | Hgt]; [assumption | exfalso].
    assert (2 ^ 53 <= 2 ^ (d - 1)) by (apply Z.pow_le_mono_r; lia). lia. }
  assert (HdP : Z.pos (digits2_pos P) = d + j).
  { apply digits2_pos_unique. rewrite HP.
    replace (d + j - 1) with (d - 1 + j) by lia.
    rewrite !Z.pow_add_r by lia.
    assert (0 < 2 ^ j) by (apply Z.pow_pos_nonneg; lia).
    split; [apply Z.mul_le_mono_nonneg_r | apply Z.mul_lt_mono_pos_r]; lia. }
  rewrite HdP. replace (d + j + - j) with d by lia.
  rewrite fexp_eq, Z.max_l by lia.
  assert (Hpow : 0 < 2 ^ (53 - d)) by (apply Z.pow_pos_nonneg; lia).
  assert (Hm : exists m : positive, Z.pos m = Z.pos u * 2 ^ (53 - d)).
  { exists (Z.to_pos (Z.pos u * 2 ^ (53 - d))). rewrite Z2Pos.id; lia. }
  destruct Hm as [m Hm]. exists m.
  assert (Hmz : 2 ^ 52 <= Z.pos m < 2 ^ 53).
  { assert (E52 : 2 ^ 52 = 2 ^ (d - 1) * 2 ^ (53 - d))
      by (rewrite <- Z.pow_add_r by lia; f_equal; lia).
    assert (E53 : 2 ^ 53 = 2 ^ d * 2 ^ (53 - d))
      by (rewrite <- Z.pow_add_r by lia; f_equal; lia).
    rewrite Hm, E52, E53.
    split; [apply Z.mul_le_mono_nonneg_r | apply Z.mul_lt_mono_pos_r]; lia. }
  assert (V : valid_binary (S754_finite s m (d - 53)) = true).
  { cbn [valid_binary]. unfold bounded, canonical_mantissa.
    rewrite (digits2_pos_unique m 53)
      by (replace (53 - 1) with 52 by lia; assumption).
    rewrite fexp_eq.
    apply andb_true_intro. split.
    - apply Z.eqb_eq. lia.
    - apply Z.leb_le. change (emax - prec) with 971. lia. }
  repeat split; try assumption; try lia.
  destruct (Z.le_gt_cases (d - 53) (- j)) as [Hc | Hc].
  - (* the mantissa is shifted to the left, or kept *)
    pose proof (shl_align_down P (- j) (d - 53) Hc) as HM.
    assert (HE : snd (shl_align P (- j) (d - 53)) = d - 53).
    { unfold shl_align.
      destruct (d - 53 - - j) as [| k | k] eqn:E; cbn [snd]; lia. }
    destruct (shl_align P (- j) (d - 53)) as [mz ez].
    cbn [fst snd] in HM, HE. subst ez.
    assert (mz = m).
    { apply Pos2Z.inj. rewrite HM, Hm, HP, <- Z.mul_assoc, <- Z.pow_add_r by lia.
      do 2 f_equal. lia. }
    subst mz.
    pose proof (binary_round_aux_exact s m (d - 53) 0 1 ltac:(lia) eq_refl V)
      as E.
    rewrite Pos.mul_1_r, Z.sub_0_r in E. exact E.
  - rewrite shl_align_id by lia.
    set (k := d - 53 + j).
    assert (Hk : 0 <= k) by (unfold k; lia).
    assert (Hp : exists p : positive, Z.pos p = 2 ^ k).
    { exists (Z.to_pos (2 ^ k)). rewrite Z2Pos.id; [reflexivity |].
      apply Z.pow_pos_nonneg; lia. }
    destruct Hp as [p Hp].
    assert (P = (m * p)%positive).
    { apply Pos2Z.inj. rewrite Pos2Z.inj_mul, Hm, Hp, HP.
      rewrite <- Z.mul_assoc, <- Z.pow_add_r by lia.
      do 2 f_equal. unfold k. lia. }
    subst P.
    replace (- j) with (d - 53 - k) by (unfold k; lia).
    now apply binary_round_aux_exact.
Qed.

(** The double of a positive integer below [2 ^ 53]. *)
Lemma float_of_Z_positive (z : Z) :
  0 < z < 2 ^ 53 ->
  exists (m : positive) (e : Z),
    Prim2SF (float_of_Z z) = S754_finite false m e /\
    valid_binary (S754_finite false m e) = true /\
    -52 <= e <= 0 /\ 2 ^ 52 <= Z.pos m < 2 ^ 53 /\
    Z.pos m = z * 2 ^ (- e).
Proof.
  intros Hz. unfold float_of_Z.
  destruct z as [| u | u]; try lia. cbn [binary_normalize].
  destruct (binary_round_scaled false u u 0 ltac:(lia) ltac:(cbn; lia) ltac:(lia))
    as (m & Hm & Hd & Hmz & V & E).
  change (- 0) with 0 in E. rewrite E.
  exists m, (Z.pos (digits2_pos u) - 53).
  split; [now apply Prim2SF_SF2Prim |].
  split; [assumption |].
  split; [lia |].
  split; [assumption |].
  rewrite Hm. do 2 f_equal. lia.
Qed.

End Binary64Integers.

(** *** The floor of a rounded quotient *)

Section Binary64Floor.

(** The quotient of [t * 2 ^ n] by an integer [w < 2 ^ n] does not end
    in [n] ones: the fractional part of [t / w] is at most [1 - 1 / w]. *)
Lemma quotient_gap (t w n : Z) :
  0 <= n -> 0 < w < 2 ^ n ->
  (t * 2 ^ n / w) mod 2 ^ n <> 2 ^ n - 1.
Proof.
  intros Hn Hw H.
  assert (HP : 0 < 2 ^ n) by (apply Z.pow_pos_nonneg; lia).
  set (P := 2 ^ n) in *.
  pose proof (Z.div_mod (t * P) w ltac:(lia)) as E1.
  pose proof (Z.mod_pos_bound (t * P) w ltac:(lia)) as B1.
  pose proof (Z.div_mod (t * P / w) P ltac:(lia)) as E2.
  rewrite H in E2.
  set (q := t * P / w) in *. set (u := (t * P) mod w) in *.
  set (k := q / P) in *.
  assert (E : w - u = ((k + 1) * w - t) * P) by nia.
  assert (0 < (k + 1) * w - t) by nia.
  nia.
Qed.

(** A quotient rounded after [s] of its bits are dropped, and then cut
    to its integer part. *)
Lemma round_floor (q q' s n : Z) :
  0 <= q -> 0 <= s <= n ->
  q / 2 ^ s <= q' <= q / 2 ^ s + 1 ->
  (q' = q / 2 ^ s + 1 -> q mod 2 ^ s = 2 ^ s - 1) ->
  q mod 2 ^ n <> 2 ^ n - 1 ->
  q' / 2 ^ (n - s) = q / 2 ^ n.
Proof.
  intros Hq Hs Hq' Hup Hgap.
  assert (HS : 0 < 2 ^ s) by (apply Z.pow_pos_nonneg; lia).
  assert (HN : 0 < 2 ^ (n - s)) by (apply Z.pow_pos_nonneg; lia).
  assert (EP : 2 ^ n = 2 ^ s * 2 ^ (n - s))
    by (rewrite <- Z.pow_add_r by lia; f_equal; lia).
  destruct (Z.eq_dec q' (q / 2 ^ s)) as [-> | Hne].
  - rewrite Z.div_div by lia. now rewrite <- EP.
  - assert (E' : q' = q / 2 ^ s + 1) by lia.
    specialize (Hup E').
    pose proof (Z.div_mod q (2 ^ s) ltac:(lia)) as E1.
    rewrite Hup in E1.
    assert (Eq1 : q' = (q + 1) / 2 ^ s).
    { rewrite E'. apply Z.div_unique with 0; [lia | nia]. }
    rewrite Eq1, Z.div_div, <- EP by lia.
    pose proof (Z.div_mod q (2 ^ n) ltac:(lia)) as E2.
    pose proof (Z.mod_pos_bound q (2 ^ n) ltac:(lia)) as B2.
    symmetry. apply Z.div_unique with (q mod 2 ^ n + 1); lia.
Qed.

Lemma round_nearest_even_bounds (m : Z) (l : location) :
  m <= round_nearest_even m l <= m + 1.
Proof.
  destruct l as [| [| |]]; cbn [round_nearest_even]; try lia.
  destruct (Z.even m); lia.
Qed.

(** The first half of [binary_round_aux] on a mantissa of 53 or 54 bits:
    no bit or one bit is dropped, and the mantissa goes up only if the
    bit dropped is 1. *)
Lemma binary_round_aux_quotient (q e : Z) (l : location) :
  2 ^ 52 <= q < 2 ^ 54 -> -1074 <= e ->
  exists q' s : Z,
    0 <= s <= 1 /\
    2 ^ 52 <= q' <= 2 ^ 53 /\
    q / 2 ^ s <= q' <= q / 2 ^ s + 1 /\
    (q' = q / 2 ^ s + 1 -> q mod 2 ^ s = 2 ^ s - 1) /\
    binary_round_aux prec emax false q e l = finish false q' (e + s).
Proof.
  intros Hq He.
  rewrite binary_round_aux_finish. unfold shr_fexp.
  destruct q as [| p | p]; try (cbn in Hq; lia).
  cbn [Zdigits2]. rewrite fexp_eq.
  change (2 ^ 52) with 4503599627370496 in *.
  change (2 ^ 54) with 18014398509481984 in *.
  destruct (Z.lt_ge_cases (Z.pos p) (2 ^ 53)) as [Hlt | Hge].
  - rewrite (digits2_pos_unique p 53)
      by (change (2 ^ (53 - 1)) with 4503599627370496; lia).
    replace (Z.max (53 + e - 53) (-1074) - e) with 0 by lia.
    cbn [shr fst snd].
    rewrite shr_record_of_loc_m, loc_of_shr_record_of_loc.
    exists (round_nearest_even (Z.pos p) l), 0.
    pose proof (round_nearest_even_bounds (Z.pos p) l) as Hb.
    change (2 ^ 0) with 1. rewrite Z.div_1_r, Z.mod_1_r, Z.add_0_r.
    change (2 ^ 53) with 9007199254740992 in *.
    repeat split; try lia.
  - rewrite (digits2_pos_unique p 54)
      by (change (2 ^ (54 - 1)) with (2 ^ 53);
          change (2 ^ 54) with 18014398509481984; lia).
    replace (Z.max (54 + e - 53) (-1074) - e) with 1 by lia.
    cbn [shr fst snd iter_pos].
    change (2 ^ 53) with 9007199254740992 in *.
    change (2 ^ 1) with 2.
    pose proof (Z.div_mod (Z.pos p) 2 ltac:(lia)) as E.
    pose proof (Z.mod_pos_bound (Z.pos p) 2 ltac:(lia)) as B.
    rewrite Zmod_odd in E, B.
    assert (Hr : exists r s0 : bool,
              shr_record_of_loc (Z.pos p) l
              = {| shr_m := Z.pos p; shr_r := r; shr_s := s0 |})
      by (destruct l as [| [| |]]; cbn; eauto).
    destruct Hr as (r & s0 & ->).
    rewrite shr_1_spec by lia. cbn [shr_m].
    exists (round_nearest_even (Z.pos p / 2)
              (loc_of_shr_record
                 {| shr_m := Z.pos p / 2; shr_r := Z.odd (Z.pos p);
                    shr_s := r || s0 |})), 1.
    pose proof (round_nearest_even_bounds (Z.pos p / 2)
                  (loc_of_shr_record
                     {| shr_m := Z.pos p / 2; shr_r := Z.odd (Z.pos p);
                        shr_s := r || s0 |})) as Hb.
    change (2 ^ 1) with 2. rewrite Zmod_odd.
    split; [lia |].
    split; [destruct (Z.odd (Z.pos p)); lia |].
    split; [assumption |].
    split; [| reflexivity].
    destruct (Z.odd (Z.pos p)); [reflexivity |].
    cbn [loc_of_shr_record].
    destruct (r || s0); cbn [round_nearest_even]; lia.
Qed.

(** The second half: a mantissa of 53 bits is kept, [2 ^ 53] becomes
    [2 ^ 52] at the next exponent. *)
Lemma finish_value (q' e : Z) :
  2 ^ 52 <= q' <= 2 ^ 53 -> -1074 <= e -> e + 1 <= 971 ->
  exists (m : positive) (e' : Z),
    finish false q' e = S754_finite false m e' /\
    e <= e' <= e + 1 /\ Z.pos m * 2 ^ (e' - e) = q' /\
    2 ^ 52 <= Z.pos m < 2 ^ 53.
Proof.
  intros Hq He Hmax.
  unfold finish, shr_fexp.
  destruct q' as [| q | q]; try (cbn in Hq; lia).
  cbn [Zdigits2]. rewrite fexp_eq.
  destruct (Z.eq_dec (Z.pos q) (2 ^ 53)) as [E | E].
  - rewrite (digits2_pos_unique q 54) by (cbn in *; lia).
    replace (Z.max (54 + e - 53) (-1074) - e) with 1 by lia.
    injection E as ->. cbn [shr_record_of_loc shr iter_pos shr_1 shr_m].
    change (emax - prec) with 971.
    destruct (Z.leb_spec (e + 1) 971); [| lia].
    exists 4503599627370496%positive, (e + 1).
    replace (e + 1 - e) with 1 by lia.
    repeat split; try lia; reflexivity.
  - rewrite (digits2_pos_unique q 53) by (cbn in *; lia).
    replace (Z.max (53 + e - 53) (-1074) - e) with 0 by lia.
    cbn [shr_record_of_loc shr shr_m].
    change (emax - prec) with 971.
    destruct (Z.leb_spec e 971); [| lia].
    exists q, e. rewrite Z.sub_diag, Z.mul_1_r.
    change (2 ^ 52) with 4503599627370496 in *.
    change (2 ^ 53) with 9007199254740992 in *.
    repeat split; try lia.
Qed.

End Binary64Floor.

(** *** The shares on doubles and on integers *)

Section Binary64Shares.

(** A double of 53 bits and exponent 0 is the double of its mantissa. *)
Lemma float_of_Z_mantissa (m : positive) :
  2 ^ 52 <= Z.pos m < 2 ^ 53 ->
  float_of_Z (Z.pos m) = SF2Prim (S754_finite false m 0).
Proof.
  intros Hm. unfold float_of_Z. cbn [binary_normalize].
  destruct (binary_round_scaled false m m 0 ltac:(lia) ltac:(cbn; lia) ltac:(lia))
    as (m' & Hm' & _ & _ & _ & E).
  rewrite (digits2_pos_unique m 53) in Hm', E
    by (replace (53 - 1) with 52 by lia; assumption).
  change (- 0) with 0 in E. rewrite E.
  change (53 - 53) with 0 in *. rewrite Z.mul_1_r in Hm'.
  now injection Hm' as ->.
Qed.

(** [Math.floor(t / w)] on integers below [2 ^ 53]: the quotient is
    rounded, but not up to the next integer. *)
Lemma floor_quotient (t w : Z) :
  0 < t < 2 ^ 53 -> 0 < w < 2 ^ 53 ->
  Math_floor (float_of_Z t / float_of_Z w) = float_of_Z (t / w).
Proof.
  intros Ht Hw.
  destruct (float_of_Z_positive t Ht) as (m1 & e1 & E1 & V1 & He1 & Hm1 & Hv1).
  destruct (float_of_Z_positive w Hw) as (m2 & e2 & E2 & V2 & He2 & Hm2 & Hv2).
  unfold Math_floor. rewrite div_spec, E1, E2.
  unfold SF64div, SFdiv. cbn [xorb]. unfold SFdiv_core_binary. cbn [Zdigits2].
  rewrite (digits2_pos_unique m1 53), (digits2_pos_unique m2 53)
    by (replace (53 - 1) with 52 by lia; assumption).
  rewrite fexp_eq.
  replace (Z.min (Z.max (53 + e1 - (53 + e2) - 53) (-1074)) (e1 - e2))
    with (e1 - e2 - 53) by lia.
  replace (e1 - e2 - (e1 - e2 - 53)) with 53 by lia.
  rewrite Z.shiftl_mul_pow2 by lia.
  set (n := 53 + e2 - e1).
  assert (Hn : 1 <= n) by (unfold n; lia).
  assert (HP1 : 0 < 2 ^ (- e1)) by (apply Z.pow_pos_nonneg; lia).
  assert (HP2 : 0 < 2 ^ (- e2)) by (apply Z.pow_pos_nonneg; lia).
  assert (HPn : 0 < 2 ^ n) by (apply Z.pow_pos_nonneg; lia).
  (* the quotient of the mantissas is the one of [t * 2 ^ n] by [w] *)
  assert (Hq : Z.pos m1 * 2 ^ 53 / Z.pos m2 = t * 2 ^ n / w).
  { rewrite Hv1, Hv2, <- Z.mul_assoc, <- Z.pow_add_r by lia.
    replace (- e1 + 53) with (n + - e2) by (unfold n; lia).
    rewrite Z.pow_add_r, Z.mul_assoc by lia.
    apply Z.div_mul_cancel_r; lia. }
  assert (Hqb : 2 ^ 52 <= Z.pos m1 * 2 ^ 53 / Z.pos m2 < 2 ^ 54).
  { change (2 ^ 54) with (2 * 2 ^ 53).
    split.
    - apply Z.div_le_lower_bound; [lia |].
      change (2 ^ 52) with 4503599627370496 in *.
      change (2 ^ 53) with 9007199254740992 in *. nia.
    - apply Z.div_lt_upper_bound; [lia |].
      change (2 ^ 52) with 4503599627370496 in *.
      change (2 ^ 53) with 9007199254740992 in *. nia. }
  assert (Hwn : w < 2 ^ n).
  { apply Z.lt_le_trans with (2 ^ (53 + e2)).
    - apply (Z.mul_lt_mono_pos_r (2 ^ (- e2))); [assumption |].
      rewrite <- Z.pow_add_r by lia.
      replace (53 + e2 + - e2) with 53 by lia. lia.
    - apply Z.pow_le_mono_r; unfold n; lia. }
  assert (Hk : t * 2 ^ n / w / 2 ^ n = t / w).
  { rewrite Z.div_div by lia. apply Z.div_mul_cancel_r; lia. }
  assert (Hkt : t / w <= t).
  { apply Z.div_le_upper_bound; [lia | nia]. }
  pose proof (Z.div_pos t w ltac:(lia) ltac:(lia)) as Hk0.
  destruct (Z.div_eucl (Z.pos m1 * 2 ^ 53) (Z.pos m2)) as [q r] eqn:Hqr.
  assert (Eq : Z.pos m1 * 2 ^ 53 / Z.pos m2 = q)
    by (unfold Z.div; now rewrite Hqr).
  rewrite Eq in Hq, Hqb. clear Eq Hqr.
  destruct (binary_round_aux_quotient q (e1 - e2 - 53)
              (new_location (Z.pos m2) r) Hqb ltac:(lia))
    as (q' & s & Hs & Hq'b & Hq' & Hup & ->).
  destruct (finish_value q' (e1 - e2 - 53 + s) Hq'b ltac:(lia) ltac:(lia))
    as (m & eR & -> & HeR & Hm & Hmb).
  replace (e1 - e2 - 53 + s) with (- (n - s)) in * by (unfold n; lia).
  (* the integer part of the rounded quotient *)
  assert (Hfl : q' / 2 ^ (n - s) = t / w).
  { rewrite <- Hk, <- Hq.
    apply round_floor; try lia; try assumption.
    rewrite Hq. apply quotient_gap; lia. }
  assert (HPs : 0 < 2 ^ (n - s)) by (apply Z.pow_pos_nonneg; lia).
  cbn [SFfloor].
  destruct (Z.leb_spec 0 eR) as [Hpos | Hneg].
  - (* the rounded quotient is an integer of 53 bits *)
    assert (HeR0 : eR = 0).
    { destruct (Z.eq_dec eR 0) as [? | Hne]; [assumption | exfalso].
      assert (2 <= 2 ^ eR)
        by (change 2 with (2 ^ 1) at 1; apply Z.pow_le_mono_r; lia).
      assert (Eq' : q' = Z.pos m * 2 ^ eR * 2 ^ (n - s)).
      { rewrite <- Hm, <- !Z.mul_assoc, <- Z.pow_add_r by lia.
        do 2 f_equal. lia. }
      rewrite Eq', Z.div_mul in Hfl by lia.
      change (2 ^ 52) with 4503599627370496 in *.
      change (2 ^ 53) with 9007199254740992 in *. nia. }
    subst eR.
    replace (0 - - (n - s)) with (n - s) in Hm by lia.
    rewrite <- Hm, Z.div_mul in Hfl by lia.
    rewrite <- Hfl. symmetry. now apply float_of_Z_mantissa.
  - unfold float_of_Z. do 2 f_equal.
    rewrite <- Hfl, <- Hm.
    replace (n - s) with (eR - - (n - s) + - eR) at 2 by lia.
    rewrite Z.pow_add_r by lia.
    rewrite (Z.mul_comm (Z.pos m)).
    symmetry. apply Z.div_mul_cancel_l.
    + apply Z.pow_nonzero; lia.
    + apply Z.pow_nonzero; lia.
Qed.

(** Rounding a non-negative integer below [2 ^ 53] that is given with
    [j] more bits. *)
Lemma binary_normalize_scaled (u j : Z) :
  0 <= u < 2 ^ 53 -> 0 <= j ->
  binary_normalize prec emax (u * 2 ^ j) (- j) false
  = binary_normalize prec emax u 0 false.
Proof.
  intros Hu Hj.
  assert (HP : 0 < 2 ^ j) by (apply Z.pow_pos_nonneg; lia).
  destruct u as [| u | u]; [reflexivity | | lia].
  destruct (Z.pos u * 2 ^ j) as [| P | P] eqn:EP; try lia.
  cbn [binary_normalize].
  destruct (binary_round_scaled false u P j Hj (eq_sym EP) ltac:(lia))
    as (m & Hm & _ & _ & _ & ->).
  destruct (binary_round_scaled false u u 0 ltac:(lia) ltac:(cbn; lia) ltac:(lia))
    as (m' & Hm' & _ & _ & _ & E).
  change (- 0) with 0 in E. rewrite E.
  f_equal. apply Pos2Z.inj. congruence.
Qed.

(** [t % w] on integers below [2 ^ 53] is exact. *)
Lemma remainder_integers (t w : Z) :
  0 <= t < 2 ^ 53 -> 0 < w < 2 ^ 53 ->
  remainder (float_of_Z t) (float_of_Z w) = float_of_Z (Z.rem t w).
Proof.
  intros Ht Hw. rewrite Z.rem_mod_nonneg by lia.
  destruct (float_of_Z_positive w Hw) as (m2 & e2 & E2 & V2 & He2 & Hm2 & Hv2).
  unfold remainder. rewrite E2.
  destruct (Z.eq_dec t 0) as [-> | Ht0].
  - reflexivity.
  - destruct (float_of_Z_positive t ltac:(lia))
      as (m1 & e1 & E1 & V1 & He1 & Hm1 & Hv1).
    rewrite E1. cbn [SFrem]. unfold float_of_Z. f_equal.
    set (e := Z.min e1 e2).
    assert (He : -52 <= e <= 0) by (unfold e; lia).
    assert (HP : 0 < 2 ^ (- e)) by (apply Z.pow_pos_nonneg; lia).
    assert (H1 : Z.pos m1 * 2 ^ (e1 - e) = t * 2 ^ (- e)).
    { rewrite Hv1, <- Z.mul_assoc, <- Z.pow_add_r by (unfold e; lia).
      do 2 f_equal. lia. }
    assert (H2 : Z.pos m2 * 2 ^ (e2 - e) = w * 2 ^ (- e)).
    { rewrite Hv2, <- Z.mul_assoc, <- Z.pow_add_r by (unfold e; lia).
      do 2 f_equal. lia. }
    rewrite H1, H2.
    rewrite Z.rem_mod_nonneg by nia.
    rewrite Z.mul_mod_distr_r by lia.
    pose proof (Z.mod_pos_bound t w ltac:(lia)) as Hb.
    replace e with (- - e) at 2 by lia.
    apply binary_normalize_scaled; lia.
Qed.

(** The sum of two integers is exact when it is below [2 ^ 53]. *)
Lemma add_integers (a b : Z) :
  0 <= a -> 0 <= b -> a + b < 2 ^ 53 ->
  (float_of_Z a + float_of_Z b)%float = float_of_Z (a + b).
Proof.
  intros Ha Hb Hab.
  apply Prim2SF_inj. rewrite add_spec.
  destruct (Z.eq_dec a 0) as [-> | Ha0].
  { destruct (Z.eq_dec b 0) as [-> | Hb0]; [reflexivity |].
    destruct (float_of_Z_positive b ltac:(lia)) as (m & e & E & _).
    cbn [Z.add]. rewrite E. reflexivity. }
  destruct (float_of_Z_positive a ltac:(lia))
    as (ma & ea & Ea & Va & Hea & Hma & Hva).
  destruct (Z.eq_dec b 0) as [-> | Hb0].
  { rewrite Z.add_0_r, Ea. reflexivity. }
  destruct (float_of_Z_positive b ltac:(lia))
    as (mb & eb & Eb & Vb & Heb & Hmb & Hvb).
  rewrite Ea, Eb. unfold SF64add, SFadd. cbn [cond_Zopp].
  rewrite !shl_align_down by lia.
  set (e := Z.min ea eb).
  assert (He : -52 <= e <= 0) by (unfold e; lia).
  assert (H1 : Z.pos ma * 2 ^ (ea - e) = a * 2 ^ (- e)).
  { rewrite Hva, <- Z.mul_assoc, <- Z.pow_add_r by (unfold e; lia).
    do 2 f_equal. lia. }
  assert (H2 : Z.pos mb * 2 ^ (eb - e) = b * 2 ^ (- e)).
  { rewrite Hvb, <- Z.mul_assoc, <- Z.pow_add_r by (unfold e; lia).
    do 2 f_equal. lia. }
  rewrite H1, H2, <- Z.mul_add_distr_r.
  replace e with (- - e) at 2 by lia.
  rewrite binary_normalize_scaled by lia.
  unfold float_of_Z. symmetry. apply Prim2SF_SF2Prim.
  destruct (a + b) as [| u | u] eqn:Eu; try lia.
  cbn [binary_normalize].
  destruct (binary_round_scaled false u u 0 ltac:(lia) ltac:(cbn; lia) ltac:(lia))
    as (m' & _ & _ & _ & V & E).
  change (- 0) with 0 in E. now rewrite E.
Qed.

(** The double of an integer below [2 ^ 53] holds this integer. *)
Lemma integer_of_float_of_Z (z : Z) :
  0 <= z < 2 ^ 53 -> integer_of (float_of_Z z) = Some z.
Proof.
  intros Hz. unfold integer_of.
  destruct (Z.eq_dec z 0) as [-> | Hz0]; [reflexivity |].
  destruct (float_of_Z_positive z ltac:(lia)) as (m & e & E & _ & He & _ & Hv).
  rewrite E.
  assert (HP : 0 < 2 ^ (- e)) by (apply Z.pow_pos_nonneg; lia).
  destruct (Z.leb_spec 0 e) as [H0 | H0].
  - replace e with 0 in * by lia. f_equal. cbn in Hv. lia.
  - rewrite Hv, Z.mod_mul, Z.div_mul by lia. reflexivity.
Qed.

(** [Math.floor(t / w)] is the quotient of the integers. *)
Lemma simsPerWorker_integers (t w : Z) :
  0 <= t < 2 ^ 53 -> 0 < w < 2 ^ 53 ->
  Double.simsPerWorker (float_of_Z t) (float_of_Z w) = float_of_Z (t / w).
Proof.
  intros Ht Hw. unfold Double.simsPerWorker.
  destruct (Z.eq_dec t 0) as [-> | Ht0].
  - destruct (float_of_Z_positive w Hw) as (m & e & E & _).
    unfold Math_floor. rewrite div_spec, E. reflexivity.
  - apply floor_quotient; lia.
Qed.

(** Below [2 ^ 53] the script hands to worker [i] the integer of the
    model. *)
Lemma sims_integers {num : Type} {N : Number num} (t w i : Z) :
  0 <= t < 2 ^ 53 -> 0 < w < 2 ^ 53 ->
  Double.sims (float_of_Z t) (float_of_Z w) i
  = float_of_Z (wd_sims (spawn (num := num) t w i)) /\
  0 <= wd_sims (spawn (num := num) t w i) <= t.
Proof.
  intros Ht Hw. unfold Double.sims, Double.extra. cbn [spawn wd_sims].
  unfold simsPerWorker, extra.
  rewrite simsPerWorker_integers, remainder_integers by assumption.
  rewrite Z.rem_mod_nonneg by lia.
  pose proof (Z.div_pos t w ltac:(lia) ltac:(lia)) as Hq.
  pose proof (Z.mod_pos_bound t w ltac:(lia)) as Hr.
  pose proof (Z.div_mod t w ltac:(lia)) as Hdm.
  assert (Hsum : t / w + t mod w <= t) by nia.
  destruct (i =? 0).
  - split; [apply add_integers; lia | lia].
  - change 0%float with (float_of_Z 0).
    split; [apply add_integers; lia | lia].
Qed.

Lemma spawn_loop_integers {num : Type} {N : Number num} (t w : Z)
    (n : nat) (i : Z) :
  0 <= t < 2 ^ 53 -> 0 < w < 2 ^ 53 ->
  map integer_of (Double.spawn_loop (float_of_Z t) (float_of_Z w) n i)
  = map Some (map wd_sims (spawn_loop (num := num) t w n i)).
Proof.
  intros Ht Hw. revert i.
  induction n as [| n IH]; intros i; [reflexivity |].
  cbn [Double.spawn_loop spawn_loop map]. rewrite IH. f_equal.
  destruct (sims_integers (num := num) t w i Ht Hw) as [-> Hb].
  apply integer_of_float_of_Z. lia.
Qed.

End Binary64Shares.

(** C3: for [0 <= totalTrials < 2 ^ 53] and [1 <= workerCount < 2 ^ 53]
    the doubles that the script hands out as [sims], computed with the
    rounded quotient, [Math.floor], [%] and the rounded sum, hold
    [workerCount] integers, the counts of the model: none is negative,
    they sum to [totalTrials], the first worker gets the quotient plus
    the whole remainder and every other worker the quotient. *)
Theorem trial_counts_partition (totalTrials workerCount : Z) :
  0 <= totalTrials < 2 ^ 53 ->
  1 <= workerCount < 2 ^ 53 ->
  exists counts : list Z,
    map integer_of (sims_binary64 totalTrials workerCount) = map Some counts /\
    counts = trial_counts (num := float) totalTrials workerCount /\
    Z.of_nat (length counts) = workerCount /\
    Forall (fun c => 0 <= c) counts /\
    Zsum counts = totalTrials /\
    lookup counts 0
    = Some (totalTrials / workerCount + totalTrials mod workerCount) /\
    forall i : Z, 1 <= i < workerCount ->
      lookup counts i = Some (totalTrials / workerCount).
Proof.
  intros Ht Hw.
  exists (trial_counts (num := float) totalTrials workerCount).
  split.
  { unfold sims_binary64, trial_counts, workers.
    apply spawn_loop_integers; lia. }
  split; [reflexivity |].
  rewrite trial_counts_eq by lia.
  unfold simsPerWorker, extra.
  rewrite Z.rem_mod_nonneg by lia.
  pose proof (Z.div_pos totalTrials workerCount ltac:(lia) ltac:(lia)) as Hq.
  pose proof (Z.mod_pos_bound totalTrials workerCount ltac:(lia)) as Hr.
  pose proof (Z.div_mod totalTrials workerCount ltac:(lia)) as Hdm.
  split; [cbn [length]; rewrite repeat_length; lia |].
  split.
  { constructor; [lia |].
    apply Forall_forall. intros c Hc. apply repeat_spec in Hc. lia. }
  split.
  { cbn [Zsum fold_right].
    fold (Zsum (repeat (totalTrials / workerCount)
                  (Z.to_nat workerCount - 1))).
    rewrite Zsum_repeat. nia. }
  split; [reflexivity |].
  intros i Hi. unfold lookup.
  destruct (Z.ltb_spec i 0) as [? | _]; [lia |].
  destruct (Z.to_nat i) as [| n] eqn:E; [lia |].
  cbn [nth_error].
  rewrite nth_error_repeat by lia. reflexivity.
Qed.

Lemma trial_counts_partition_witness :
  exists counts : list Z,
    map integer_of (sims_binary64 10 4) = map Some counts /\
    counts = trial_counts (num := float) 10 4 /\
    Z.of_nat (length counts) = 4 /\
    Forall (fun c => 0 <= c) counts /\
    Zsum counts = 10 /\
    lookup counts 0 = Some (10 / 4 + 10 mod 4) /\
    forall i : Z, 1 <= i < 4 -> lookup counts i = Some (10 / 4).
Proof. apply (trial_counts_partition 10 4); lia. Defined.

(** With [10 ^ 17] trials, a total that a double holds, and 3 workers,
    the quotient is rounded to [33333333333333332] and so is the sum with
    the remainder 1: the three shares sum to 4 less than the total. *)
Lemma shares_lose_trials :
  integer_of (float_of_Z (10 ^ 17)) = Some (10 ^ 17) /\
  map integer_of (sims_binary64 (10 ^ 17) 3)
  = map Some [33333333333333332; 33333333333333332; 33333333333333332] /\
  Zsum [33333333333333332; 33333333333333332; 33333333333333332]
  = 10 ^ 17 - 4 /\
  Zsum [33333333333333332; 33333333333333332; 33333333333333332]
  <> 10 ^ 17.
Proof.
  split; [vm_compute; reflexivity |].
  split; [vm_compute; reflexivity |].
  split; [vm_compute; reflexivity | vm_compute; discriminate].
Qed.

(** The shares can also exceed the total: the quotient of
    [1025 * 2 ^ 43 + 1024] by [1025] is rounded up to the next integer. *)
Lemma shares_exceed_trials :
  let total := 1025 * 2 ^ 43 + 1024 in
  integer_of (float_of_Z total) = Some total /\
  map integer_of (sims_binary64 total 1025)
  = map Some ((total / 1025 + 1 + 1024) :: repeat (total / 1025 + 1) 1024).
Proof. split; vm_compute; reflexivity. Qed.

(** ** Aggregator *)

Section Aggregator.

Context {num : Type} {N : Number num}.

Variables totalSims numWorkers : Z.
Variable randoms : nat -> nat -> num.
Variable th : list num.

(** A worker always posts a subtotal. *)
Lemma worker_posts (random : nat -> num) (wd : workerData) :
  exists th' : list num,
    thresholds (wd_maxPresses wd) (wd_prize wd) = Some th' /\
    worker random wd
    = Some (simulate random (wd_sims wd) th' (wd_maxPresses wd) (wd_prize wd)).
Proof.
  unfold worker. rewrite thresholds_eq. eexists. split; reflexivity.
Qed.

Lemma on_message_finished (sub : num) (st : main_state) :
  finished (on_message totalSims numWorkers th sub st) = finished st + 1.
Proof.
  unfold on_message.
  destruct (finished st + 1 =? numWorkers); reflexivity.
Qed.

Lemma on_message_grandTotal (sub : num) (st : main_state) :
  grandTotal (on_message totalSims numWorkers th sub st)
  = (grandTotal st + sub)%num.
Proof.
  unfold on_message.
  destruct (finished st + 1 =? numWorkers); reflexivity.
Qed.

Lemma on_message_printed (sub : num) (st : main_state) :
  printed (on_message totalSims numWorkers th sub st)
  = if finished st + 1 =? numWorkers
    then printed st ++
           [{| report_thresholds := th;
               report_totalSims := totalSims;
               report_numWorkers := numWorkers;
               report_mean := ((grandTotal st + sub) / num_of_Z totalSims)%num |}]
    else printed st.
Proof.
  unfold on_message.
  destruct (finished st + 1 =? numWorkers); reflexivity.
Qed.

(** The messages of existing workers are all handled; each one counts
    once, and the report is printed by the handler that brings the
    counter to [numWorkers], by no other. *)
Lemma deliver_counts (order : list nat) (st : main_state) :
  Forall (fun i => (i < Z.to_nat numWorkers)%nat) order ->
  exists st' : main_state,
    deliver totalSims numWorkers randoms th order st = Some st' /\
    finished st' = finished st + Z.of_nat (length order) /\
    (finished st + Z.of_nat (length order) < numWorkers ->
     printed st' = printed st) /\
    (finished st < numWorkers ->
     finished st + Z.of_nat (length order) = numWorkers ->
     printed st'
     = printed st ++
         [{| report_thresholds := th;
             report_totalSims := totalSims;
             report_numWorkers := numWorkers;
             report_mean := (grandTotal st' / num_of_Z totalSims)%num |}]).
Proof.
  revert st.
  induction order as [| i rest IH]; intros st Hall.
  - exists st. cbn [deliver length]. repeat split; try lia; auto.
  - inversion Hall as [| ? ? Hi Hrest]; subst.
    cbn [deliver].
    destruct (nth_error (workers totalSims numWorkers) i) as [wd |] eqn:Ewd.
    2:{ apply nth_error_None in Ewd. rewrite workers_length in Ewd. lia. }
    destruct (worker_posts (randoms i) wd) as (th' & _ & Ew).
    cbn [bind]. rewrite Ew. cbn [bind].
    set (sub := simulate (randoms i) (wd_sims wd) th' (wd_maxPresses wd)
                  (wd_prize wd)).
    destruct (IH (on_message totalSims numWorkers th sub st) Hrest)
      as (st' & Hrun & Hfin & Hbefore & Hlast).
    rewrite on_message_finished in Hfin, Hbefore, Hlast.
    rewrite on_message_printed in Hbefore, Hlast.
    exists st'. cbn [length].
    split; [assumption |].
    split; [lia |].
    split.
    + intros Hlt.
      destruct (Z.eqb_spec (finished st + 1) numWorkers) as [? | _]; [lia |].
      apply Hbefore. lia.
    + intros Hlt Heq.
      destruct (Z.eqb_spec (finished st + 1) numWorkers) as [He | Hne].
      * assert (rest = []) by (destruct rest; [reflexivity | cbn [length] in Heq; lia]).
        subst rest. cbn [deliver] in Hrun. injection Hrun as <-.
        rewrite on_message_printed, (proj2 (Z.eqb_eq _ _) He).
        now rewrite on_message_grandTotal.
      * apply Hlast; lia.
Qed.

End Aggregator.

Lemma complete_run_length {num : Type} {N : Number num}
    (totalSims numWorkers : Z) (order : list nat) :
  complete_run (num := num) totalSims numWorkers order ->
  length order = Z.to_nat numWorkers.
Proof.
  intros H. apply Permutation_length in H.
  now rewrite length_seq, workers_length in H.
Qed.

Lemma complete_run_workers {num : Type} {N : Number num}
    (totalSims numWorkers : Z) (order : list nat) :
  complete_run (num := num) totalSims numWorkers order ->
  Forall (fun i => (i < Z.to_nat numWorkers)%nat) order.
Proof.
  intros H. apply Forall_forall. intros i Hi.
  apply (Permutation_in _ H) in Hi. apply in_seq in Hi.
  rewrite workers_length in Hi. lia.
Qed.

(** C8: in a complete run of [workerCount >= 1] workers the main thread
    handles exactly [workerCount] messages; after all of them the counter
    is [workerCount] and the report has been printed exactly once; after
    any smaller number of messages nothing has been printed.  So the
    final step runs once, in the handler that first brings the counter to
    [workerCount]. *)
Theorem report_printed_once {num : Type} {N : Number num}
    (totalTrials workerCount : Z) (randoms : nat -> nat -> num)
    (order : list nat) :
  1 <= workerCount ->
  complete_run (num := num) totalTrials workerCount order ->
  Z.of_nat (length order) = workerCount /\
  (exists st : main_state,
     main totalTrials workerCount randoms order = Some st /\
     finished st = workerCount /\
     length (printed st) = 1%nat) /\
  forall n : nat, (n < length order)%nat ->
    exists st : main_state,
      main totalTrials workerCount randoms (firstn n order) = Some st /\
      finished st = Z.of_nat n /\
      printed st = [].
Proof.
  intros Hw Hrun.
  pose proof (complete_run_length _ _ _ Hrun) as Hlen.
  pose proof (complete_run_workers _ _ _ Hrun) as Hall.
  unfold main. rewrite thresholds_eq. cbn [bind].
  set (th := table f_code TOP_PRIZE (Z.to_nat MAX_PRESSES)).
  split; [lia |].
  split.
  - destruct (deliver_counts totalTrials workerCount randoms th order
                main_init Hall) as (st & Hst & Hfin & _ & Hlast).
    cbn [main_init finished printed] in Hfin, Hlast.
    exists st. split; [assumption |].
    split; [lia |]. rewrite Hlast by lia. reflexivity.
  - intros n Hn.
    assert (Hall' : Forall (fun i => (i < Z.to_nat workerCount)%nat)
                      (firstn n order)).
    { apply Forall_forall. intros i Hi.
      apply (proj1 (Forall_forall _ _) Hall).
      rewrite <- (firstn_skipn n order). apply in_or_app. now left. }
    destruct (deliver_counts totalTrials workerCount randoms th
                (firstn n order) main_init Hall')
      as (st & Hst & Hfin & Hbefore & _).
    rewrite length_firstn, Nat.min_l in Hfin, Hbefore by lia.
    cbn [main_init finished printed] in Hfin, Hbefore.
    exists st. split; [assumption |].
    split; [lia |]. apply Hbefore. lia.
Qed.

Lemma report_printed_once_witness :
  Z.of_nat (length [2; 0; 1]%nat) = 3 /\
  (exists st : main_state,
     main 1000 3 (fun _ _ => 0.5%float) [2; 0; 1]%nat = Some st /\
     finished st = 3 /\
     length (printed st) = 1%nat) /\
  forall n : nat, (n < length [2; 0; 1]%nat)%nat ->
    exists st : main_state,
      main 1000 3 (fun _ _ => 0.5%float) (firstn n [2; 0; 1]%nat) = Some st /\
      finished st = Z.of_nat n /\
      printed st = [].
Proof.
  apply report_printed_once; [lia |].
  unfold complete_run. rewrite workers_length.
  cbn [Z.to_nat Pos.to_nat Pos.iter_op Nat.add seq].
  apply perm_trans with (l' := [0; 2; 1]%nat).
  - apply perm_swap.
  - apply perm_skip. apply perm_swap.
Defined.

(** ** A run without trials *)

Section ZeroTrials.

Context {num : Type} {N : Number num}.

Variable numWorkers : Z.
Variable randoms : nat -> nat -> num.
Variable th : list num.

(** With [totalSims = 0] every worker is given no trial. *)
Lemma workers_zero_sims (i : nat) (wd : workerData) :
  1 <= numWorkers ->
  nth_error (workers 0 numWorkers) i = Some wd -> wd_sims wd = 0.
Proof.
  intros Hw Hi.
  assert (Hin : In (wd_sims wd) (trial_counts 0 numWorkers)).
  { unfold trial_counts. apply in_map. eapply nth_error_In. eassumption. }
  rewrite trial_counts_eq in Hin by assumption.
  unfold simsPerWorker, extra in Hin.
  rewrite Z.rem_0_l, Z.div_0_l in Hin by lia.
  destruct Hin as [<- | Hin]; [reflexivity |].
  apply repeat_spec in Hin. assumption.
Qed.

(** The subtotals of workers without trials leave the grand total at
    zero. *)
Lemma deliver_zero_sims (order : list nat) (st st' : main_state) :
  (num_zero + num_zero)%num = num_zero ->
  1 <= numWorkers ->
  grandTotal st = num_zero ->
  deliver 0 numWorkers randoms th order st = Some st' ->
  grandTotal st' = num_zero.
Proof.
  intros Hadd Hw.
  revert st.
  induction order as [| i rest IH]; intros st Hst Hrun; cbn [deliver] in Hrun.
  - now injection Hrun as <-.
  - destruct (nth_error (workers 0 numWorkers) i) as [wd |] eqn:Ewd;
      [| discriminate].
    cbn [bind] in Hrun.
    destruct (worker_posts (randoms i) wd) as (th' & _ & Ew).
    rewrite Ew in Hrun. cbn [bind] in Hrun.
    apply IH in Hrun; [assumption |].
    rewrite on_message_grandTotal, Hst.
    rewrite (workers_zero_sims i wd Hw Ewd). exact Hadd.
Qed.

End ZeroTrials.

(** C4, as the script behaves: with [totalTrials = 0] a complete run of
    [workerCount >= 1] workers raises nothing.  The grand total is 0 and
    the one report that is printed carries the mean [0 / 0], which is
    NaN. *)
Theorem zero_trials_mean_nan (workerCount : Z)
    (randoms : nat -> nat -> float) (order : list nat) :
  1 <= workerCount ->
  complete_run (num := float) 0 workerCount order ->
  exists (st : main_state) (th : list float),
    main 0 workerCount randoms order = Some st /\
    grandTotal st = 0%float /\
    printed st
    = [{| report_thresholds := th;
          report_totalSims := 0;
          report_numWorkers := workerCount;
          report_mean := nan |}].
Proof.
  intros Hw Hrun.
  pose proof (complete_run_length _ _ _ Hrun) as Hlen.
  pose proof (complete_run_workers _ _ _ Hrun) as Hall.
  unfold main. rewrite thresholds_eq. cbn [bind].
  set (th := table f_code TOP_PRIZE (Z.to_nat MAX_PRESSES)).
  destruct (deliver_counts 0 workerCount randoms th order main_init Hall)
    as (st & Hst & Hfin & _ & Hlast).
  cbn [main_init finished printed] in Hfin, Hlast.
  assert (Hzero : grandTotal st = 0%float).
  { exact (deliver_zero_sims workerCount randoms th order main_init st
             eq_refl Hw eq_refl Hst). }
  exists st, th.
  split; [assumption |].
  split; [assumption |].
  rewrite Hlast by lia. rewrite Hzero. reflexivity.
Qed.

Lemma zero_trials_mean_nan_witness :
  exists (st : main_state) (th : list float),
    main 0 2 (fun _ _ => 0.5%float) [1; 0]%nat = Some st /\
    grandTotal st = 0%float /\
    printed st
    = [{| report_thresholds := th;
          report_totalSims := 0;
          report_numWorkers := 2;
          report_mean := nan |}].
Proof.
  apply zero_trials_mean_nan; [lia |].
  unfold complete_run. rewrite workers_length.
  cbn [Z.to_nat Pos.to_nat Pos.iter_op Nat.add seq].
  apply perm_swap.
Defined.

(** C4 fails as stated: a run of two workers with [totalTrials = 0] ends
    with a printed report whose mean is NaN; nothing is raised before the
    result. *)
Lemma zero_trials_reports_nan :
  exists st : main_state,
    main 0 2 (fun _ _ => 0.5%float) [1; 0]%nat = Some st /\
    map (fun rep => is_nan (report_mean rep)) (printed st) = [true].
Proof. eexists. split; [vm_compute; reflexivity | reflexivity]. Qed.

(** * Further properties of the script *)

(** ** ThresholdSolver: the arrays *)

Section SolverArrays.

Context {num : Type} {N : Number num}.

Local Open Scope num_scope.

Lemma table_succ (g : nat -> num) (prize : num) (n : nat) :
  table g prize (S n) = g n * prize :: table g prize n.
Proof.
  unfold table. cbn [seq map].
  f_equal; [do 2 f_equal; lia |].
  rewrite <- seq_shift, map_map.
  apply map_ext. intros i. do 2 f_equal. lia.
Qed.

Lemma table_skipn (g : nat -> num) (prize : num) (n d : nat) :
  skipn d (table g prize (d + n)) = table g prize n.
Proof.
  induction d as [| d IH]; [reflexivity |].
  cbn [Nat.add]. rewrite table_succ. exact IH.
Qed.

End SolverArrays.

(** X1: for every [maxPresses], also below 1, [computeF] reads no
    entry outside its array and returns [max(maxPresses, 1) + 1] numbers:
    0, then 0.5, and every later entry [j <= maxPresses] is
    [0.5 + 0.5 * x * x] for the entry [x] before it. *)
Theorem computeF_recurrence_array {num : Type} {N : Number num}
    (maxPresses : Z) :
  exists f : list num,
    computeF maxPresses = Some f /\
    Z.of_nat (length f) = Z.max maxPresses 1 + 1 /\
    lookup f 0 = Some num_zero /\
    lookup f 1 = Some num_half /\
    forall j : Z, 2 <= j <= maxPresses ->
      exists x : num,
        lookup f (j - 1) = Some x /\
        lookup f j = Some (num_half + num_half * (x * x))%num.
Proof.
  rewrite computeF_eq. eexists. split; [reflexivity |].
  rewrite length_map, length_seq.
  split; [lia |].
  split; [reflexivity |].
  split; [reflexivity |].
  intros j Hj. exists (f_code (Z.to_nat (j - 1))).
  split.
  - replace (j - 1) with (Z.of_nat (Z.to_nat (j - 1))) at 1 by lia.
    apply lookup_map_seq. lia.
  - replace j with (Z.of_nat (Z.to_nat j)) at 1 by lia.
    rewrite lookup_map_seq by lia.
    replace (Z.to_nat j) with (S (S (Z.to_nat (j - 2)))) by lia.
    replace (Z.to_nat (j - 1)) with (S (Z.to_nat (j - 2))) by lia.
    reflexivity.
Qed.

(** X2: the threshold for [k] presses remaining does not depend on
    [maxPresses]: for [0 <= fewer <= more] the table of [fewer] presses
    is the table of [more] presses without its first [more - fewer]
    entries. *)
Theorem thresholds_fewer_presses_suffix {num : Type} {N : Number num}
    (fewer more : Z) (prize : num) :
  0 <= fewer <= more ->
  exists t t' : list num,
    thresholds fewer prize = Some t /\
    thresholds more prize = Some t' /\
    t = skipn (Z.to_nat (more - fewer)) t'.
Proof.
  intros H. rewrite !thresholds_eq.
  do 2 eexists. split; [reflexivity |]. split; [reflexivity |].
  replace (Z.to_nat more)
    with (Z.to_nat (more - fewer) + Z.to_nat fewer)%nat by lia.
  symmetry. apply table_skipn.
Qed.

Lemma thresholds_fewer_presses_suffix_witness :
  exists t t' : list float,
    thresholds 3 TOP_PRIZE = Some t /\
    thresholds 10 TOP_PRIZE = Some t' /\
    t = skipn (Z.to_nat (10 - 3)) t'.
Proof. apply thresholds_fewer_presses_suffix. lia. Defined.

(** ** Binary64: the strict order, scaling *)

Section Binary64Order.

Lemma SFltb_ordn (x y : spec_float) :
  valid_binary x = true -> valid_binary y = true ->
  nonneg x = true -> nonneg y = true ->
  SFltb x y = (ordn x <? ordn y).
Proof.
  intros Vx Vy Nx Ny.
  destruct x as [[|] | [|] | | [|] m1 e1]; try discriminate;
    destruct y as [[|] | [|] | | [|] m2 e2]; try discriminate;
    try reflexivity;
    try (pose proof (ordn_finite_range _ _ _ Vx));
    try (pose proof (ordn_finite_range _ _ _ Vy));
    unfold SFltb, SFcompare;
    try (symmetry; apply Z.ltb_lt; cbn [ordn] in *; unfold top in *; lia);
    try (symmetry; apply Z.ltb_ge; cbn [ordn] in *; unfold top in *; lia).
  destruct (valid_finite_range _ _ _ Vx) as (He1 & Hm1 & Hn1 & _).
  destruct (valid_finite_range _ _ _ Vy) as (He2 & Hm2 & Hn2 & _).
  cbn [ordn].
  change (2 ^ 52) with 4503599627370496 in *.
  change (2 ^ 53) with 9007199254740992 in *.
  destruct (Z.compare_spec e1 e2) as [Heq | Hlt | Hgt].
  - subst e2. change (Pos.compare_cont Eq m1 m2) with (m1 ?= m2)%positive.
    destruct (Pos.compare_spec m1 m2) as [Hm | Hm | Hm]; symmetry.
    + apply Z.ltb_ge. subst. lia.
    + apply Z.ltb_lt. lia.
    + apply Z.ltb_ge. lia.
  - symmetry. apply Z.ltb_lt. lia.
  - symmetry. apply Z.ltb_ge. lia.
Qed.

Local Open Scope float_scope.

Lemma ltb_ordn (x y : float) :
  nonneg (Prim2SF x) = true -> nonneg (Prim2SF y) = true ->
  (x <? y) = (ordn (Prim2SF x) <? ordn (Prim2SF y))%Z.
Proof.
  intros Nx Ny. rewrite ltb_spec.
  apply SFltb_ordn; auto using Prim2SF_valid.
Qed.

Lemma ltb_leb (x y : float) : (x <? y) = true -> (x <=? y) = true.
Proof.
  rewrite ltb_spec, leb_spec. unfold SFltb, SFleb.
  destruct (SFcompare (Prim2SF x) (Prim2SF y)) as [[| |] |];
    (discriminate || reflexivity).
Qed.

(** A double of [[0, 1)] is a zero or a positive number up to the
    double just below 1. *)
Lemma unit_interval_cases (u : float) :
  unit_interval u ->
  (exists s : bool, Prim2SF u = S754_zero s) \/
  (pos_finite u /\ (u <=? 0x1.fffffffffffffp-1) = true).
Proof.
  intros [H0 H1].
  pose proof (Prim2SF_valid u) as V.
  rewrite leb_spec in H0. rewrite ltb_spec in H1.
  change (Prim2SF 0) with (S754_zero false) in H0.
  destruct (Prim2SF u) as [s | s | | s m e] eqn:Eu.
  - left. eauto.
  - destruct s; discriminate.
  - discriminate.
  - destruct s; [discriminate |].
    right. split; [unfold pos_finite; eauto |].
    rewrite leb_ordn by (rewrite ?Eu; reflexivity).
    rewrite SFltb_ordn in H1 by (assumption || reflexivity).
    apply Z.ltb_lt in H1. apply Z.leb_le. rewrite Eu.
    change (ordn (Prim2SF 1)) with (1023 * 2 ^ 52)%Z in H1.
    change (ordn (Prim2SF 0x1.fffffffffffffp-1)) with (1023 * 2 ^ 52 - 1)%Z.
    lia.
Qed.

(** The product of a zero and a positive finite number is that zero. *)
Lemma zero_mul_pos_finite (u c : float) (s : bool) :
  Prim2SF u = S754_zero s -> pos_finite c ->
  Prim2SF (u * c) = S754_zero s.
Proof.
  intros Eu (m & e & Ec). rewrite mul_spec, Eu, Ec.
  now destruct s.
Qed.

(** Scaling a number of [[0, 1]] by a positive finite [c] gives a number
    of [[0, c]]. *)
Lemma scale_bounds (x c : float) :
  (0 <=? x) = true -> (x <=? 1) = true -> pos_finite c ->
  (0 <=? x * c) = true /\ (x * c <=? c) = true.
Proof.
  intros H0 H1 Hc.
  pose proof H0 as H0'. rewrite leb_spec in H0'.
  change (Prim2SF 0) with (S754_zero false) in H0'.
  destruct (Prim2SF x) as [s | s | | s m e] eqn:Ex.
  - pose proof (zero_mul_pos_finite x c s Ex Hc) as Ez.
    destruct Hc as (mc & ec & Ec).
    rewrite !leb_spec, Ez, Ec.
    change (Prim2SF 0) with (S754_zero false).
    now destruct s.
  - destruct s; [discriminate |].
    rewrite leb_spec, Ex in H1. discriminate.
  - discriminate.
  - destruct s; [discriminate |].
    assert (Hx : pos_finite x) by (unfold pos_finite; eauto).
    assert (P1 : pos_finite 1) by pos_finite_const.
    destruct (mul_mono_r x 1 c Hx P1 Hc H1) as (N1 & _ & L).
    rewrite (mul_comm 1 c), float_mul_one_r in L.
    split; [now apply nonneg_leb_zero | exact L].
Qed.

(** A draw with the default prize is below the prize. *)
Lemma default_draw_below (u : float) :
  unit_interval u -> (u * TOP_PRIZE <? TOP_PRIZE) = true.
Proof.
  intros Hu.
  assert (HP : pos_finite TOP_PRIZE) by pos_finite_const.
  destruct (unit_interval_cases u Hu) as [[s Eu] | [Pu Hle]].
  - pose proof (zero_mul_pos_finite u TOP_PRIZE s Eu HP) as Ez.
    rewrite ltb_spec, Ez. now destruct s.
  - assert (P1 : pos_finite 0x1.fffffffffffffp-1) by pos_finite_const.
    destruct (mul_mono_r u 0x1.fffffffffffffp-1 TOP_PRIZE Pu P1 HP Hle)
      as (N1 & N2 & L).
    rewrite leb_ordn in L by assumption. apply Z.leb_le in L.
    rewrite ltb_ordn by (assumption || reflexivity).
    apply Z.ltb_lt.
    assert (E : (ordn (Prim2SF (0x1.fffffffffffffp-1 * TOP_PRIZE))
                 < ordn (Prim2SF TOP_PRIZE))%Z)
      by (vm_compute; reflexivity).
    lia.
Qed.

End Binary64Order.

(** In exact arithmetic the values of the recurrence stay below 1. *)
Lemma f_code_below_one (j : nat) :
  (0 <= this (f_code (num := Qc) j) < 1)%Q.
Proof.
  induction j as [| j IH].
  - cbn. split; [discriminate | reflexivity].
  - destruct j as [| j].
    + cbn. split; [discriminate | reflexivity].
    + assert (Hb : (this (f_code (num := Qc) (S (S j)))
                    == (1 # 2) + (1 # 2)
                       * (this (f_code (num := Qc) (S j))
                          * this (f_code (num := Qc) (S j))))%Q).
      { change (f_code (S (S j)))
          with (num_half + num_half * (f_code (S j) * f_code (S j)))%num.
        now Qc_values. }
      set (a := f_code (S j)) in *.
      set (b := f_code (S (S j))) in *.
      rewrite Hb. destruct IH as [IH0 IH1]. split; nra.
Qed.

(** X3: every threshold lies between 0 and the prize.  In binary64, for
    every [maxPresses] and every finite [prize > 0], each entry [x] of
    the table satisfies [0 <= x] and [x <= prize]; in exact arithmetic
    each entry is even below the prize. *)
Theorem thresholds_within_prize (maxPresses : Z) :
  (forall prize : float,
     (0 <? prize)%float = true -> is_infinity prize = false ->
     exists t : list float,
       thresholds maxPresses prize = Some t /\
       Forall (fun x => (0 <=? x)%float = true /\ (x <=? prize)%float = true)
         t) /\
  (forall prize : Qc,
     (num_zero < prize)%Qc ->
     exists t : list Qc,
       thresholds maxPresses prize = Some t /\
       Forall (fun x => (num_zero <= x)%Qc /\ (x < prize)%Qc) t).
Proof.
  split.
  - intros prize Hpos Hfin.
    pose proof (positive_pos_finite prize Hpos Hfin) as Hc.
    rewrite thresholds_eq. eexists. split; [reflexivity |].
    unfold table. apply Forall_map, Forall_forall. intros i _.
    apply scale_bounds; [| | assumption].
    + apply nonneg_leb_zero, f_code_float_nonneg.
    + destruct (Z.to_nat maxPresses - 1 - i)%nat as [| k]; [reflexivity |].
      apply f_code_float_range.
  - intros prize Hpos.
    rewrite thresholds_eq. eexists. split; [reflexivity |].
    unfold table. apply Forall_map, Forall_forall. intros i _.
    destruct (f_code_below_one (Z.to_nat maxPresses - 1 - i)) as [H0 H1].
    set (a := f_code (Z.to_nat maxPresses - 1 - i)) in *.
    Qc_values. split; nra.
Qed.

Lemma thresholds_within_prize_witness :
  (exists t : list float,
     thresholds 10 (TOP_PRIZE (num := float)) = Some t /\
     Forall (fun x => (0 <=? x)%float = true /\ (x <=? TOP_PRIZE)%float = true)
       t) /\
  (exists t : list Qc,
     thresholds 10 (TOP_PRIZE (num := Qc)) = Some t /\
     Forall (fun x => (num_zero <= x)%Qc /\ (x < TOP_PRIZE)%Qc) t).
Proof.
  split.
  - apply (proj1 (thresholds_within_prize 10)); reflexivity.
  - apply (proj2 (thresholds_within_prize 10)). reflexivity.
Defined.

(** ** SimulationWorker: the draws *)

(** X4: a draw [Math.random() * prize] in binary64.  For a value [u] of
    [Math.random()], a double of [[0, 1)]: with every finite
    [prize > 0] the draw lies in [[0, prize]]; with the default prize
    100000 it is below the prize; with another prize it can be the
    prize itself (0.75 times the least positive double is that
    double). *)
Theorem draw_in_range (u : float) :
  unit_interval u ->
  (forall prize : float,
     (0 <? prize)%float = true -> is_infinity prize = false ->
     (0 <=? u * prize)%float = true /\ (u * prize <=? prize)%float = true) /\
  (u * TOP_PRIZE <? TOP_PRIZE)%float = true /\
  exists (v prize : float),
    unit_interval v /\
    (0 <? prize)%float = true /\ is_infinity prize = false /\
    (v * prize <? prize)%float = false.
Proof.
  intros Hu. split; [| split].
  - intros prize Hpos Hfin.
    apply scale_bounds.
    + apply Hu.
    + apply ltb_leb, Hu.
    + now apply positive_pos_finite.
  - now apply default_draw_below.
  - exists 0.75%float, 0x1p-1074%float.
    repeat split; reflexivity.
Qed.

Lemma draw_in_range_witness :
  (forall prize : float,
     (0 <? prize)%float = true -> is_infinity prize = false ->
     (0 <=? 0.25 * prize)%float = true /\
     (0.25 * prize <=? prize)%float = true) /\
  (0.25 * TOP_PRIZE <? TOP_PRIZE)%float = true /\
  exists (v prize : float),
    unit_interval v /\
    (0 <? prize)%float = true /\ is_infinity prize = false /\
    (v * prize <? prize)%float = false.
Proof. apply (draw_in_range 0.25%float). split; reflexivity. Defined.

Section Draws.

Context {num : Type} {N : Number num}.

Variable random : nat -> num.
Variable th : list num.
Variable maxPresses : Z.
Variable prize : num.

(** A trial makes at least one call of [Math.random()] and at most
    [maxPresses]. *)
Lemma trial_calls (winnings : num) (r : nat) :
  1 <= maxPresses ->
  (r < snd (trial random th maxPresses prize winnings r))%nat /\
  Z.of_nat (snd (trial random th maxPresses prize winnings r))
  <= Z.of_nat r + maxPresses.
Proof.
  intros Hm. unfold trial.
  destruct (press_loop_stops random th maxPresses prize
              (Z.to_nat maxPresses) 1 r) as (q & Hq & _ & _ & Hrun);
    try lia.
  rewrite Hrun. cbn [snd]. lia.
Qed.

Lemma sims_loop_calls (n : nat) (winnings : num) (r : nat) :
  1 <= maxPresses ->
  Z.of_nat r + Z.of_nat n
  <= Z.of_nat (snd (sims_loop random n th maxPresses prize winnings r))
  <= Z.of_nat r + Z.of_nat n * maxPresses.
Proof.
  intros Hm. revert winnings r.
  induction n as [| n IH]; intros winnings r; cbn [sims_loop].
  - cbn [snd]. lia.
  - pose proof (trial_calls winnings r Hm) as Ht.
    destruct (trial random th maxPresses prize winnings r) as [w' r'].
    cbn [snd] in Ht. specialize (IH w' r').
    rewrite Nat2Z.inj_succ. unfold Z.succ.
    rewrite Z.mul_add_distr_r. lia.
Qed.

(** Without a press no draw is made. *)
Lemma trial_no_press (winnings : num) (r : nat) :
  maxPresses < 1 ->
  trial random th maxPresses prize winnings r = (winnings, r).
Proof.
  intros Hm. unfold trial.
  replace (Z.to_nat maxPresses) with 0%nat by lia. reflexivity.
Qed.

Lemma sims_loop_no_press (n : nat) (winnings : num) (r : nat) :
  maxPresses < 1 ->
  sims_loop random n th maxPresses prize winnings r = (winnings, r).
Proof.
  intros Hm. induction n as [| n IH]; [reflexivity |].
  cbn [sims_loop]. rewrite trial_no_press by assumption. exact IH.
Qed.

(** The loop of a trial reads the table below index [maxPresses - 1]
    only: at the last press the comparison does not decide. *)
Lemma press_loop_agree (th' : list num) (n : nat) (press : Z)
    (winnings : num) (r : nat) :
  agree_below (maxPresses - 1) th th' ->
  1 <= press ->
  Z.of_nat n <= maxPresses - press + 1 ->
  press_loop random n press th maxPresses prize winnings r
  = press_loop random n press th' maxPresses prize winnings r.
Proof.
  intros Hth. revert press r.
  induction n as [| n IH]; intros press r Hp Hn; [reflexivity |].
  cbn [press_loop].
  destruct (Z.eqb_spec press maxPresses) as [He | He].
  - rewrite !orb_true_r. reflexivity.
  - rewrite (Hth (press - 1)) by lia.
    rewrite IH by lia. reflexivity.
Qed.

Lemma sims_loop_agree (th' : list num) (n : nat) (winnings : num) (r : nat) :
  agree_below (maxPresses - 1) th th' ->
  sims_loop random n th maxPresses prize winnings r
  = sims_loop random n th' maxPresses prize winnings r.
Proof.
  intros Hth. revert winnings r.
  induction n as [| n IH]; intros winnings r; [reflexivity |].
  cbn [sims_loop].
  assert (E : trial random th maxPresses prize winnings r
              = trial random th' maxPresses prize winnings r).
  { unfold trial. destruct (Z.le_gt_cases 1 maxPresses) as [Hm | Hm].
    - apply press_loop_agree; (assumption || lia).
    - replace (Z.to_nat maxPresses) with 0%nat by lia. reflexivity. }
  rewrite E.
  destruct (trial random th' maxPresses prize winnings r) as [w' r'].
  apply IH.
Qed.

End Draws.

(** X5: the number of calls of [Math.random()].  For [sims >= 0] and
    [maxPresses >= 1], [simulate] makes at least [sims] and at most
    [sims * maxPresses] calls: every trial draws at least once and at
    most [maxPresses] times. *)
Theorem simulate_draw_count {num : Type} {N : Number num}
    (random : nat -> num) (sims : Z) (th : list num) (maxPresses : Z)
    (prize winnings : num) (r : nat) :
  0 <= sims -> 1 <= maxPresses ->
  let calls :=
    snd (sims_loop random (Z.to_nat sims) th maxPresses prize winnings r) in
  Z.of_nat r + sims <= Z.of_nat calls <= Z.of_nat r + sims * maxPresses.
Proof.
  intros Hs Hm calls. subst calls.
  pose proof (sims_loop_calls random th maxPresses prize (Z.to_nat sims)
                winnings r Hm) as H.
  rewrite Z2Nat.id in H by assumption. exact H.
Qed.

Lemma simulate_draw_count_witness :
  let calls :=
    snd (sims_loop (fun _ => 0.5%float) (Z.to_nat 3) [62500%float; 0%float] 2
           100000%float 0%float 0) in
  Z.of_nat 0 + 3 <= Z.of_nat calls <= Z.of_nat 0 + 3 * 2.
Proof. apply simulate_draw_count; lia. Defined.

(** X6: [simulate] never depends on the last threshold, nor on entries
    past it: two tables with the same entries below index
    [maxPresses - 1] give the same subtotal, since at press
    [maxPresses] the draw is accepted whatever the comparison says. *)
Theorem simulate_ignores_last_threshold {num : Type} {N : Number num}
    (random : nat -> num) (sims : Z) (th th' : list num) (maxPresses : Z)
    (prize : num) :
  agree_below (maxPresses - 1) th th' ->
  simulate random sims th maxPresses prize
  = simulate random sims th' maxPresses prize.
Proof.
  intros H. unfold simulate.
  now rewrite (sims_loop_agree random th maxPresses prize th').
Qed.

Lemma simulate_ignores_last_threshold_witness :
  simulate (fun _ => 0.5%float) 3 [62500%float; 0%float] 2 100000%float
  = simulate (fun _ => 0.5%float) 3 [62500%float; 7%float; 9%float] 2
      100000%float.
Proof.
  apply simulate_ignores_last_threshold.
  intros i Hi. replace i with 0 by lia. reflexivity.
Defined.

(** X7: with [sims <= 0] or [maxPresses < 1], [simulate] makes no call
    of [Math.random()] and returns the initial 0: nothing is checked,
    the loops just do not run. *)
Theorem simulate_without_trials_or_presses {num : Type} {N : Number num}
    (random : nat -> num) (sims : Z) (th : list num) (maxPresses : Z)
    (prize winnings : num) (r : nat) :
  sims <= 0 \/ maxPresses < 1 ->
  sims_loop random (Z.to_nat sims) th maxPresses prize winnings r
  = (winnings, r) /\
  simulate random sims th maxPresses prize = num_zero.
Proof.
  intros H.
  assert (E : forall (w : num) (k : nat),
            sims_loop random (Z.to_nat sims) th maxPresses prize w k = (w, k)).
  { intros w k. destruct H as [H | H].
    - replace (Z.to_nat sims) with 0%nat by lia. reflexivity.
    - now apply sims_loop_no_press. }
  split; [apply E |].
  unfold simulate. now rewrite E.
Qed.

Lemma simulate_without_trials_or_presses_witness :
  sims_loop (fun _ => 0.5%float) (Z.to_nat 1000) [62500%float; 0%float] 0
    100000%float 0%float 0
  = (0%float, 0%nat) /\
  simulate (fun _ => 0.5%float) 1000 [62500%float; 0%float] 0 100000%float
  = num_zero.
Proof. apply simulate_without_trials_or_presses. right. lia. Defined.

(** ** The main thread: shares, report, mean *)

(** X8: with fewer trials than workers the first worker runs them all:
    for [0 <= totalSims < numWorkers] the quotient is 0, the remainder
    is [totalSims], and every worker but the first is given 0 trials. *)
Theorem fewer_trials_than_workers {num : Type} {N : Number num}
    (totalSims numWorkers : Z) :
  0 <= totalSims < numWorkers ->
  trial_counts (num := num) totalSims numWorkers
  = totalSims :: repeat 0 (Z.to_nat numWorkers - 1).
Proof.
  intros H. rewrite trial_counts_eq by lia.
  unfold simsPerWorker, extra.
  rewrite Z.div_small, Z.rem_small by lia. reflexivity.
Qed.

Lemma fewer_trials_than_workers_witness :
  trial_counts (num := float) 3 8 = 3 :: repeat 0 (Z.to_nat 8 - 1).
Proof. apply fewer_trials_than_workers. lia. Defined.

Section Workers.

Context {num : Type} {N : Number num}.

Variables totalSims numWorkers : Z.

(** The worker created at iteration [i0 + k]. *)
Lemma spawn_loop_nth (n : nat) (i0 : Z) (k : nat) (wd : workerData) :
  nth_error (spawn_loop totalSims numWorkers n i0) k = Some wd ->
  wd = spawn totalSims numWorkers (i0 + Z.of_nat k).
Proof.
  revert i0 k.
  induction n as [| n IH]; intros i0 k H; cbn [spawn_loop] in H.
  - destruct k; discriminate.
  - destruct k as [| k]; cbn [nth_error] in H.
    + injection H as <-. f_equal. lia.
    + apply IH in H. rewrite H. f_equal. lia.
Qed.

(** Every worker is given the defaults of the script and its entry of
    [trial_counts]. *)
Lemma workers_nth (i : nat) (wd : workerData) :
  nth_error (workers totalSims numWorkers) i = Some wd ->
  wd_sims wd = nth i (trial_counts (num := num) totalSims numWorkers) 0 /\
  wd_maxPresses wd = MAX_PRESSES /\
  wd_prize wd = TOP_PRIZE.
Proof.
  intros H. split.
  - unfold trial_counts. symmetry. apply nth_error_nth.
    rewrite nth_error_map, H. reflexivity.
  - apply spawn_loop_nth in H. subst wd. split; reflexivity.
Qed.

(** What worker [i] posts. *)
Lemma worker_subtotal (randoms : nat -> nat -> num) (i : nat)
    (wd : workerData) :
  nth_error (workers totalSims numWorkers) i = Some wd ->
  worker (randoms i) wd
  = Some (subtotal_of totalSims numWorkers randoms
            (table f_code TOP_PRIZE (Z.to_nat MAX_PRESSES)) i).
Proof.
  intros H. destruct (workers_nth i wd H) as (Hs & Hm & Hp).
  unfold worker, subtotal_of. rewrite thresholds_eq. cbn [bind].
  now rewrite Hs, Hm, Hp.
Qed.

(** The grand total is the sum of the subtotals in the order of their
    arrival. *)
Lemma deliver_grandTotal (randoms : nat -> nat -> num) (th : list num)
    (order : list nat) (st st' : main_state) :
  deliver totalSims numWorkers randoms th order st = Some st' ->
  grandTotal st'
  = fold_left num_add
      (map (subtotal_of totalSims numWorkers randoms
              (table f_code TOP_PRIZE (Z.to_nat MAX_PRESSES))) order)
      (grandTotal st).
Proof.
  revert st.
  induction order as [| i rest IH]; intros st H; cbn [deliver] in H.
  - now injection H as <-.
  - destruct (nth_error (workers totalSims numWorkers) i) as [wd |] eqn:Ewd;
      [| discriminate].
    cbn [bind] in H. rewrite (worker_subtotal randoms i wd Ewd) in H.
    cbn [bind] in H. apply IH in H.
    rewrite on_message_grandTotal in H. exact H.
Qed.

End Workers.

(** X9: with [numWorkers <= 0] the loop of the main thread creates no
    worker, so no message arrives and the report is never printed: the
    state of the main thread stays the initial one. *)
Theorem no_workers_no_report {num : Type} {N : Number num}
    (totalSims numWorkers : Z) (randoms : nat -> nat -> num) :
  numWorkers <= 0 ->
  workers (num := num) totalSims numWorkers = [] /\
  forall (order : list nat) (st : main_state),
    main totalSims numWorkers randoms order = Some st ->
    order = [] /\ st = main_init.
Proof.
  intros Hw.
  assert (E : workers (num := num) totalSims numWorkers = []).
  { unfold workers. replace (Z.to_nat numWorkers) with 0%nat by lia.
    reflexivity. }
  split; [exact E |].
  intros order st. unfold main. rewrite thresholds_eq. cbn [bind].
  destruct order as [| i rest]; cbn [deliver].
  - intros H. injection H as <-. split; reflexivity.
  - rewrite E. destruct i; discriminate.
Qed.

Lemma no_workers_no_report_witness :
  workers (num := float) 1000 0 = [] /\
  forall (order : list nat) (st : main_state),
    main 1000 0 (fun _ _ => 0.5%float) order = Some st ->
    order = [] /\ st = main_init.
Proof. apply no_workers_no_report. lia. Defined.

(** The report of a complete run. *)
Lemma main_report {num : Type} {N : Number num}
    (totalSims numWorkers : Z) (randoms : nat -> nat -> num)
    (order : list nat) :
  1 <= numWorkers ->
  complete_run (num := num) totalSims numWorkers order ->
  exists (th : list num) (st : main_state),
    thresholds MAX_PRESSES TOP_PRIZE = Some th /\
    main totalSims numWorkers randoms order = Some st /\
    grandTotal st
    = fold_left num_add
        (map (subtotal_of totalSims numWorkers randoms th) order) num_zero /\
    printed st
    = [{| report_thresholds := th;
          report_totalSims := totalSims;
          report_numWorkers := numWorkers;
          report_mean := (grandTotal st / num_of_Z totalSims)%num |}].
Proof.
  intros Hw Hrun.
  pose proof (complete_run_length _ _ _ Hrun) as Hlen.
  pose proof (complete_run_workers _ _ _ Hrun) as Hall.
  set (th := table f_code (TOP_PRIZE (num := num)) (Z.to_nat MAX_PRESSES)).
  destruct (deliver_counts totalSims numWorkers randoms th order main_init
              Hall) as (st & Hst & _ & _ & Hlast).
  exists th, st.
  split; [apply thresholds_eq |].
  split; [unfold main; rewrite thresholds_eq; exact Hst |].
  split.
  - apply (deliver_grandTotal totalSims numWorkers randoms th order main_init).
    exact Hst.
  - cbn [main_init finished printed] in Hlast. rewrite Hlast by lia.
    reflexivity.
Qed.



(** *** Binary64: quotients *)

Section Binary64Quotient.

Lemma shr_1_nonneg (mrs : shr_record) :
  0 <= shr_m mrs -> 0 <= shr_m (shr_1 mrs).
Proof.
  destruct mrs as [m r s]. cbn [shr_m].
  destruct m as [| [p | p |] | p]; cbn [shr_1 shr_m]; lia.
Qed.

Lemma shr_nonneg (mrs : shr_record) (e n : Z) :
  0 <= shr_m mrs -> 0 <= shr_m (fst (shr mrs e n)).
Proof.
  intros H. destruct n as [| p | p]; cbn [shr fst]; try assumption.
  rewrite iter_pos_nat.
  induction (Pos.to_nat p) as [| k IH]; [assumption |].
  cbn [Nat.iter nat_rect]. now apply shr_1_nonneg.
Qed.

Lemma round_nearest_even_nonneg (m : Z) (l : location) :
  0 <= m -> 0 <= round_nearest_even m l.
Proof.
  intros H. destruct l as [| [| |]]; cbn [round_nearest_even]; try lia.
  destruct (Z.even m); lia.
Qed.

(** Rounding a number that is not negative gives a float that is not
    negative. *)
Lemma binary_round_aux_nonneg (mz ez : Z) (lz : location) :
  0 <= mz -> nonneg (binary_round_aux prec emax false mz ez lz) = true.
Proof.
  intros H. rewrite binary_round_aux_finish.
  set (q := round_nearest_even _ _).
  assert (Hq : 0 <= q).
  { apply round_nearest_even_nonneg. unfold shr_fexp.
    apply shr_nonneg. now rewrite shr_record_of_loc_m. }
  clearbody q. unfold finish, shr_fexp.
  pose proof (shr_nonneg (shr_record_of_loc q loc_Exact)
                (snd (shr_fexp prec emax mz ez lz))
                (fexp prec emax (Zdigits2 q + snd (shr_fexp prec emax mz ez lz))
                 - snd (shr_fexp prec emax mz ez lz))) as Hs.
  rewrite shr_record_of_loc_m in Hs. specialize (Hs Hq).
  destruct (shr (shr_record_of_loc q loc_Exact) _ _) as [mrs e'].
  cbn [fst] in Hs.
  destruct (shr_m mrs) as [| m | m]; [reflexivity | | lia].
  destruct (e' <=? emax - prec); reflexivity.
Qed.

Lemma SFdiv_nonneg (x : spec_float) (my : positive) (ey : Z) :
  nonneg x = true ->
  nonneg (SF64div x (S754_finite false my ey)) = true.
Proof.
  intros Nx. unfold SF64div, SFdiv.
  destruct x as [[|] | [|] | | [|] mx ex]; try discriminate; try reflexivity.
  cbn [xorb]. unfold SFdiv_core_binary.
  set (m' := match _ with 0 => Z.pos mx | Z.pos _ => _ | Z.neg _ => 0 end).
  assert (Hm' : 0 <= m').
  { subst m'.
    destruct (ex - ey - _) as [| s | s]; try lia.
    apply Z.shiftl_nonneg. lia. }
  clearbody m'.
  pose proof (Z.div_pos m' (Z.pos my) Hm' ltac:(lia)) as Hq.
  unfold Z.div in Hq.
  destruct (Z.div_eucl m' (Z.pos my)) as [q r]. cbn [fst] in Hq.
  now apply binary_round_aux_nonneg.
Qed.

Local Open Scope float_scope.

(** The quotient of a number that is not negative by a positive finite
    number is not negative, and so is not NaN. *)
Lemma div_nonneg (x y : float) :
  nonneg (Prim2SF x) = true -> pos_finite y ->
  nonneg (Prim2SF (x / y)) = true.
Proof.
  intros Nx (m & e & Ey). rewrite div_spec, Ey.
  now apply SFdiv_nonneg.
Qed.

Local Open Scope Z_scope.

(** An integer below [2 ^ 53] is rounded to itself. *)
Lemma binary_round_integer (s : bool) (p : positive) :
  Z.pos p < 2 ^ 53 ->
  exists (m : positive) (e : Z),
    valid_binary (S754_finite s m e) = true /\
    binary_round prec emax s p 0 = S754_finite s m e.
Proof.
  intros Hz. unfold binary_round.
  pose proof (digits2_pos_bounds p) as [Hlo Hhi].
  set (d := Z.pos (digits2_pos p)) in *.
  assert (Hd1 : 1 <= d) by (unfold d; lia).
  assert (Hd : d <= 53).
  { destruct (Z.le_gt_cases d 53) as [? | Hgt]; [assumption | exfalso].
    assert (2 ^ 53 <= 2 ^ (d - 1)) by (apply Z.pow_le_mono_r; lia). lia. }
  rewrite Z.add_0_r, fexp_eq. rewrite Z.max_l by lia.
  pose proof (shl_align_down p 0 (d - 53) ltac:(lia)) as Hm.
  assert (He : snd (shl_align p 0 (d - 53)) = d - 53).
  { unfold shl_align.
    destruct (d - 53 - 0) as [| k | k] eqn:E; cbn [snd]; lia. }
  destruct (shl_align p 0 (d - 53)) as [mz ez]. cbn [fst snd] in Hm, He.
  subst ez. replace (0 - (d - 53)) with (53 - d) in Hm by lia.
  assert (Hmz : 2 ^ 52 <= Z.pos mz < 2 ^ 53).
  { assert (E52 : 2 ^ 52 = 2 ^ (d - 1) * 2 ^ (53 - d))
      by (rewrite <- Z.pow_add_r by lia; f_equal; lia).
    assert (E53 : 2 ^ 53 = 2 ^ d * 2 ^ (53 - d))
      by (rewrite <- Z.pow_add_r by lia; f_equal; lia).
    assert (0 < 2 ^ (53 - d)) by (apply Z.pow_pos_nonneg; lia).
    rewrite Hm, E52, E53.
    split; [apply Z.mul_le_mono_nonneg_r | apply Z.mul_lt_mono_pos_r]; lia. }
  assert (V : valid_binary (S754_finite s mz (d - 53)) = true).
  { cbn [valid_binary]. unfold bounded, canonical_mantissa.
    rewrite (digits2_pos_unique mz 53)
      by (replace (53 - 1) with 52 by lia; assumption).
    rewrite fexp_eq.
    apply andb_true_intro. split.
    - apply Z.eqb_eq. lia.
    - apply Z.leb_le. change (emax - prec) with 971. lia. }
  exists mz, (d - 53). split; [assumption |].
  pose proof (binary_round_aux_exact s mz (d - 53) 0 1 ltac:(lia) eq_refl V)
    as E.
  rewrite Pos.mul_1_r, Z.sub_0_r in E. exact E.
Qed.

(** An integer other than 0 between [- 2 ^ 53] and [2 ^ 53] is a finite
    double of its sign. *)
Lemma float_of_Z_finite (z : Z) :
  z <> 0 -> - 2 ^ 53 < z < 2 ^ 53 ->
  exists (m : positive) (e : Z),
    Prim2SF (float_of_Z z) = S754_finite (z <? 0) m e.
Proof.
  intros Hz Hb. unfold float_of_Z.
  destruct z as [| p | p]; [lia | |]; cbn [binary_normalize Z.ltb Z.compare].
  - destruct (binary_round_integer false p ltac:(lia)) as (m & e & V & ->).
    exists m, e. now apply Prim2SF_SF2Prim.
  - destruct (binary_round_integer true p ltac:(lia)) as (m & e & V & ->).
    exists m, e. now apply Prim2SF_SF2Prim.
Qed.

Lemma float_of_Z_pos_finite (z : Z) :
  1 <= z < 2 ^ 53 -> pos_finite (float_of_Z z).
Proof.
  intros Hz.
  destruct (float_of_Z_finite z ltac:(lia) ltac:(lia)) as (m & e & E).
  destruct (Z.ltb_spec z 0) as [? | _]; [lia |].
  exists m, e. exact E.
Qed.

End Binary64Quotient.

(** *** The shares in the order of arrival *)

Lemma Zsum_perm (l l' : list Z) : Permutation l l' -> Zsum l = Zsum l'.
Proof.
  induction 1 as [| x l l' _ IH | x y l | l l' l'' _ IH1 _ IH2];
    unfold Zsum in *; cbn [fold_right]; lia.
Qed.

Lemma map_nth_seq (l : list Z) :
  map (fun i => nth i l 0) (seq 0 (length l)) = l.
Proof.
  induction l as [| x l IH]; [reflexivity |].
  cbn [length seq map nth]. f_equal.
  rewrite <- seq_shift, map_map. exact IH.
Qed.

Section Shares.

Context {num : Type} {N : Number num}.

Variables totalSims numWorkers : Z.

(** The shares are not negative and add up to [totalSims]. *)
Lemma trial_counts_sum :
  0 <= totalSims -> 1 <= numWorkers ->
  Forall (fun c => 0 <= c) (trial_counts (num := num) totalSims numWorkers) /\
  Zsum (trial_counts (num := num) totalSims numWorkers) = totalSims.
Proof.
  intros Ht Hw.
  rewrite trial_counts_eq by assumption.
  unfold simsPerWorker, extra.
  rewrite Z.rem_mod_nonneg by lia.
  pose proof (Z.div_pos totalSims numWorkers Ht ltac:(lia)) as Hq.
  pose proof (Z.mod_pos_bound totalSims numWorkers ltac:(lia)) as Hr.
  pose proof (Z.div_mod totalSims numWorkers ltac:(lia)) as Hdm.
  split.
  - constructor; [lia |].
    apply Forall_forall. intros c Hc. apply repeat_spec in Hc. lia.
  - cbn [Zsum fold_right].
    fold (Zsum (repeat (totalSims / numWorkers) (Z.to_nat numWorkers - 1))).
    rewrite Zsum_repeat. nia.
Qed.

(** In a complete run the shares of the workers, taken in the order of
    arrival, add up to [totalSims]. *)
Lemma arrival_shares (order : list nat) :
  0 <= totalSims -> 1 <= numWorkers ->
  complete_run (num := num) totalSims numWorkers order ->
  Forall (fun i =>
            0 <= nth i (trial_counts (num := num) totalSims numWorkers) 0)
    order /\
  Zsum (map (fun i => nth i (trial_counts (num := num) totalSims numWorkers) 0)
          order) = totalSims.
Proof.
  intros Ht Hw Hrun.
  destruct (trial_counts_sum Ht Hw) as [Hpos Hsum].
  split.
  - apply Forall_forall. intros i _.
    destruct (nth_in_or_default i
                (trial_counts (num := num) totalSims numWorkers) 0)
      as [Hin | ->]; [| lia].
    exact (proj1 (Forall_forall _ _) Hpos _ Hin).
  - unfold complete_run in Hrun.
    rewrite (Zsum_perm _ _ (Permutation_map _ Hrun)).
    replace (length (workers totalSims numWorkers))
      with (length (trial_counts (num := num) totalSims numWorkers))
      by (unfold trial_counts; apply length_map).
    rewrite map_nth_seq. exact Hsum.
Qed.

(** With [totalSims <= 0] no share is positive. *)
Lemma trial_counts_nonpositive :
  totalSims <= 0 -> 1 <= numWorkers ->
  Forall (fun c => c <= 0) (trial_counts (num := num) totalSims numWorkers).
Proof.
  intros Ht Hw.
  rewrite trial_counts_eq by assumption.
  unfold simsPerWorker, extra.
  pose proof (Z.rem_nonpos totalSims numWorkers ltac:(lia) Ht) as Hr.
  assert (Hq : totalSims / numWorkers <= 0).
  { apply Z.div_le_upper_bound; lia. }
  constructor; [lia |].
  apply Forall_forall. intros c Hc. apply repeat_spec in Hc. lia.
Qed.

(** A worker whose share is not positive posts the initial 0. *)
Lemma subtotal_of_no_trial (randoms : nat -> nat -> num) (th : list num)
    (i : nat) :
  totalSims <= 0 -> 1 <= numWorkers ->
  subtotal_of totalSims numWorkers randoms th i = num_zero.
Proof.
  intros Ht Hw. unfold subtotal_of, simulate.
  assert (Hc : nth i (trial_counts (num := num) totalSims numWorkers) 0 <= 0).
  { destruct (nth_in_or_default i
                (trial_counts (num := num) totalSims numWorkers) 0)
      as [Hin | ->]; [| lia].
    exact (proj1 (Forall_forall _ _)
             (trial_counts_nonpositive Ht Hw) _ Hin). }
  replace (Z.to_nat (nth i (trial_counts (num := num) totalSims numWorkers) 0))
    with 0%nat by lia.
  reflexivity.
Qed.

Lemma arrival_sum_zero (randoms : nat -> nat -> num) (th : list num)
    (order : list nat) :
  (num_zero + num_zero)%num = num_zero ->
  totalSims <= 0 -> 1 <= numWorkers ->
  fold_left num_add
    (map (subtotal_of totalSims numWorkers randoms th) order) num_zero
  = num_zero.
Proof.
  intros Hadd Ht Hw.
  induction order as [| i rest IH]; [reflexivity |].
  cbn [map fold_left]. rewrite subtotal_of_no_trial by assumption.
  rewrite Hadd. exact IH.
Qed.

End Shares.

(** *** The grand total in exact arithmetic *)

Lemma Qcdiv_value (x y : Qc) : (this (x / y)%Qc == this x / this y)%Q.
Proof.
  unfold Qcdiv. rewrite Qcmult_value. unfold Qcinv.
  rewrite Q2Qc_value. reflexivity.
Qed.

Lemma subtotal_of_bounds (totalSims numWorkers : Z)
    (randoms : nat -> nat -> Qc) (th : list Qc) (i : nat) :
  draws_in_range (randoms i) TOP_PRIZE ->
  0 <= nth i (trial_counts (num := Qc) totalSims numWorkers) 0 ->
  (0 <= this (subtotal_of totalSims numWorkers randoms th i)
   <= inject_Z (nth i (trial_counts (num := Qc) totalSims numWorkers) 0%Z)
      * this (TOP_PRIZE (num := Qc)))%Q.
Proof.
  intros Hdraws Hc. unfold subtotal_of, simulate.
  set (c := nth i (trial_counts (num := Qc) totalSims numWorkers) 0) in *.
  destruct (sims_loop_bounds (randoms i) th MAX_PRESSES TOP_PRIZE
              (Z.to_nat c) num_zero 0 Hdraws) as [H0 H1].
  clear Hdraws.
  rewrite Z2Nat.id in H1 by assumption.
  set (res := fst (sims_loop (randoms i) (Z.to_nat c) th MAX_PRESSES TOP_PRIZE
                     num_zero 0)) in *.
  set (P := TOP_PRIZE (num := Qc)) in *.
  clearbody res P c.
  Qc_values. split; lra.
Qed.

Lemma arrival_sum_bounds (sub : nat -> Qc) (c : nat -> Z) (P : Qc)
    (order : list nat) (acc : Qc) :
  (forall i : nat, In i order ->
     (0 <= this (sub i) <= inject_Z (c i) * this P)%Q) ->
  (this acc <= this (fold_left Qcplus (map sub order) acc)
   <= this acc + inject_Z (Zsum (map c order)) * this P)%Q.
Proof.
  revert acc.
  induction order as [| i rest IH]; intros acc H; cbn [map fold_left].
  - change (inject_Z (Zsum [])) with 0%Q. split; lra.
  - assert (Hrest : forall j : nat, In j rest ->
              (0 <= this (sub j) <= inject_Z (c j) * this P)%Q)
      by (intros j Hj; apply H; now right).
    specialize (IH (acc + sub i)%Qc Hrest).
    pose proof (H i (or_introl eq_refl)) as Hi.
    rewrite Qcplus_value in IH.
    change (Zsum (c i :: map c rest)) with (c i + Zsum (map c rest)).
    rewrite inject_Z_plus.
    set (total := this (fold_left Qcplus (map sub rest) (acc + sub i)%Qc))
      in *.
    split; lra.
Qed.

Lemma fold_left_Qcplus_perm (l l' : list Qc) :
  Permutation l l' ->
  forall acc : Qc, fold_left Qcplus l acc = fold_left Qcplus l' acc.
Proof.
  induction 1 as [| x l l' _ IH | x y l | l l' l'' _ IH1 _ IH2];
    intros acc; cbn [fold_left].
  - reflexivity.
  - apply IH.
  - f_equal.
    rewrite <- !Qcplus_assoc. f_equal. apply Qcplus_comm.
  - now rewrite IH1.
Qed.

(** *** The grand total in binary64 *)

Section GrandTotalBinary64.

Local Open Scope float_scope.

Lemma arrival_sum_nonneg (subs : list float) (acc : float) :
  nonneg (Prim2SF acc) = true ->
  Forall (fun s => (0 <=? s) = true) subs ->
  nonneg (Prim2SF (fold_left PrimFloat.add subs acc)) = true.
Proof.
  intros Hacc Hsubs. revert acc Hacc.
  induction Hsubs as [| s subs Hs _ IH]; intros acc Hacc; cbn [fold_left];
    [assumption |].
  apply IH. now apply add_nonneg.
Qed.

Lemma subtotal_of_nonneg (totalSims numWorkers : Z)
    (randoms : nat -> nat -> float) (th : list float) (i : nat) :
  (forall r : nat, unit_interval (randoms i r)) ->
  (0 <=? subtotal_of totalSims numWorkers randoms th i) = true.
Proof.
  intros Hu. unfold subtotal_of, simulate.
  apply nonneg_leb_zero, sims_loop_nonneg; [| reflexivity].
  intros r. destruct (Hu r) as [H0 H1].
  apply scale_bounds; [assumption | now apply ltb_leb | pos_finite_const].
Qed.

End GrandTotalBinary64.

(** X11: the mean that a complete run of [totalSims >= 1] trials on
    [numWorkers >= 1] workers reports.  In binary64, for
    [totalSims < 2 ^ 53] and sources that return doubles of [[0, 1)],
    the mean satisfies [0 <= mean], so it is not negative and not NaN.
    In exact arithmetic, with every draw in [[0, TOP_PRIZE)], the mean
    lies between 0 and [TOP_PRIZE]. *)
Theorem mean_payout_bounds (totalSims numWorkers : Z) (order : list nat) :
  1 <= totalSims -> 1 <= numWorkers ->
  (forall randoms : nat -> nat -> float,
     totalSims < 2 ^ 53 ->
     (forall (i r : nat), unit_interval (randoms i r)) ->
     complete_run (num := float) totalSims numWorkers order ->
     exists (st : main_state) (mean : float),
       main totalSims numWorkers randoms order = Some st /\
       map report_mean (printed st) = [mean] /\
       (0 <=? mean)%float = true) /\
  (forall randoms : nat -> nat -> Qc,
     (forall i : nat, draws_in_range (randoms i) TOP_PRIZE) ->
     complete_run (num := Qc) totalSims numWorkers order ->
     exists (st : main_state) (mean : Qc),
       main totalSims numWorkers randoms order = Some st /\
       map report_mean (printed st) = [mean] /\
       (num_zero <= mean)%Qc /\ (mean <= TOP_PRIZE)%Qc).
Proof.
  intros Ht Hw. split.
  - intros randoms Hlt Hu Hrun.
    destruct (main_report totalSims numWorkers randoms order Hw Hrun)
      as (th & st & _ & Hst & Hsum & Hprinted).
    exists st, (grandTotal st / float_of_Z totalSims)%float.
    split; [assumption |].
    split; [rewrite Hprinted; reflexivity |].
    apply nonneg_leb_zero, div_nonneg.
    + rewrite Hsum. apply arrival_sum_nonneg; [reflexivity |].
      apply Forall_map, Forall_forall. intros i _.
      now apply subtotal_of_nonneg.
    + apply float_of_Z_pos_finite. lia.
  - intros randoms Hdraws Hrun.
    destruct (main_report totalSims numWorkers randoms order Hw Hrun)
      as (th & st & _ & Hst & Hsum & Hprinted).
    exists st, (grandTotal st / num_of_Z totalSims)%num.
    split; [assumption |].
    split; [rewrite Hprinted; reflexivity |].
    destruct (arrival_shares (num := Qc) totalSims numWorkers order
                ltac:(lia) Hw Hrun) as [Hpos Hshares].
    pose proof (arrival_sum_bounds
                  (subtotal_of totalSims numWorkers randoms th)
                  (fun i =>
                     nth i (trial_counts (num := Qc) totalSims numWorkers) 0)
                  TOP_PRIZE order num_zero) as Hb.
    rewrite Hshares in Hb.
    change (fold_left Qcplus) with (fold_left (@num_add Qc _)) in Hb.
    rewrite <- Hsum in Hb.
    assert (Hin : forall i : nat, In i order ->
              (0 <= this (subtotal_of totalSims numWorkers randoms th i)
               <= inject_Z
                    (nth i (trial_counts (num := Qc) totalSims numWorkers)
                       0%Z)
                  * this (TOP_PRIZE (num := Qc)))%Q).
    { intros i Hi. apply subtotal_of_bounds; [apply Hdraws |].
      exact (proj1 (Forall_forall _ _) Hpos i Hi). }
    specialize (Hb Hin). clear Hin Hsum Hprinted Hst.
    assert (HT : (0 < inject_Z totalSims)%Q)
      by (rewrite <- (Zlt_Qlt 0); lia).
    set (G := grandTotal st) in *. set (P := TOP_PRIZE (num := Qc)) in *.
    clearbody G P.
    unfold Qcle.
    change (@num_div Qc _) with Qcdiv.
    change (@num_of_Z Qc _ totalSims) with (Q2Qc (inject_Z totalSims)).
    change (@num_zero Qc _) with (Q2Qc 0) in *.
    rewrite Qcdiv_value, !Q2Qc_value. rewrite Q2Qc_value in Hb.
    split.
    + apply Qle_shift_div_l; [assumption | lra].
    + apply Qle_shift_div_r; [assumption | lra].
Qed.

Lemma mean_payout_bounds_witness :
  (exists (st : main_state) (mean : float),
     main 7 2 (fun _ _ => 0.5%float) [1; 0]%nat = Some st /\
     map report_mean (printed st) = [mean] /\
     (0 <=? mean)%float = true) /\
  (exists (st : main_state) (mean : Qc),
     main 7 2 (fun _ _ => num_half) [1; 0]%nat = Some st /\
     map report_mean (printed st) = [mean] /\
     (num_zero <= mean)%Qc /\ (mean <= TOP_PRIZE)%Qc).
Proof.
  assert (Hrun : forall (num : Type) (N : Number num),
            complete_run (num := num) 7 2 [1; 0]%nat).
  { intros num N. unfold complete_run. rewrite workers_length.
    cbn [Z.to_nat Pos.to_nat Pos.iter_op Nat.add seq]. apply perm_swap. }
  destruct (mean_payout_bounds 7 2 [1; 0]%nat ltac:(lia) ltac:(lia))
    as [Hf Hq].
  split.
  - apply Hf; [reflexivity | | apply Hrun].
    intros i r. split; reflexivity.
  - apply Hq; [| apply Hrun].
    intros i r. split; vm_compute; [discriminate | reflexivity].
Defined.

(** X12: a run with [totalSims <= 0] is not refused.  With
    [numWorkers >= 1] no worker is given a positive number of trials,
    every subtotal is the initial 0, the grand total is 0 and one report
    is printed; for a negative [totalSims] above [- 2 ^ 53] its mean is
    [0 / totalSims], the negative zero. *)
Theorem nonpositive_trials_run_nothing (totalSims numWorkers : Z)
    (randoms : nat -> nat -> float) (order : list nat) :
  totalSims <= 0 -> 1 <= numWorkers ->
  complete_run (num := float) totalSims numWorkers order ->
  Forall (fun c => c <= 0) (trial_counts (num := float) totalSims numWorkers) /\
  exists st : main_state,
    main totalSims numWorkers randoms order = Some st /\
    grandTotal st = 0%float /\
    length (printed st) = 1%nat /\
    (- 2 ^ 53 < totalSims < 0 ->
     map report_mean (printed st) = [neg_zero]).
Proof.
  intros Ht Hw Hrun.
  split; [now apply trial_counts_nonpositive |].
  destruct (main_report totalSims numWorkers randoms order Hw Hrun)
    as (th & st & _ & Hst & Hsum & Hprinted).
  rewrite arrival_sum_zero in Hsum by (assumption || reflexivity).
  exists st.
  split; [assumption |].
  split; [assumption |].
  split; [now rewrite Hprinted |].
  intros Hneg. rewrite Hprinted, Hsum. cbn [map report_mean]. f_equal.
  apply Prim2SF_inj.
  change (@num_div float _) with PrimFloat.div.
  change (@num_of_Z float _) with float_of_Z.
  change (@num_zero float _) with 0%float.
  rewrite div_spec.
  destruct (float_of_Z_finite totalSims ltac:(lia) ltac:(lia)) as (m & e & E).
  rewrite E.
  destruct (Z.ltb_spec totalSims 0) as [_ | ?]; [reflexivity | lia].
Qed.

Lemma nonpositive_trials_run_nothing_witness :
  Forall (fun c => c <= 0) (trial_counts (num := float) (-5) 2) /\
  exists st : main_state,
    main (-5) 2 (fun _ _ => 0.5%float) [1; 0]%nat = Some st /\
    grandTotal st = 0%float /\
    length (printed st) = 1%nat /\
    (- 2 ^ 53 < -5 < 0 ->
     map report_mean (printed st) = [neg_zero]).
Proof.
  apply nonpositive_trials_run_nothing; [lia | lia |].
  unfold complete_run. rewrite workers_length.
  cbn [Z.to_nat Pos.to_nat Pos.iter_op Nat.add seq].
  apply perm_swap.
Defined.

(** X13: the order in which the subtotals arrive.  In exact arithmetic
    two complete runs that differ only in that order end with the same
    grand total and print the same report.  In binary64 the sum is
    accumulated in the order of arrival and the report can differ:
    three workers with one trial each, whose sources always return the
    doubles nearest to 1/3, 2/3 and 1/7, report two different means for
    the orders 0, 1, 2 and 0, 2, 1. *)
Theorem report_arrival_order :
  (forall (totalSims numWorkers : Z) (randoms : nat -> nat -> Qc)
          (order order' : list nat),
     1 <= numWorkers ->
     complete_run (num := Qc) totalSims numWorkers order ->
     complete_run (num := Qc) totalSims numWorkers order' ->
     exists st st' : main_state,
       main totalSims numWorkers randoms order = Some st /\
       main totalSims numWorkers randoms order' = Some st' /\
       grandTotal st = grandTotal st' /\
       printed st = printed st') /\
  (exists st st' : main_state,
     (forall i r : nat, unit_interval (thirds i r)) /\
     complete_run (num := float) 3 3 [0; 1; 2]%nat /\
     complete_run (num := float) 3 3 [0; 2; 1]%nat /\
     main 3 3 thirds [0; 1; 2]%nat = Some st /\
     main 3 3 thirds [0; 2; 1]%nat = Some st' /\
     map report_mean (printed st) = [0x1.299e79e79e79ep+15%float] /\
     map report_mean (printed st') = [0x1.299e79e79e79dp+15%float] /\
     printed st <> printed st').
Proof.
  split.
  - intros totalSims numWorkers randoms order order' Hw Hrun Hrun'.
    destruct (main_report totalSims numWorkers randoms order Hw Hrun)
      as (th & st & Hth & Hst & Hsum & Hprinted).
    destruct (main_report totalSims numWorkers randoms order' Hw Hrun')
      as (th' & st' & Hth' & Hst' & Hsum' & Hprinted').
    assert (th' = th) by congruence. subst th'.
    assert (E : grandTotal st = grandTotal st').
    { rewrite Hsum, Hsum'.
      apply (fold_left_Qcplus_perm
               (map (subtotal_of totalSims numWorkers randoms th) order)
               (map (subtotal_of totalSims numWorkers randoms th) order')).
      apply Permutation_map.
      unfold complete_run in Hrun, Hrun'.
      apply (perm_trans Hrun). now apply Permutation_sym. }
    exists st, st'.
    split; [assumption |]. split; [assumption |]. split; [assumption |].
    now rewrite Hprinted, Hprinted', E.
  - do 2 eexists.
    split.
    { intros [| [| i]] r; split; reflexivity. }
    split.
    { unfold complete_run. rewrite workers_length. apply Permutation_refl. }
    split.
    { unfold complete_run. rewrite workers_length.
      cbn [Z.to_nat Pos.to_nat Pos.iter_op Nat.add seq].
      apply perm_skip, perm_swap. }
    split; [vm_compute; reflexivity |].
    split; [vm_compute; reflexivity |].
    split; [vm_compute; reflexivity |].
    split; [vm_compute; reflexivity |].
    intros E.
    apply (f_equal (map (fun rep => Prim2SF (report_mean rep)))) in E.
    vm_compute in E. discriminate.
Qed.

Lemma report_arrival_order_witness :
  exists st st' : main_state,
    main 7 2 (fun _ _ => num_half) [0; 1]%nat = Some st /\
    main 7 2 (fun _ _ => num_half) [1; 0]%nat = Some st' /\
    grandTotal (num := Qc) st = grandTotal st' /\
    printed st = printed st'.
Proof.
  apply (proj1 report_arrival_order); [lia | |].
  - unfold complete_run. rewrite workers_length. apply Permutation_refl.
  - unfold complete_run. rewrite workers_length.
    cbn [Z.to_nat Pos.to_nat Pos.iter_op Nat.add seq]. apply perm_swap.
Defined.

(** *** The lines of the report *)

Section ReportLines.

Context {num : Type} {N : Number num}.

Lemma forEach_lines_table (g : nat -> num) (prize : num) (n : nat) (i : Z) :
  forEach_lines (table g prize n) i
  = map (fun j => (MAX_PRESSES - i - Z.of_nat j,
                   (g (n - 1 - j)%nat * prize)%num)) (seq 0 n).
Proof.
  revert i. induction n as [| n IH]; intros i; [reflexivity |].
  rewrite table_succ. cbn [forEach_lines seq map].
  f_equal; [f_equal; [lia | do 2 f_equal; lia] |].
  rewrite IH, <- seq_shift, map_map.
  apply map_ext. intros j. f_equal; [lia | do 2 f_equal; lia].
Qed.

Lemma default_lines :
  forEach_lines (table f_code (TOP_PRIZE (num := num)) (Z.to_nat MAX_PRESSES)) 0
  = map (fun k => (k, (f_code (Z.to_nat (k - 1)) * TOP_PRIZE)%num))
      [10; 9; 8; 7; 6; 5; 4; 3; 2; 1].
Proof. rewrite forEach_lines_table. reflexivity. Qed.

End ReportLines.

(** X14: the lines of the report.  The report of a complete run lists
    ten thresholds; the line that says [k] (presses) left, for [k] from
    10 down to 1, shows the threshold [f (k - 1) * TOP_PRIZE] of the
    state with [k] presses remaining, where [f] is the recurrence of
    [computeF]: the labels [MAX_PRESSES - i] agree with the order of the
    table. *)
Theorem report_lines_labels {num : Type} {N : Number num}
    (totalSims numWorkers : Z) (randoms : nat -> nat -> num)
    (order : list nat) :
  1 <= numWorkers ->
  complete_run (num := num) totalSims numWorkers order ->
  exists (st : main_state) (rep : report),
    main totalSims numWorkers randoms order = Some st /\
    printed st = [rep] /\
    report_lines rep
    = map (fun k => (k, (f_code (Z.to_nat (k - 1)) * TOP_PRIZE)%num))
        [10; 9; 8; 7; 6; 5; 4; 3; 2; 1].
Proof.
  intros Hw Hrun.
  destruct (main_report totalSims numWorkers randoms order Hw Hrun)
    as (th & st & Hth & Hst & _ & Hprinted).
  rewrite thresholds_eq in Hth. injection Hth as <-.
  eexists st, _.
  split; [assumption |].
  split; [exact Hprinted |].
  unfold report_lines. cbn [report_thresholds].
  apply default_lines.
Qed.

Lemma report_lines_labels_witness :
  exists (st : main_state) (rep : report),
    main 7 2 (fun _ _ => 0.5%float) [1; 0]%nat = Some st /\
    printed st = [rep] /\
    report_lines rep
    = map (fun k => (k, (f_code (Z.to_nat (k - 1)) * TOP_PRIZE)%num))
        [10; 9; 8; 7; 6; 5; 4; 3; 2; 1].
Proof.
  apply report_lines_labels; [lia |].
  unfold complete_run. rewrite workers_length.
  cbn [Z.to_nat Pos.to_nat Pos.iter_op Nat.add seq].
  apply perm_swap.
Defined.

(** ** The arguments of the command line *)

Lemma leading_digits_app (ds rest : jsstring) (acc : Z) :
  Forall (fun c => is_digit c = true) ds ->
  no_digit_ahead rest ->
  leading_digits (ds ++ rest) acc
  = fold_left (fun a c => 10 * a + (Z.of_N c - 48)) ds acc.
Proof.
  intros Hds Hrest. revert acc.
  induction Hds as [| c ds Hc _ IH]; intros acc; cbn [app fold_left].
  - destruct rest as [| c rest]; [reflexivity |].
    cbn [leading_digits]. cbn in Hrest. now rewrite Hrest.
  - cbn [leading_digits]. rewrite Hc. apply IH.
Qed.

(** A digit is neither white space nor a sign. *)
Lemma digit_not_space (c : N) :
  is_digit c = true ->
  is_white_space c = false /\ (c =? 45)%N = false /\ (c =? 43)%N = false.
Proof.
  unfold is_digit. intros H. apply andb_prop in H. destruct H as [H1 H2].
  apply N.leb_le in H1, H2.
  unfold is_white_space. cbn [existsb].
  repeat split;
    repeat match goal with
      | |- context [(?a =? ?b)%N] => destruct (N.eqb_spec a b); [lia |]
      | |- context [(?a <=? ?b)%N] => destruct (N.leb_spec a b); [| try lia]
      end; try reflexivity; try lia.
Qed.

(** X15: the number of simulations read from the command line.  A
    missing or empty argument gives 10000000000.  An argument that
    starts with decimal digits gives the number these digits write, and
    whatever follows the digits is ignored (so [1e6] is read as 1).  An
    argument that starts with a code unit that is neither white space,
    a sign nor a digit gives NaN; nothing is refused. *)
Theorem totalSims_of_argument :
  totalSims_of None = float_of_Z 10000000000 /\
  totalSims_of (Some []) = float_of_Z 10000000000 /\
  (forall ds rest : jsstring,
     ds <> [] ->
     Forall (fun c => is_digit c = true) ds ->
     no_digit_ahead rest ->
     totalSims_of (Some (ds ++ rest)) = float_of_Z (numeral_value ds)) /\
  (forall (c : N) (rest : jsstring),
     is_white_space c = false -> c <> 45%N -> c <> 43%N ->
     is_digit c = false ->
     totalSims_of (Some (c :: rest)) = nan).
Proof.
  split; [reflexivity |].
  split; [reflexivity |].
  split.
  - intros ds rest Hne Hds Hrest.
    destruct ds as [| c ds]; [contradiction |].
    inversion Hds as [| ? ? Hc Hds']; subst.
    destruct (digit_not_space c Hc) as (Hw & Hm & Hp).
    unfold totalSims_of. cbn [app]. unfold parseInt.
    cbn [trim_start]. rewrite Hw, Hm, Hp. cbn [orb]. rewrite Hc.
    change (c :: ds ++ rest) with ((c :: ds) ++ rest).
    rewrite (leading_digits_app (c :: ds) rest 0 Hds Hrest).
    fold (numeral_value (c :: ds)).
    destruct (Z.eqb_spec (numeral_value (c :: ds)) 0) as [E | _];
      [now rewrite E | reflexivity].
  - intros c rest Hw Hm Hp Hd.
    unfold totalSims_of, parseInt. cbn [trim_start]. rewrite Hw.
    destruct (N.eqb_spec c 45) as [? | _]; [contradiction |].
    destruct (N.eqb_spec c 43) as [? | _]; [contradiction |].
    cbn [orb]. now rewrite Hd.
Qed.

Lemma totalSims_of_argument_witness :
  totalSims_of (Some [49; 101; 54]%N) = float_of_Z (numeral_value [49%N]).
Proof.
  apply (proj1 (proj2 (proj2 totalSims_of_argument)) [49%N] [101; 54]%N).
  - discriminate.
  - repeat constructor.
  - reflexivity.
Defined.

(** * The catalogue tools *)

(** ** The table of [printProducts] *)

Lemma slice_length (s : jsstring) (e : Z) :
  0 <= e <= Z.of_nat (length s) ->
  slice s e = firstn (Z.to_nat e) s /\ Z.of_nat (length (slice s e)) = e.
Proof.
  intros H. unfold slice.
  destruct (Z.ltb_spec e 0) as [? | _]; [lia |].
  rewrite Z.min_l by lia. split; [reflexivity |].
  rewrite length_firstn. lia.
Qed.

(** A cell has the width it is given. *)
Lemma pad_length (s : jsstring) (len : Z) :
  1 <= len -> length (pad s len) = Z.to_nat len.
Proof.
  intros Hlen. unfold pad.
  destruct (Z.gtb_spec (Z.of_nat (length s)) len) as [Hgt | Hle].
  - destruct (slice_length s (len - 1) ltac:(lia)) as [_ L].
    rewrite length_app. cbn [length]. lia.
  - unfold padEnd.
    destruct (Z.leb_spec len (Z.of_nat (length s))) as [Heq | Hlt]; [lia |].
    rewrite length_app, repeat_length. lia.
Qed.

(** X16: [pad] makes a cell of exactly [len] code units, for every
    string and every [len >= 1]: a string that fits is kept and filled
    with spaces on the right, a longer one is cut to its first
    [len - 1] code units followed by the ellipsis. *)
Theorem pad_width (s : jsstring) (len : Z) :
  1 <= len ->
  Z.of_nat (length (pad s len)) = len /\
  (Z.of_nat (length s) <= len ->
   pad s len = s ++ repeat SPACE (Z.to_nat (len - Z.of_nat (length s)))) /\
  (len < Z.of_nat (length s) ->
   pad s len = firstn (Z.to_nat (len - 1)) s ++ [ELLIPSIS]).
Proof.
  intros Hlen.
  split; [rewrite pad_length by assumption; lia |].
  unfold pad.
  destruct (Z.gtb_spec (Z.of_nat (length s)) len) as [Hgt | Hle].
  - destruct (slice_length s (len - 1) ltac:(lia)) as [E _].
    split; [lia |]. intros _. now rewrite E.
  - unfold padEnd.
    destruct (Z.leb_spec len (Z.of_nat (length s))) as [Heq | Hlt].
    + assert (E : len = Z.of_nat (length s)) by lia.
      split; [| lia]. intros _.
      rewrite E, Z.sub_diag. cbn [Z.to_nat repeat]. now rewrite app_nil_r.
    + split; [reflexivity | lia].
Qed.

Lemma pad_width_witness :
  Z.of_nat (length (pad [76; 105; 110; 107]%N 3)) = 3 /\
  pad [76; 105; 110; 107]%N 3
  = firstn (Z.to_nat (3 - 1)) [76; 105; 110; 107]%N ++ [ELLIPSIS].
Proof.
  destruct (pad_width [76; 105; 110; 107]%N 3 ltac:(lia)) as (H1 & _ & H3).
  split; [exact H1 |]. apply H3. cbn. lia.
Defined.

(** A row of five cells is as wide as the rule. *)
Lemma format_row_length (c0 c1 c2 c3 c4 : jsstring) :
  length (format_row [c0; c1; c2; c3; c4]) = length rule.
Proof.
  unfold format_row. cbn [map_index join].
  change (lookup widths 0) with (Some 6).
  change (lookup widths (0 + 1)) with (Some 40).
  change (lookup widths (0 + 1 + 1)) with (Some 8).
  change (lookup widths (0 + 1 + 1 + 1)) with (Some 9).
  change (lookup widths (0 + 1 + 1 + 1 + 1)) with (Some 40).
  rewrite !length_app, !pad_length by lia.
  reflexivity.
Qed.

(** X17: what [printProducts] logs.  For no product it logs the one
    message [No matching products.] and returns.  Otherwise it logs the
    header with the rule, one row for each product in their order, and
    an empty line; the header and every row have exactly 115 code
    units, the number of dashes of the rule, whatever the names, links
    and numerals are. *)
Theorem printProducts_widths (toString : Z -> jsstring)
    (toFixed : float -> jsstring) (rows : list Product) :
  length rule = 115%nat /\
  (rows = [] ->
   printProducts toString toFixed rows = [[no_matching_products]]) /\
  (rows <> [] ->
   exists header : jsstring,
     printProducts toString toFixed rows
     = [header; [10%N]; rule]
         :: map (fun p => [format_row (cells toString toFixed p)]) rows
         ++ [[]] /\
     length header = 115%nat /\
     forall p : Product,
       length (format_row (cells toString toFixed p)) = 115%nat).
Proof.
  split; [reflexivity |].
  split; [intros ->; reflexivity |].
  intros Hrows. exists (format_row headers).
  split; [destruct rows; [contradiction | reflexivity] |].
  split; [reflexivity |].
  intros p. unfold cells. apply format_row_length.
Qed.

Lemma printProducts_widths_witness :
  exists header : jsstring,
    printProducts (fun _ => [55%N]) (fun _ => [])
      [{| product_id := 7; product_name := [66%N]; product_price := None;
          product_is_in_stock := true; product_link := [] |}]
    = [header; [10%N]; rule]
        :: map (fun p => [format_row (cells (fun _ => [55%N]) (fun _ => []) p)])
             [{| product_id := 7; product_name := [66%N];
                 product_price := None; product_is_in_stock := true;
                 product_link := [] |}]
        ++ [[]] /\
    length header = 115%nat /\
    forall p : Product,
      length (format_row (cells (fun _ => [55%N]) (fun _ => []) p)) = 115%nat.
Proof.
  apply (proj2 (proj2 (printProducts_widths (fun _ => [55%N]) (fun _ => [])
                         [{| product_id := 7; product_name := [66%N];
                             product_price := None;
                             product_is_in_stock := true;
                             product_link := [] |}]))).
  discriminate.
Defined.

(** ** The set of the product links *)

Lemma Set_add_spec (s : list jsstring) (x : jsstring) :
  NoDup s ->
  NoDup (Set_add s x) /\
  forall y : jsstring, In y (Set_add s x) <-> In y s \/ y = x.
Proof.
  intros Hs. unfold Set_add.
  destruct (in_dec (list_eq_dec N.eq_dec) x s) as [Hin | Hout].
  - split; [assumption |].
    intros y. split; [now left | intros [H | ->]; assumption].
  - split.
    + apply NoDup_app; [assumption | repeat constructor; intros [] |].
      intros y Hy [<- | []]. contradiction.
    + intros y. rewrite in_app_iff. cbn [In]. split.
      * intros [H | [<- | []]]; auto.
      * intros [H | ->]; auto.
Qed.

Lemma fold_Set_add_spec (values s : list jsstring) :
  NoDup s ->
  NoDup (fold_left Set_add values s) /\
  forall y : jsstring,
    In y (fold_left Set_add values s) <-> In y s \/ In y values.
Proof.
  revert s.
  induction values as [| x rest IH]; intros s Hs; cbn [fold_left].
  - split; [assumption |]. intros y. cbn [In]. tauto.
  - destruct (Set_add_spec s x Hs) as [Hn Hin].
    destruct (IH (Set_add s x) Hn) as [Hn' Hin'].
    split; [assumption |].
    intros y. rewrite Hin', Hin. cbn [In]. intuition congruence.
Qed.

Lemma fold_Set_add_nodup (values s : list jsstring) :
  NoDup (s ++ values) -> fold_left Set_add values s = s ++ values.
Proof.
  revert s.
  induction values as [| x rest IH]; intros s H; cbn [fold_left].
  - now rewrite app_nil_r.
  - assert (Hx : ~ In x s).
    { intros Hin. apply NoDup_remove_2 in H. apply H.
      apply in_or_app. now left. }
    unfold Set_add.
    destruct (in_dec (list_eq_dec N.eq_dec) x s) as [Hin | _];
      [contradiction |].
    rewrite IH; rewrite <- app_assoc; [reflexivity | exact H].
Qed.

(** X18: the links that [getProductLinks] returns when every page is
    fetched: no link twice; exactly the links found on the pages of the
    given categories; and, when the pages hold no link twice, all of
    them in the order of the pages. *)
Theorem getProductLinks_set (hrefs : jsstring -> list jsstring)
    (links : list jsstring) :
  NoDup (getProductLinks hrefs links) /\
  (forall href : jsstring,
     In href (getProductLinks hrefs links) <->
     exists link : jsstring, In link links /\ In href (hrefs link)) /\
  (NoDup (concat (map hrefs links)) ->
   getProductLinks hrefs links = concat (map hrefs links)).
Proof.
  unfold getProductLinks, Set_from.
  destruct (fold_Set_add_spec (concat (map hrefs links)) [] (NoDup_nil _))
    as [Hn Hin].
  split; [assumption |].
  split.
  - intros href. rewrite Hin, in_concat. cbn [In]. split.
    + intros [[] | (l & Hl & Hh)].
      apply in_map_iff in Hl. destruct Hl as (link & <- & Hlink). eauto.
    + intros (link & Hlink & Hh). right.
      exists (hrefs link). split; [now apply in_map | assumption].
  - intros H. now apply (fold_Set_add_nodup _ []).
Qed.

Lemma getProductLinks_set_witness :
  getProductLinks (fun link => [link; 1%N :: link]) [[2%N]; [3%N]]
  = concat (map (fun link => [link; 1%N :: link]) [[2%N]; [3%N]]).
Proof.
  apply (proj2 (proj2 (getProductLinks_set
                         (fun link => [link; 1%N :: link]) [[2%N]; [3%N]]))).
  cbn [map concat app].
  repeat constructor; cbn [In]; intuition discriminate.
Defined.
